(** * Interlis 1 layer: curve-to-polygon assembly (ogrili1layer.cpp)

    A shallow embedding of [OGRILI1Layer]: the feature cursor and the
    look-ups by key, the stitching of curve fragments into rings
    ([JoinSurfaceLayer]), the choice of the exterior ring, and the
    polygonization of area layers ([Polygonize], [PolygonizeAreaLayer]).
    It is followed by the writer of the layer ([ICreateFeature],
    [GeometryAppend]) and by the coordinate translations of libgeotiff
    (geo_trans.c).

    Coordinates and areas are C [double]s and are modelled by the kernel's
    binary64 floats, so that [fabs (a - b) < 1e-14] is the very test the
    program runs. *)

From Stdlib Require Import ZArith Bool Lia.
From Stdlib Require Import Floats.
From stdpp Require Import base option list strings.

Open Scope Z_scope.

(** ** Doubles *)

Module Dbl.

(** [fabs (a - b) < eps], as written in the matching tests. *)
Definition fabs_diff_lt (a b eps : float) : bool :=
  PrimFloat.ltb (PrimFloat.abs (PrimFloat.sub a b)) eps.

(** C's [a >= b] on doubles: false as soon as one side is a NaN. *)
Definition ge (a b : float) : bool := PrimFloat.leb b a.

End Dbl.

(** ** Geometry

    Only what the layer code looks at: end points of curves, the members of
    compound curves and of collections, and the flattened geometry type. *)

(** An [OGRPoint] as the stitcher reads it, through [getX] and [getY]. *)
Record OGRPoint : Type := mkPoint { getX : float; getY : float }.

(** [OGRPoint()] : the point the default constructor builds. The code
    declares [endPointCC] this way and reads it only after a first
    fragment has overwritten it. *)
Definition OGRPoint_default : OGRPoint := mkPoint 0%float 0%float.

(** The two simple curve classes, by their flattened type. *)
Inductive OGRSimpleCurveType : Type := scLineString | scCircularString.

Record OGRSimpleCurve : Type := mkSimpleCurve {
  scType : OGRSimpleCurveType;
  paoPoints : list OGRPoint
}.

(** A compound curve is the sequence of its member curves, which the code
    treats as simple curves ([getCurve(i)->toSimpleCurve()]). *)
Abbreviation OGRCompoundCurve := (list OGRSimpleCurve).

Inductive OGRCurve : Type :=
  | SimpleCurve (sc : OGRSimpleCurve)
  | CompoundCurve (papoCurves : OGRCompoundCurve).

Definition sc_StartPoint (sc : OGRSimpleCurve) : OGRPoint :=
  default OGRPoint_default (head (paoPoints sc)).

Definition sc_EndPoint (sc : OGRSimpleCurve) : OGRPoint :=
  default OGRPoint_default (last (paoPoints sc)).

Definition cc_StartPoint (cc : OGRCompoundCurve) : OGRPoint :=
  default OGRPoint_default (sc_StartPoint <$> head cc).

Definition cc_EndPoint (cc : OGRCompoundCurve) : OGRPoint :=
  default OGRPoint_default (sc_EndPoint <$> last cc).

(** [curve->StartPoint(&p)] and [curve->EndPoint(&p)]. The pool only holds
    curves that passed [!curve->IsEmpty()]; on an empty curve the model
    leaves [p] as constructed. *)
Definition StartPoint (c : OGRCurve) : OGRPoint :=
  match c with
  | SimpleCurve sc => sc_StartPoint sc
  | CompoundCurve cc => cc_StartPoint cc
  end.

Definition EndPoint (c : OGRCurve) : OGRPoint :=
  match c with
  | SimpleCurve sc => sc_EndPoint sc
  | CompoundCurve cc => cc_EndPoint cc
  end.

(** [OGRSimpleCurve::reversePoints]. *)
Definition reversePoints (sc : OGRSimpleCurve) : OGRSimpleCurve :=
  mkSimpleCurve (scType sc) (reverse (paoPoints sc)).

(** [const double dfEps = 1e-14;] : the double nearest to 1e-14. *)
Definition dfEps : float := 0x1.6849b86a12b9bp-47%float.

(** [fabs(p.getX() - q.getX()) < dfEps && fabs(p.getY() - q.getY()) < dfEps] *)
Definition matches (p q : OGRPoint) : bool :=
  Dbl.fabs_diff_lt (getX p) (getX q) dfEps
  && Dbl.fabs_diff_lt (getY p) (getY q) dfEps.

(** Modelled from the spec: [OGRCurve::get_IsClosed] is defined with the
    curve classes, not in ogrili1layer.cpp; the spec gives the closedness
    test of a ring as "start vertex equals end vertex within tolerance". *)
Definition get_IsClosed (cc : OGRCompoundCurve) : bool :=
  matches (cc_StartPoint cc) (cc_EndPoint cc).

(** ** Diagnostics and engine calls

    What the code reports through [CPLError] and [CPLDebug], and the calls it
    makes into the geometry engine. Every function of the model returns,
    next to its result, the events of the call in the order they happen. *)

Inductive Event : Type :=
  (** "Couldn't join feature FID %d" *)
  | WarnCouldntJoin (reftid : Z)
  (** "A ring %s for feature %d in layer %s was not closed. Dropping it" *)
  | WarnRingNotClosed (json : OGRCompoundCurve) (fid : Z) (layer : string)
  (** "Cannot add ring %s to feature %d in layer %s" *)
  | WarnCannotAddRing (json : OGRCurve) (fid : Z) (layer : string)
  (** [CPLDebug("OGR_ILI", ...)], by its format string *)
  | Debug (msg : string)
  (** entry into [JoinGeomLayers] *)
  | CallJoinGeomLayers
  (** entry into [Polygonize], with its [fix_crossing_lines] argument *)
  | CallPolygonize (fix_crossing_lines : bool)
  (** calls into the geometry engine *)
  | EngineUnion
  | EngineCreateContext
  | EngineExport
  | EnginePolygonize
  | EngineImport
  | EngineIsValid
  | EngineWithin
  | EngineDestroy
  | EngineFreeContext.

Definition is_engine_call (e : Event) : bool :=
  match e with
  | EngineUnion | EngineCreateContext | EngineExport | EnginePolygonize
  | EngineImport | EngineIsValid | EngineWithin | EngineDestroy
  | EngineFreeContext => true
  | _ => false
  end.

(** ** The stitcher: the two inner loops of [JoinSurfaceLayer] *)

Module Stitch.

(** The variables of the loop that grows one ring. *)
Record RingState : Type := mkRing {
  oCurves : list OGRCurve;       (* fragments not yet absorbed *)
  poCC : OGRCompoundCurve;       (* the ring under construction *)
  endPointCC : OGRPoint;         (* its trailing end point *)
  bFirst : bool
}.

Inductive Orientation : Type := Forward | Reversed.

(** The test of the first branch of the [for] loop,
    [bFirst || (fabs(startPoint.getX() - endPointCC.getX()) < dfEps && ...)]. *)
Definition forward_test (first : bool) (endPt : OGRPoint) (curve : OGRCurve)
    : bool :=
  first || matches (StartPoint curve) endPt.

(** The test of the [else if] branch, on the end point of the fragment. *)
Definition reversed_test (endPt : OGRPoint) (curve : OGRCurve) : bool :=
  matches (EndPoint curve) endPt.

(** The [for] loop over [oCurves], up to its [break]: the position of the
    fragment it stops at and the branch taken there. Each fragment is
    tested for a forward match and then, failing that, for a reversed one,
    before the next fragment is looked at. *)
Fixpoint find_fragment (first : bool) (endPt : OGRPoint)
    (pool : list OGRCurve) : option (nat * Orientation) :=
  match pool with
  | [] => None
  | curve :: rest =>
      if forward_test first endPt curve then Some (0%nat, Forward)
      else if reversed_test endPt curve then Some (0%nat, Reversed)
      else prod_map S id <$> find_fragment first endPt rest
  end.

(** What [poCC] receives from a fragment taken forward: the curve itself,
    or the members of a compound curve in their order. *)
Definition forward_pieces (curve : OGRCurve) : OGRCompoundCurve :=
  match curve with
  | SimpleCurve sc => [sc]
  | CompoundCurve subs => subs
  end.

(** What [poCC] receives from a fragment taken reversed: a reversed clone
    of a simple curve, or reversed clones of the members of a compound
    curve from the last to the first. *)
Definition reversed_pieces (curve : OGRCurve) : OGRCompoundCurve :=
  match curve with
  | SimpleCurve sc => [reversePoints sc]
  | CompoundCurve subs => reversePoints <$> reverse subs
  end.

(** The body of the branch taken, [oCurves.erase] included.
    Modelled from the spec: [OGRCompoundCurve::addCurve] and
    [addCurveDirectly] are defined with the curve classes, not in
    ogrili1layer.cpp; the fragment is absorbed at the end of the ring. *)
Definition absorb (st : RingState) (i : nat) (curve : OGRCurve)
    (o : Orientation) : RingState :=
  match o with
  | Forward =>
      mkRing (delete i (oCurves st)) (poCC st ++ forward_pieces curve)
             (EndPoint curve) false
  | Reversed =>
      mkRing (delete i (oCurves st)) (poCC st ++ reversed_pieces curve)
             (StartPoint curve) (bFirst st)
  end.

(** One pass of the [for] loop: [None] when [bNewCurveAdded] stays false. *)
Definition scan (st : RingState) : option RingState :=
  '(i, o) ← find_fragment (bFirst st) (endPointCC st) (oCurves st);
  curve ← oCurves st !! i;
  Some (absorb st i curve o).

Definition empty {A} (l : list A) : bool :=
  match l with [] => true | _ => false end.

(** The test after an absorption, which together with [bNewCurveAdded]
    makes the exit condition of the inner [while (true)]. *)
Definition pool_empty_or_closed (st : RingState) : bool :=
  empty (oCurves st) || get_IsClosed (poCC st).

(** The inner [while (true)]. Every pass that does not leave the loop
    erases a fragment, so the size of the pool bounds the passes. *)
Fixpoint ring_loop (fuel : nat) (st : RingState) : option RingState :=
  match fuel with
  | O => None
  | S fuel' =>
      match scan st with
      | None => Some st
      | Some st' =>
          if pool_empty_or_closed st' then Some st' else ring_loop fuel' st'
      end
  end.

(** The state in which a new ring starts. *)
Definition start_ring (pool : list OGRCurve) : RingState :=
  mkRing pool [] OGRPoint_default true.

Definition assemble_ring (pool : list OGRCurve) : option RingState :=
  ring_loop (S (length pool)) (start_ring pool).

(** The state after [n] passes of the [for] loop that each absorbed a
    fragment. *)
Fixpoint passes (n : nat) (st : RingState) : option RingState :=
  match n with
  | O => Some st
  | S n' => scan st ≫= passes n'
  end.



End Stitch.

(** ** Geometries, features and layers *)

Inductive OGRwkbGeometryType : Type :=
  | wkbPoint | wkbLineString | wkbPolygon | wkbMultiPoint
  | wkbMultiLineString | wkbMultiPolygon | wkbGeometryCollection
  | wkbCircularString | wkbCompoundCurve | wkbCurvePolygon
  | wkbMultiCurve | wkbMultiSurface.

(** The collection classes, [OGRGeometryCollection] and its subclasses. *)
Inductive OGRCollectionClass : Type :=
  | GeometryCollection | MultiPoint | MultiLineString | MultiPolygon
  | MultiCurve | MultiSurface.

#[warnings="-register-all"]
Inductive OGRGeometry : Type :=
  | GeomPoint (p : OGRPoint)
  | GeomCurve (c : OGRCurve)
  (** [OGRPolygon] when [linear], [OGRCurvePolygon] otherwise; the exterior
      ring comes first. *)
  | GeomPolygon (linear : bool) (rings : list OGRCurve)
  | GeomCollection (cls : OGRCollectionClass) (members : list OGRGeometry).

(** [wkbFlatten(g->getGeometryType())] *)
Definition getGeometryType (g : OGRGeometry) : OGRwkbGeometryType :=
  match g with
  | GeomPoint _ => wkbPoint
  | GeomCurve (SimpleCurve sc) =>
      match scType sc with
      | scLineString => wkbLineString
      | scCircularString => wkbCircularString
      end
  | GeomCurve (CompoundCurve _) => wkbCompoundCurve
  | GeomPolygon true _ => wkbPolygon
  | GeomPolygon false _ => wkbCurvePolygon
  | GeomCollection GeometryCollection _ => wkbGeometryCollection
  | GeomCollection MultiPoint _ => wkbMultiPoint
  | GeomCollection MultiLineString _ => wkbMultiLineString
  | GeomCollection MultiPolygon _ => wkbMultiPolygon
  | GeomCollection MultiCurve _ => wkbMultiCurve
  | GeomCollection MultiSurface _ => wkbMultiSurface
  end.

Definition wkb_eqb (a b : OGRwkbGeometryType) : bool :=
  match a, b with
  | wkbPoint, wkbPoint | wkbLineString, wkbLineString
  | wkbPolygon, wkbPolygon | wkbMultiPoint, wkbMultiPoint
  | wkbMultiLineString, wkbMultiLineString
  | wkbMultiPolygon, wkbMultiPolygon
  | wkbGeometryCollection, wkbGeometryCollection
  | wkbCircularString, wkbCircularString
  | wkbCompoundCurve, wkbCompoundCurve | wkbCurvePolygon, wkbCurvePolygon
  | wkbMultiCurve, wkbMultiCurve | wkbMultiSurface, wkbMultiSurface => true
  | _, _ => false
  end.

(** [curve->IsEmpty()] *)
Definition sc_IsEmpty (sc : OGRSimpleCurve) : bool := Stitch.empty (paoPoints sc).

Definition curve_IsEmpty (c : OGRCurve) : bool :=
  match c with
  | SimpleCurve sc => sc_IsEmpty sc
  | CompoundCurve subs => forallb sc_IsEmpty subs
  end.

(** [dynamic_cast<OGRMultiCurve *>(poGeom)] followed by the iteration over
    its member curves: [OGRMultiLineString] derives from [OGRMultiCurve]. *)
Definition as_MultiCurve (g : option OGRGeometry) : option (list OGRCurve) :=
  match g with
  | Some (GeomCollection MultiCurve ms)
  | Some (GeomCollection MultiLineString ms) =>
      Some (omap (fun m => match m with GeomCurve c => Some c | _ => None end) ms)
  | _ => None
  end.

(** [poGeom->getNumGeometries()] and the members [getGeometryRef(i)] of a
    collection. *)
Definition members (g : OGRGeometry) : list OGRGeometry :=
  match g with
  | GeomCollection _ ms => ms
  | _ => []
  end.

(** A feature, seen through the accessors the layer code calls. *)
Record OGRFeature : Type := mkFeature {
  GetFID : Z;
  GetFieldAsString : nat -> string;
  GetFieldAsInteger64 : nat -> Z;
  geomFields : list (option OGRGeometry)
}.

Definition GetGeomFieldRef (f : OGRFeature) (iField : Z) : option OGRGeometry :=
  if (0 <=? iField) then mjoin (geomFields f !! Z.to_nat iField) else None.

(** [GetGeometryRef()] reads the first geometry field. *)
Definition GetGeometryRef (f : OGRFeature) : option OGRGeometry :=
  GetGeomFieldRef f 0.

(** [OGRFeature::SetGeomField] and [SetGeomFieldDirectly]: an index
    outside the geometry fields of the feature is refused and nothing is
    stored. *)
Definition SetGeomField (f : OGRFeature) (iField : Z) (g : OGRGeometry)
    : OGRFeature :=
  if (0 <=? iField) then
    mkFeature (GetFID f) (GetFieldAsString f) (GetFieldAsInteger64 f)
              (<[Z.to_nat iField := Some g]> (geomFields f))
  else f.

(** [OGRFeature::SetGeometry(g)] takes no field index: it writes the first
    geometry field of the feature, as [SetGeomField(0, g)] does. *)
Definition SetGeometry (f : OGRFeature) (g : OGRGeometry) : OGRFeature :=
  SetGeomField f 0 g.

Record OGRFeatureDefn : Type := mkDefn {
  GetName : string;
  (** [GetFieldDefn(0)->GetType() == OFTString] *)
  field0_is_OFTString : bool;
  (** name and type of each geometry field *)
  geomFieldDefns : list (string * OGRwkbGeometryType)
}.

(** [GetGeomFieldIndex(name)]: the position of the field, or -1. *)
Fixpoint index_of (name : string) (l : list (string * OGRwkbGeometryType))
    : option nat :=
  match l with
  | [] => None
  | (n, _) :: l' =>
      if String.eqb n name then Some 0%nat else S <$> index_of name l'
  end.

Definition GetGeomFieldIndex (d : OGRFeatureDefn) (name : string) : Z :=
  match index_of name (geomFieldDefns d) with
  | Some i => Z.of_nat i
  | None => -1
  end.

(** [GetGeomFieldDefn(i)->GetType()] *)
Definition GetGeomFieldType (d : OGRFeatureDefn) (iField : Z)
    : option OGRwkbGeometryType :=
  if (0 <=? iField) then snd <$> geomFieldDefns d !! Z.to_nat iField else None.

(** The layer object. [papoFeatures] with [nFeatures] is the list of the
    features and its length. A pointer to a feature of the layer is
    modelled by the position of the feature in [papoFeatures]. The spatial
    filter is carried with the test [FilterGeometry] applies, the attribute
    query with its [Evaluate]. *)
Record OGRILI1Layer : Type := mkLayer {
  poFeatureDefn : OGRFeatureDefn;
  papoFeatures : list OGRFeature;
  nFeatureIdx : nat;
  bGeomsJoined : bool;
  m_poFilterGeom : option (option OGRGeometry -> bool);
  m_poAttrQuery : option (OGRFeature -> bool)
}.

Definition nFeatures (l : OGRILI1Layer) : nat := length (papoFeatures l).

Definition set_nFeatureIdx (l : OGRILI1Layer) (i : nat) : OGRILI1Layer :=
  mkLayer (poFeatureDefn l) (papoFeatures l) i (bGeomsJoined l)
          (m_poFilterGeom l) (m_poAttrQuery l).

Definition set_papoFeatures (l : OGRILI1Layer) (fs : list OGRFeature)
    : OGRILI1Layer :=
  mkLayer (poFeatureDefn l) fs (nFeatureIdx l) (bGeomsJoined l)
          (m_poFilterGeom l) (m_poAttrQuery l).

Definition set_bGeomsJoined (l : OGRILI1Layer) (b : bool) : OGRILI1Layer :=
  mkLayer (poFeatureDefn l) (papoFeatures l) (nFeatureIdx l) b
          (m_poFilterGeom l) (m_poAttrQuery l).

(** The constructor: no feature, cursor at 0, geometries not joined. *)
Definition new_layer (d : OGRFeatureDefn) : OGRILI1Layer :=
  mkLayer d [] 0 false None None.

Definition AddFeature (l : OGRILI1Layer) (f : OGRFeature) : OGRILI1Layer :=
  set_papoFeatures l (papoFeatures l ++ [f]).

Definition ResetReading (l : OGRILI1Layer) : OGRILI1Layer :=
  set_nFeatureIdx l 0.

(** The filter test of [GetNextFeatureRef]. *)
Definition passes_filters (l : OGRILI1Layer) (f : OGRFeature) : bool :=
  match m_poFilterGeom l with
  | None => true
  | Some FilterGeometry => FilterGeometry (GetGeometryRef f)
  end
  &&
  match m_poAttrQuery l with
  | None => true
  | Some Evaluate => Evaluate f
  end.

(** [GetNextFeatureRef]: the feature under the cursor when it passes the
    filters, the cursor moved past it in both cases; a null pointer at the
    end of the features and also on a feature the filters exclude. The
    pointer returned is the position of the feature, given with the feature
    it points to. *)
Definition GetNextFeatureRef (l : OGRILI1Layer)
    : option (nat * OGRFeature) * OGRILI1Layer :=
  match papoFeatures l !! nFeatureIdx l with
  | Some poFeature =>
      let l' := set_nFeatureIdx l (S (nFeatureIdx l)) in
      if passes_filters l poFeature then (Some (nFeatureIdx l, poFeature), l')
      else (None, l')
  | None => (None, l)
  end.

(** The loop shared by the two [GetFeatureRef]: [matches_key] is the test
    on the feature, [GetFID() == nFID] or [!strcmp(GetFieldAsString(0), fid)].
    The loop ends when [GetNextFeatureRef] returns a null pointer. Each
    pass moves the cursor, so the number of features bounds the passes. *)
Fixpoint GetFeatureRef_loop (fuel : nat) (matches_key : OGRFeature -> bool)
    (l : OGRILI1Layer) : option (option (nat * OGRFeature) * OGRILI1Layer) :=
  match fuel with
  | O => None
  | S fuel' =>
      match GetNextFeatureRef l with
      | (Some (i, poFeature), l') =>
          if matches_key poFeature then Some (Some (i, poFeature), l')
          else GetFeatureRef_loop fuel' matches_key l'
      | (None, l') => Some (None, l')
      end
  end.

Definition GetFeatureRef_by (matches_key : OGRFeature -> bool)
    (l : OGRILI1Layer) : option (option (nat * OGRFeature) * OGRILI1Layer) :=
  GetFeatureRef_loop (S (nFeatures l)) matches_key (ResetReading l).

(** [GetFeatureRef(GIntBig nFID)] *)
Definition GetFeatureRef (nFID : Z) : OGRILI1Layer ->
    option (option (nat * OGRFeature) * OGRILI1Layer) :=
  GetFeatureRef_by (fun poFeature => GetFID poFeature =? nFID).

(** [GetFeatureRef(const char *fid)] *)
Definition GetFeatureRef_str (fid : string) : OGRILI1Layer ->
    option (option (nat * OGRFeature) * OGRILI1Layer) :=
  GetFeatureRef_by (fun poFeature => String.eqb (GetFieldAsString poFeature 0) fid).

(** ** The geometry engine

    The planar operations the layer code calls and does not define. The
    engine-native geometries ([GEOSGeom]) are modelled by the geometries
    they were exported from. *)

Record GeometryEngine : Type := mkEngine {
  (** [poCC->get_Area()] *)
  get_Area : OGRCompoundCurve -> float;
  (** [OGRCurve::CastToLinearRing(poCurve)] *)
  CastToLinearRing : OGRCompoundCurve -> OGRCurve;
  (** whether [addRingDirectly] returns [OGRERR_NONE] for this ring, given
      the class of the polygon and the rings it already has *)
  addRing_accepts : bool -> list OGRCurve -> OGRCurve -> bool;
  (** whether the code is compiled with [HAVE_GEOS] *)
  HAVE_GEOS : bool;
  (** [poLines->Union(poOther)], null on failure *)
  Union : list OGRGeometry -> OGRGeometry -> option OGRGeometry;
  (** [GEOSPolygonize_r], null on failure *)
  GEOSPolygonize_r : list OGRGeometry -> option OGRGeometry;
  (** [OGRGeometryFactory::createFromGEOS] *)
  createFromGEOS : OGRGeometry -> option OGRGeometry;
  (** [OGRGeometryFactory::forceToMultiPolygon] *)
  forceToMultiPolygon : option OGRGeometry -> option OGRGeometry;
  (** [GEOSisValid_r] *)
  GEOSisValid_r : OGRGeometry -> bool;
  (** [GEOSWithin_r(ctx, point, polygon)] *)
  GEOSWithin_r : OGRGeometry -> OGRGeometry -> bool
}.

(** ** [JoinSurfaceLayer] *)

Module Surface.

Import Stitch.

(** The variables of the loop over the rings of one feature. The rings are
    heap objects and [poLargestCurve] points to one of them: a ring is
    named by its position in [oSetDestCurves], which does not change once
    the ring has been pushed. *)
Record DestState : Type := mkDest {
  oSetDestCurves : list OGRCompoundCurve;
  dfLargestArea : float;
  poLargestCurve : option nat
}.

Definition dest_init : DestState := mkDest [] 0%float None.

(** The [else] branch at the end of the ring loop: a closed ring is
    compared with the largest area so far and pushed. *)
Definition record_ring (E : GeometryEngine) (d : DestState)
    (poCC : OGRCompoundCurve) : DestState :=
  let dfArea := get_Area E poCC in
  if Dbl.ge dfArea (dfLargestArea d)
  then mkDest (oSetDestCurves d ++ [poCC]) dfArea
              (Some (length (oSetDestCurves d)))
  else mkDest (oSetDestCurves d ++ [poCC]) (dfLargestArea d)
              (poLargestCurve d).

(** The warning that goes with a ring that is not closed. *)
Definition unclosed_warning (fid : Z) (layer : string)
    (cc : OGRCompoundCurve) : Event :=
  WarnRingNotClosed cc fid layer.

(** The outer [while (true)] over the fragments of one feature: rings are
    started until the pool is empty; a ring that is not closed is dropped
    with a warning. Every ring takes at least one fragment out of the
    pool, so the size of the pool bounds the passes. *)
Fixpoint rings_loop (E : GeometryEngine) (fuel : nat) (fid : Z)
    (layer : string) (pool : list OGRCurve) (d : DestState)
    : option (DestState * list Event) :=
  match pool with
  | [] => Some (d, [])
  | _ :: _ =>
      match fuel with
      | O => None
      | S fuel' =>
          st ← assemble_ring pool;
          if negb (get_IsClosed (poCC st))
          then
            '(d', log) ← rings_loop E fuel' fid layer (oCurves st) d;
            Some (d', unclosed_warning fid layer (poCC st) :: log)
          else
            rings_loop E fuel' fid layer (oCurves st)
                       (record_ring E d (poCC st))
      end
  end.

(** The choice of the largest ring over a sequence of closed rings. *)
Definition classify (E : GeometryEngine) (rings : list OGRCompoundCurve)
    : DestState :=
  foldl (record_ring E) dest_init rings.

(** The rings the outer loop starts one after the other, each from the
    fragments the rings before it left in the pool. *)
Fixpoint candidate_rings (fuel : nat) (pool : list OGRCurve)
    : list OGRCompoundCurve :=
  match pool, fuel with
  | [], _ | _, O => []
  | _ :: _, S fuel' =>
      match assemble_ring pool with
      | Some st => poCC st :: candidate_rings fuel' (oCurves st)
      | None => []
      end
  end.

(** [poPoly->addRingDirectly(ring)] with the warning on failure. *)
Definition add_ring (E : GeometryEngine) (linear : bool) (fid : Z)
    (layer : string) (acc : list OGRCurve * list Event) (ring : OGRCurve)
    : list OGRCurve * list Event :=
  if addRing_accepts E linear acc.1 ring
  then (acc.1 ++ [ring], acc.2)
  else (acc.1, acc.2 ++ [WarnCannotAddRing ring fid layer]).

(** The ring handed to the polygon: cast to a linear ring when the field
    is of type [wkbPolygon]. *)
Definition ring_for (E : GeometryEngine) (linear : bool)
    (cc : OGRCompoundCurve) : OGRCurve :=
  if linear then CastToLinearRing E cc else CompoundCurve cc.

(** "Now build the final polygon by first inserting the largest ring":
    the largest ring is erased from [oSetDestCurves] and added first, the
    others follow in their order. Without a largest ring the polygon
    stays empty. *)
Definition build_polygon (E : GeometryEngine) (linear : bool) (fid : Z)
    (layer : string) (d : DestState) : OGRGeometry * list Event :=
  match poLargestCurve d with
  | None => (GeomPolygon linear [], [])
  | Some k =>
      let largest := default [] (oSetDestCurves d !! k) in
      let others := delete k (oSetDestCurves d) in
      let res :=
        foldl (add_ring E linear fid layer) ([], [])
              (ring_for E linear <$> (largest :: others)) in
      (GeomPolygon linear res.1, res.2)
  end.

(** The polygon built from the fragments of one feature. *)
Definition assemble_feature (E : GeometryEngine) (linear : bool)
    (layer : string) (fid : Z) (curves : list OGRCurve)
    : option (OGRGeometry * list Event) :=
  '(d, log1) ← rings_loop E (length curves) fid layer curves dest_init;
  let '(poPoly, log2) := build_polygon E linear fid layer d in
  Some (poPoly, log1 ++ log2).

(** [std::map<OGRFeature *, std::vector<OGRCurve *>>], kept in the order
    of its keys. The code orders the keys by the addresses of the
    features; the model takes the positions at which the features are
    stored, so that the order in which the target features are assembled,
    and with it the order of the warnings across features, is that of
    the code only when the features lie in memory in the order they were
    added. No property below depends on this order. *)
Abbreviation FeatureToGeomSet := (list (nat * list OGRCurve)).

(** [oMapFeatureToGeomSet[feature].push_back(curve)] *)
Fixpoint map_push_back (feature : nat) (curve : OGRCurve)
    (m : FeatureToGeomSet) : FeatureToGeomSet :=
  match m with
  | [] => [(feature, [curve])]
  | (k, cs) :: m' =>
      if (feature =? k)%nat then (k, cs ++ [curve]) :: m'
      else if (feature <? k)%nat then (feature, [curve]) :: m
      else (k, cs) :: map_push_back feature curve m'
  end.

(** The look-up of the target feature of a line feature, by the string or
    by the integer in its second field. *)
Definition find_target (l : OGRILI1Layer) (linefeature : OGRFeature)
    : option (option (nat * OGRFeature) * OGRILI1Layer) :=
  if field0_is_OFTString (poFeatureDefn l)
  then GetFeatureRef_str (GetFieldAsString linefeature 1) l
  else GetFeatureRef (GetFieldAsInteger64 linefeature 1) l.

(** The curves a line feature contributes to its target feature. *)
Definition push_curves (feature : nat) (linefeature : OGRFeature)
    (m : FeatureToGeomSet) : FeatureToGeomSet :=
  match as_MultiCurve (GetGeomFieldRef linefeature 0) with
  | Some curves =>
      foldl (fun m curve =>
               if curve_IsEmpty curve then m
               else map_push_back feature curve m) m curves
  | None => m
  end.

(** "First map: for each target curvepolygon, find all belonging curves". *)
Fixpoint collect_loop (fuel : nat) (l line : OGRILI1Layer)
    (m : FeatureToGeomSet)
    : option (OGRILI1Layer * OGRILI1Layer * FeatureToGeomSet * list Event) :=
  match fuel with
  | O => None
  | S fuel' =>
      match GetNextFeatureRef line with
      | (None, line') => Some (l, line', m, [])
      | (Some (_, linefeature), line') =>
          '(feature, l') ← find_target l linefeature;
          match feature with
          | Some (i, _) =>
              collect_loop fuel' l' line' (push_curves i linefeature m)
          | None =>
              '(l'', line'', m', log) ← collect_loop fuel' l' line' m;
              Some (l'', line'', m',
                    WarnCouldntJoin (GetFieldAsInteger64 linefeature 1) :: log)
          end
      end
  end.

(** The body of the loop over the target features:
    [feature->SetGeomFieldDirectly(nSurfaceFieldIndex, poPoly)] ends it
    on every path. *)
Definition assemble_target (E : GeometryEngine) (linear : bool)
    (nSurfaceFieldIndex : Z) (layer : string) (feature : OGRFeature)
    (oCurves : list OGRCurve) : option (OGRFeature * list Event) :=
  '(poPoly, log) ← assemble_feature E linear layer (GetFID feature) oCurves;
  Some (SetGeomField feature nSurfaceFieldIndex poPoly, log).

(** "Now for each target polygon, assemble the curves together". *)
Fixpoint assemble_loop (E : GeometryEngine) (linear : bool)
    (nSurfaceFieldIndex : Z) (l : OGRILI1Layer) (m : FeatureToGeomSet)
    : option (OGRILI1Layer * list Event) :=
  match m with
  | [] => Some (l, [])
  | (i, oCurves) :: m' =>
      feature ← papoFeatures l !! i;
      '(feature', log1) ←
        assemble_target E linear nSurfaceFieldIndex
                        (GetName (poFeatureDefn l)) feature oCurves;
      '(l', log2) ←
        assemble_loop E linear nSurfaceFieldIndex
          (set_papoFeatures l (<[i := feature']> (papoFeatures l))) m';
      Some (l', log1 ++ log2)
  end.

(** The whole function. It returns the layer, the line layer with its
    cursor where the first loop left it, and the events. No result stands
    for a geometry field index without a field definition, which the code
    dereferences. *)
Definition JoinSurfaceLayer (E : GeometryEngine) (l : OGRILI1Layer)
    (poSurfaceLineLayer : OGRILI1Layer) (nSurfaceFieldIndex : Z)
    : option (OGRILI1Layer * OGRILI1Layer * list Event) :=
  geomType ← GetGeomFieldType (poFeatureDefn l) nSurfaceFieldIndex;
  '(l1, line, m, log1) ←
    collect_loop (S (nFeatures poSurfaceLineLayer)) l
                 (ResetReading poSurfaceLineLayer) [];
  '(l2, log2) ← assemble_loop E (wkb_eqb geomType wkbPolygon)
                   nSurfaceFieldIndex l1 m;
  Some (ResetReading l2, line,
        Debug "Joining surface layer %s with geometries" :: log1 ++ log2).

End Surface.

(** ** [Polygonize] and [PolygonizeAreaLayer] *)

Module Area.

(** [new OGRMultiPolygon()] *)
Definition empty_MultiPolygon : OGRGeometry := GeomCollection MultiPolygon [].

(** [OGRPolygon emptyPoly;] *)
Definition emptyPoly : OGRGeometry := GeomPolygon true [].

(** "A union of the geometry collection with one line fixes invalid
    geometries": the lines handed to the polygonizer when
    [fix_crossing_lines] is set, [poNoncrossingLines]. *)
Definition fix_lines (E : GeometryEngine) (poLines : list OGRGeometry)
    : list OGRGeometry * list Event :=
  match poLines !! 0%nat with
  | None => (poLines, [Debug "Fixing crossing lines"])
  | Some line0 =>
      match Union E poLines line0 with
      | Some poUnion =>
          if wkb_eqb (getGeometryType poUnion) wkbGeometryCollection
             || wkb_eqb (getGeometryType poUnion) wkbMultiLineString
          then (members poUnion,
                [Debug "Fixing crossing lines"; EngineUnion;
                 Debug "Fixed lines: %d"])
          else (poLines, [Debug "Fixing crossing lines"; EngineUnion])
      | None => (poLines, [Debug "Fixing crossing lines"; EngineUnion])
      end
  end.

(** The lines polygons are extracted from, [poNoncrossingLines]. *)
Definition noncrossing_lines (E : GeometryEngine)
    (poLines : list OGRGeometry) (fix_crossing_lines : bool)
    : list OGRGeometry * list Event :=
  if fix_crossing_lines && (0 <? length poLines)%nat
  then fix_lines E poLines
  else (poLines, []).

(** The extraction of the polygons: the lines are exported, handed to
    [GEOSPolygonize_r], and the result is brought back and forced to a
    multipolygon. *)
Definition extract_polygons (E : GeometryEngine)
    (poNoncrossingLines : list OGRGeometry) : OGRGeometry * list Event :=
  let n := length poNoncrossingLines in
  let log2 := [EngineCreateContext] ++ replicate n EngineExport
                ++ [EnginePolygonize] ++ replicate n EngineDestroy in
  match GEOSPolygonize_r E poNoncrossingLines with
  | None => (empty_MultiPolygon, log2 ++ [EngineFreeContext])
  | Some hResultGeom =>
      let log3 := [EngineImport; EngineDestroy; EngineFreeContext] in
      match forceToMultiPolygon E (createFromGEOS E hResultGeom) with
      | Some poMP =>
          if wkb_eqb (getGeometryType poMP) wkbMultiPolygon
          then (poMP, log2 ++ log3)
          else (empty_MultiPolygon, log2 ++ log3)
      | None => (empty_MultiPolygon, log2 ++ log3)
      end
  end.

(** The part of [Polygonize] under [HAVE_GEOS], past the test for an
    empty collection. *)
Definition polygonize_geos (E : GeometryEngine) (poLines : list OGRGeometry)
    (fix_crossing_lines : bool) : OGRGeometry * list Event :=
  let '(poNoncrossingLines, log1) :=
    noncrossing_lines E poLines fix_crossing_lines in
  let '(poMP, log2) := extract_polygons E poNoncrossingLines in
  (poMP, log1 ++ log2).

(** [Polygonize(poLines, fix_crossing_lines)]: the multipolygon returned
    and the events. [poLines] is the list of the members of the
    collection. *)
Definition Polygonize (E : GeometryEngine) (poLines : list OGRGeometry)
    (fix_crossing_lines : bool) : OGRGeometry * list Event :=
  if (length poLines =? 0)%nat
  then (empty_MultiPolygon, [CallPolygonize fix_crossing_lines])
  else if HAVE_GEOS E then
    let '(poMP, log) := polygonize_geos E poLines fix_crossing_lines in
    (poMP, CallPolygonize fix_crossing_lines :: log)
  else (empty_MultiPolygon, [CallPolygonize fix_crossing_lines]).

(** [GetFeatureCount()]: without filters the number of features. With a
    filter the call goes to [OGRLayer::GetFeatureCount], which counts the
    features a full read yields and leaves the cursor reset; inside
    [JoinGeomLayers] the flag is already set, so that read does not enter
    the join again. The model is the count on a layer whose flag is set,
    the state [PolygonizeAreaLayer] calls it in; with a filter and the
    flag unset the read of the code would enter the join first. *)
Definition GetFeatureCount (l : OGRILI1Layer) : Z * OGRILI1Layer :=
  match m_poFilterGeom l, m_poAttrQuery l with
  | None, None => (Z.of_nat (nFeatures l), l)
  | _, _ =>
      (Z.of_nat (length (List.filter (passes_filters l) (papoFeatures l))),
       ResetReading l)
  end.

(** "add all lines from poAreaLineLayer to collection". No result stands
    for a line feature without geometry, which [addGeometry] dereferences. *)
Fixpoint collect_lines (fuel : nat) (line : OGRILI1Layer)
    (gc : list OGRGeometry) : option (OGRILI1Layer * list OGRGeometry) :=
  match fuel with
  | O => None
  | S fuel' =>
      match GetNextFeatureRef line with
      | (None, line') => Some (line', gc)
      | (Some (_, feature), line') =>
          g ← GetGeometryRef feature;
          collect_lines fuel' line' (gc ++ [g])
      end
  end.

(** "polygonize lines": the first pass, and the second one with the
    crossing line fix when the count of polygons is not the count of
    features. *)
Definition polygonize_lines (E : GeometryEngine) (l : OGRILI1Layer)
    (gc : list OGRGeometry) : OGRGeometry * OGRILI1Layer * list Event :=
  let '(polys, log1) := Polygonize E gc false in
  let '(count, l) := GetFeatureCount l in
  if negb (Z.of_nat (length (members polys)) =? count)
  then
    let '(_, l) := GetFeatureCount l in
    let '(polys, log2) := Polygonize E gc true in
    (polys, l,
     Debug "Polygonizing layer %s with %d multilines" :: log1
       ++ [Debug "Resulting polygons: %d";
           Debug "Feature count of layer %s: %d";
           Debug "Polygonizing again with crossing line fix"]
       ++ log2 ++ [Debug "Resulting polygons: %d"])
  else
    (polys, l,
     Debug "Polygonizing layer %s with %d multilines" :: log1
       ++ [Debug "Resulting polygons: %d"]).

(** The first loop of the association: each polygon is exported and kept
    when the engine finds it valid, replaced by a null pointer otherwise. *)
Definition export_valid (E : GeometryEngine) (polys : list OGRGeometry)
    : list (option OGRGeometry) * list Event :=
  ((fun p => if GEOSisValid_r E p then Some p else None) <$> polys,
   concat ((fun _ => [EngineExport; EngineIsValid]) <$> polys)).

(** The inner loop over the polygons, each with its exported handle: the
    position [i] it breaks at with [polys->getGeometryRef(i)], or none
    when [i] reaches the number of polygons. *)
Fixpoint first_within (E : GeometryEngine) (point : OGRGeometry)
    (cands : list (OGRGeometry * option OGRGeometry)) (i : nat)
    : option (nat * OGRGeometry) * list Event :=
  match cands with
  | [] => (None, [])
  | (_, None) :: rest => first_within E point rest (S i)
  | (poly, Some hGeom) :: rest =>
      if GEOSWithin_r E point hGeom then (Some (i, poly), [EngineWithin])
      else
        let '(r, log) := first_within E point rest (S i) in
        (r, EngineWithin :: log)
  end.

(** The body of the loop over the features of the layer. *)
Definition associate_feature (E : GeometryEngine) (polys : list OGRGeometry)
    (ahInGeoms : list (option OGRGeometry))
    (nAreaFieldIndex nPointFieldIndex : Z) (feature : OGRFeature)
    : OGRFeature * list Event :=
  match GetGeomFieldRef feature nPointFieldIndex with
  | None => (feature, [])
  | Some geomRef =>
      match first_within E geomRef (zip polys ahInGeoms) 0 with
      | (Some (_, poly), log) =>
          (SetGeomField feature nAreaFieldIndex poly,
           EngineExport :: log ++ [EngineDestroy])
      | (None, log) =>
          (SetGeometry feature emptyPoly,
           EngineExport :: log
             ++ [Debug "Association between area and point failed.";
                 EngineDestroy])
      end
  end.

(** The loop over the features of the layer. *)
Fixpoint associate_loop (E : GeometryEngine) (polys : list OGRGeometry)
    (ahInGeoms : list (option OGRGeometry))
    (nAreaFieldIndex nPointFieldIndex : Z) (features : list OGRFeature)
    : list OGRFeature * list Event :=
  match features with
  | [] => ([], [])
  | feature :: rest =>
      let '(feature', log1) :=
        associate_feature E polys ahInGeoms nAreaFieldIndex
                          nPointFieldIndex feature in
      let '(rest', log2) :=
        associate_loop E polys ahInGeoms nAreaFieldIndex nPointFieldIndex
                       rest in
      (feature' :: rest', log1 ++ log2)
  end.

(** "associate polygon feature with data row according to centroid",
    compiled under [HAVE_GEOS] only. *)
Definition associate (E : GeometryEngine) (l : OGRILI1Layer)
    (polys : OGRGeometry) (nAreaFieldIndex nPointFieldIndex : Z)
    : OGRILI1Layer * list Event :=
  if HAVE_GEOS E then
    let '(ahInGeoms, log1) := export_valid E (members polys) in
    let '(features, log2) :=
      associate_loop E (members polys) ahInGeoms nAreaFieldIndex
                     nPointFieldIndex (papoFeatures l) in
    (set_papoFeatures l features,
     [Debug "Associating layer %s with area polygons"; EngineCreateContext]
       ++ log1 ++ log2
       ++ replicate (length (members polys)) EngineDestroy
       ++ [EngineFreeContext])
  else (l, []).

(** The calls of [Polygonize] among the events, by their
    [fix_crossing_lines] argument. *)
Definition polygonize_calls (log : list Event) : list bool :=
  omap (fun e => match e with
                 | CallPolygonize fix_crossing_lines => Some fix_crossing_lines
                 | _ => None
                 end) log.

Definition PolygonizeAreaLayer (E : GeometryEngine) (l : OGRILI1Layer)
    (poAreaLineLayer : OGRILI1Layer) (nAreaFieldIndex nPointFieldIndex : Z)
    : option (OGRILI1Layer * OGRILI1Layer * list Event) :=
  '(line, gc) ← collect_lines (S (nFeatures poAreaLineLayer))
                              (ResetReading poAreaLineLayer) [];
  let '(polys, l1, log1) := polygonize_lines E l gc in
  let '(l2, log2) := associate E l1 polys nAreaFieldIndex nPointFieldIndex in
  Some (l2, line, log1 ++ log2).

End Area.

(** ** Reading the layer *)

Module Read.

(** An entry of [oGeomFieldInfos]: the layer of the geometry table, when
    the field has one ([GetGeomTableDefnRef] resolved by
    [poDS->GetLayerByName]), and the Interlis type of the field. *)
Record GeomFieldInfo : Type := mkInfo {
  geomTable : option OGRILI1Layer;
  iliGeomType : string
}.

(** The loop of [JoinGeomLayers] over [oGeomFieldInfos], the entries
    given with their keys, the names of the geometry fields. The cursors
    of the geometry tables are not followed further. *)
Fixpoint join_fields (E : GeometryEngine)
    (infos : list (string * GeomFieldInfo)) (l : OGRILI1Layer)
    : option (OGRILI1Layer * list Event) :=
  match infos with
  | [] => Some (l, [])
  | (name, info) :: rest =>
      match geomTable info with
      | None => join_fields E rest l
      | Some poGeomLayer =>
          let nGeomFieldIndex := GetGeomFieldIndex (poFeatureDefn l) name in
          '(l1, log1) ←
            (if String.eqb (iliGeomType info) "Surface" then
               '(l1, _, log) ←
                 Surface.JoinSurfaceLayer E l poGeomLayer nGeomFieldIndex;
               Some (l1, log)
             else if String.eqb (iliGeomType info) "Area" then
               let nPointFieldIndex :=
                 GetGeomFieldIndex (poFeatureDefn l) (name +:+ "__Point") in
               '(l1, _, log) ←
                 Area.PolygonizeAreaLayer E l poGeomLayer nGeomFieldIndex
                                          nPointFieldIndex;
               Some (l1, log)
             else Some (l, []));
          '(l2, log2) ← join_fields E rest l1;
          Some (l2, Debug "Join geometry table %s of field '%s'"
                      :: log1 ++ log2)
      end
  end.

(** [JoinGeomLayers]: the flag is set first. *)
Definition JoinGeomLayers (E : GeometryEngine)
    (infos : list (string * GeomFieldInfo)) (l : OGRILI1Layer)
    : option (OGRILI1Layer * list Event) :=
  '(l', log) ← join_fields E infos (set_bGeomsJoined l true);
  Some (l', CallJoinGeomLayers :: log).

(** The [while (nFeatureIdx < nFeatures)] of [GetNextFeature]: features
    the filters exclude are passed over. *)
Fixpoint GetNextFeature_loop (fuel : nat) (l : OGRILI1Layer)
    : option (option OGRFeature * OGRILI1Layer) :=
  match fuel with
  | O => None
  | S fuel' =>
      if (nFeatureIdx l <? nFeatures l)%nat then
        match GetNextFeatureRef l with
        | (Some (_, poFeature), l') => Some (Some poFeature, l')
        | (None, l') => GetNextFeature_loop fuel' l'
        end
      else Some (None, l)
  end.

(** [GetNextFeature]: the clone of the next feature, or a null pointer. *)
Definition GetNextFeature (E : GeometryEngine)
    (infos : list (string * GeomFieldInfo)) (l : OGRILI1Layer)
    : option (option OGRFeature * OGRILI1Layer * list Event) :=
  '(l1, log) ← (if negb (bGeomsJoined l) then JoinGeomLayers E infos l
                else Some (l, []));
  '(poFeature, l2) ← GetNextFeature_loop (S (nFeatures l1)) l1;
  Some (poFeature, l2, log).

(** The calls a client of the layer makes, and what it observes: the
    events emitted and the feature each read hands back. *)
Inductive Call : Type :=
  | CallAddFeature (poFeature : OGRFeature)
  | CallResetReading
  | CallGetNextFeature
  | CallGetNextFeatureRef
  | CallGetFeatureRef (nFID : Z)
  | CallGetFeatureRef_str (fid : string).

Inductive Obs : Type :=
  | Emitted (e : Event)
  | Returned (c : Call) (poFeature : option OGRFeature).

Definition step (E : GeometryEngine) (infos : list (string * GeomFieldInfo))
    (c : Call) (l : OGRILI1Layer) : option (OGRILI1Layer * list Obs) :=
  match c with
  | CallAddFeature poFeature => Some (AddFeature l poFeature, [])
  | CallResetReading => Some (ResetReading l, [])
  | CallGetNextFeature =>
      '(r, l', log) ← GetNextFeature E infos l;
      Some (l', (Emitted <$> log) ++ [Returned c r])
  | CallGetNextFeatureRef =>
      let '(r, l') := GetNextFeatureRef l in
      Some (l', [Returned c (snd <$> r)])
  | CallGetFeatureRef nFID =>
      '(r, l') ← GetFeatureRef nFID l;
      Some (l', [Returned c (snd <$> r)])
  | CallGetFeatureRef_str fid =>
      '(r, l') ← GetFeatureRef_str fid l;
      Some (l', [Returned c (snd <$> r)])
  end.

Fixpoint run (E : GeometryEngine) (infos : list (string * GeomFieldInfo))
    (cs : list Call) (l : OGRILI1Layer) : option (OGRILI1Layer * list Obs) :=
  match cs with
  | [] => Some (l, [])
  | c :: cs' =>
      '(l1, obs1) ← step E infos c l;
      '(l2, obs2) ← run E infos cs' l1;
      Some (l2, obs1 ++ obs2)
  end.

End Read.

(** ** Writing features: [ICreateFeature] and [GeometryAppend]

    The output is the sequence of the calls of [VSIFPrintfL] on the
    transfer file. The text [d2str] makes of a double is left to [printf];
    a coordinate is recorded with the double handed to [d2str]. *)

Module Write.

Import Stdlib.Strings.Ascii.

(** What the writer reads and the embedding of the geometries and of the
    features does not carry: the Z and M flags of the type of a geometry,
    the Z of a point, whether a field is set, the recoding of a string,
    and the width of a [long] on the target. *)
Record Externals : Type := mkExternals {
  (** [wkbHasZ(g->getGeometryType())] *)
  wkbHasZ : OGRGeometry -> bool;
  (** [wkbHasM(g->getGeometryType())] *)
  wkbHasM : OGRGeometry -> bool;
  getZ : OGRPoint -> float;
  (** [poFeature->IsFieldSetAndNotNull(iField)] *)
  IsFieldSetAndNotNull : OGRFeature -> nat -> bool;
  (** [CPLRecode(pszRaw, CPL_ENC_UTF8, CPL_ENC_ISO8859_1)] *)
  CPLRecode : string -> string;
  (** whether [long] has 64 bits on the target; it has 32 otherwise *)
  long_is_64_bit : bool
}.

(** [LONG_MAX] of the target. *)
Definition LONG_MAX (W : Externals) : Z :=
  if long_is_64_bit W then 2 ^ 63 - 1 else 2 ^ 31 - 1.

Inductive Printed : Type :=
  (** [VSIFPrintfL(fp, text)], a format without argument *)
  | Text (text : string)
  (** [VSIFPrintfL(fp, " %s", d2str(val))] *)
  | Double (val : float)
  (** [VSIFPrintfL(fp, " %ld", tid)] *)
  | Long (tid : Z)
  (** [VSIFPrintfL(fp, " %s", psz)] *)
  | Str (psz : string).

(** "Skipping unknown geometry type '%s'" *)
Inductive Warning : Type :=
  | SkippingUnknownGeometryType (poGeometry : OGRGeometry).

(** The line feed of the formats. *)
Definition LF : string := String (Ascii.ascii_of_nat 10) EmptyString.

(** The X and the Y of a point, its Z when [b3D], and the end of the
    line. *)
Definition coordinates (W : Externals) (b3D : bool) (p : OGRPoint)
    : list Printed :=
  [Double (getX p); Double (getY p)]
    ++ (if b3D then [Double (getZ W p)] else []) ++ [Text LF].

(** The [for] loop of [AppendCoordinateList], from [iPoint] on. *)
Fixpoint coordinate_loop (W : Externals) (b3D : bool) (iPoint : Z)
    (points : list OGRPoint) : list Printed :=
  match points with
  | [] => []
  | p :: rest =>
      Text (if iPoint =? 0 then "STPT" else "LIPT")
        :: coordinates W b3D p ++ coordinate_loop W b3D (iPoint + 1) rest
  end.

Definition AppendCoordinateList (W : Externals) (poLine : OGRSimpleCurve)
    : list Printed :=
  let b3D := wkbHasZ W (GeomCurve (SimpleCurve poLine)) in
  coordinate_loop W b3D 0 (paoPoints poLine) ++ [Text ("ELIN" +:+ LF)].

(** The loop of [AppendCompoundCurve] over the points of one member. *)
Fixpoint member_loop (W : Externals) (b3D bIsArc : bool)
    (iMember getNumCurves getNumPoints iPoint : Z) (points : list OGRPoint)
    : list Printed :=
  match points with
  | [] => []
  | p :: rest =>
      (if (iPoint =? getNumPoints - 1) && (iMember <? getNumCurves - 1)
       then []
       else
         Text (if (iMember =? 0) && (iPoint =? 0) then "STPT"
               else if bIsArc && (iPoint =? 1) then "ARCP"
               else "LIPT")
           :: coordinates W b3D p)
        ++ member_loop W b3D bIsArc iMember getNumCurves getNumPoints
                       (iPoint + 1) rest
  end.

(** [getGeometryType() == wkbCircularString ||
     getGeometryType() == wkbCircularStringZ] *)
Definition bIsArc (W : Externals) (poLine : OGRSimpleCurve) : bool :=
  match scType poLine with
  | scCircularString => negb (wkbHasM W (GeomCurve (SimpleCurve poLine)))
  | scLineString => false
  end.

(** The loop of [AppendCompoundCurve] over the members. *)
Fixpoint curves_loop (W : Externals) (getNumCurves iMember : Z)
    (curves : list OGRSimpleCurve) : list Printed :=
  match curves with
  | [] => []
  | poLine :: rest =>
      member_loop W (wkbHasZ W (GeomCurve (SimpleCurve poLine)))
                  (bIsArc W poLine) iMember getNumCurves
                  (Z.of_nat (length (paoPoints poLine))) 0 (paoPoints poLine)
        ++ curves_loop W getNumCurves (iMember + 1) rest
  end.

Definition AppendCompoundCurve (W : Externals) (poCC : OGRCompoundCurve)
    : list Printed :=
  curves_loop W (Z.of_nat (length poCC)) 0 poCC ++ [Text ("ELIN" +:+ LF)].

(** What [GeometryAppend] returns, prints and reports. *)
Abbreviation Appended := (bool * list Printed * list Warning)%type.

(** The last branch of [GeometryAppend]. *)
Definition unknown (poGeometry : OGRGeometry) : Appended :=
  (false, [], [SkippingUnknownGeometryType poGeometry]).

(** The loops over the rings of a polygon and over the members of a
    collection: [if (!GeometryAppend(poMember)) return FALSE;]. *)
Definition append_each {A} (append : A -> Appended) : list A -> Appended :=
  fix loop (l : list A) : Appended :=
    match l with
    | [] => (true, [], [])
    | x :: rest =>
        let '(ok, out, warnings) := append x in
        if ok then
          let '(ok', out', warnings') := loop rest in
          (ok', out ++ out', warnings ++ warnings')
        else (false, out, warnings)
    end.

(** [GeometryAppend] on a curve: a line string or a linear ring without
    M goes to [AppendCoordinateList], a compound curve without M to
    [AppendCompoundCurve]. *)
Definition AppendCurve (W : Externals) (c : OGRCurve) : Appended :=
  if wkbHasM W (GeomCurve c) then unknown (GeomCurve c)
  else
    match c with
    | SimpleCurve poLine =>
        match scType poLine with
        | scLineString => (true, AppendCoordinateList W poLine, [])
        | scCircularString => unknown (GeomCurve c)
        end
    | CompoundCurve poCC => (true, AppendCompoundCurve W poCC, [])
    end.

(** [GeometryAppend]. The tests on [wkbPoint], [wkbLineString],
    [wkbPolygon] and [wkbCompoundCurve] admit the type and its Z variant
    and no type with M; the test on the collections is on the flattened
    type. *)
Fixpoint GeometryAppend (W : Externals) (poGeometry : OGRGeometry)
    : Appended :=
  match poGeometry with
  | GeomPoint _ =>
      if wkbHasM W poGeometry then unknown poGeometry else (true, [], [])
  | GeomCurve c => AppendCurve W c
  | GeomPolygon linear rings =>
      if linear && negb (wkbHasM W poGeometry)
      then append_each (AppendCurve W) rings
      else unknown poGeometry
  | GeomCollection cls poGC =>
      match cls with
      | MultiSurface => unknown poGeometry
      | _ => append_each (GeometryAppend W) poGC
      end
  end.

Record OGRFieldDefn : Type := mkFieldDefn {
  GetNameRef : string;
  (** [GetType() == OFTString] *)
  is_OFTString : bool
}.

Inductive OGRErr : Type := OGRERR_NONE | OGRERR_FAILURE.

Definition OGRNullFID : Z := -1.

(** [EQUAL(a, b)]: equality of strings without regard to the case of the
    letters. *)
Definition toupper (c : Ascii.ascii) : Ascii.ascii :=
  let n := Ascii.nat_of_ascii c in
  if (97 <=? n)%nat && (n <=? 122)%nat then Ascii.ascii_of_nat (n - 32) else c.

Fixpoint upper (s : string) : string :=
  match s with
  | EmptyString => EmptyString
  | String c s' => String (toupper c) (upper s')
  end.

Definition EQUAL (a b : string) : bool := String.eqb (upper a) (upper b).

(** [(int)poFeature->GetFID()]: the 64-bit FID converted to [int]. *)
Definition to_int (z : Z) : Z := (z + 2 ^ 31) mod 2 ^ 32 - 2 ^ 31.

(** "Replace spaces". *)
Fixpoint replace_spaces (pszString : string) : string :=
  match pszString with
  | EmptyString => EmptyString
  | String c rest =>
      String (if Ascii.eqb c " " then "_"%char else c) (replace_spaces rest)
  end.

(** "Embedded geometry": the coordinates of a point after the TID. *)
Definition embedded_point (W : Externals) (poFeature : OGRFeature)
    : list Printed :=
  match GetGeometryRef poFeature with
  | Some (GeomPoint poPoint as poGeometry) =>
      if wkbHasM W poGeometry then []
      else
        [Double (getX poPoint); Double (getY poPoint)]
          ++ (if wkbHasZ W poGeometry then [Double (getZ W poPoint)] else [])
  | _ => []
  end.

(** "Write all fields." *)
Fixpoint fields_loop (W : Externals) (poFeature : OGRFeature) (iField : nat)
    (fields : list OGRFieldDefn) : list Printed :=
  match fields with
  | [] => []
  | defn :: rest =>
      (if IsFieldSetAndNotNull W poFeature iField then
         let pszRaw := GetFieldAsString poFeature iField in
         if is_OFTString defn
         then Str (replace_spaces (CPLRecode W pszRaw))
         else Str pszRaw
       else Text " @")
        :: fields_loop W poFeature (S iField) rest
  end.

(** [++tid] on the static [long tid]. The increment of a [long] that
    holds [LONG_MAX] overflows, which C leaves undefined: it has no
    result. *)
Definition increment (W : Externals) (tid : Z) : option Z :=
  if tid <? LONG_MAX W then Some (tid + 1) else None.

(** The first part of [ICreateFeature], up to the end of the line of the
    attributes: the value of the static [tid] after it and what is
    printed. [fields] are the field definitions of [poFeatureDefn]. *)
Definition attribute_line (W : Externals) (fields : list OGRFieldDefn)
    (tid : Z) (poFeature : OGRFeature) : option (Z * list Printed) :=
  '(tid, head) ←
    match fields with
    | defn0 :: _ =>
        if negb (EQUAL (GetNameRef defn0) "TID") then
          tid ← (if negb (GetFID poFeature =? OGRNullFID)
                 then Some (to_int (GetFID poFeature))
                 else increment W tid);
          Some (tid, Long tid :: embedded_point W poFeature)
        else Some (tid, [])
    | [] => Some (tid, [])
    end;
  Some (tid,
        Text "OBJE" :: head ++ fields_loop W poFeature 0 fields ++ [Text LF]).

(** [ICreateFeature]: the value returned, the static [tid] after the
    call, what is printed and what is reported. The value
    [GeometryAppend] returns is not looked at. *)
Definition ICreateFeature (W : Externals) (fields : list OGRFieldDefn)
    (tid : Z) (poFeature : OGRFeature)
    : option (OGRErr * Z * list Printed * list Warning) :=
  '(tid, line) ← attribute_line W fields tid poFeature;
  let '(_, geometry, warnings) :=
    match GetGeometryRef poFeature with
    | Some poGeometry => GeometryAppend W poGeometry
    | None => (true, [], [])
    end in
  Some (OGRERR_NONE, tid, line ++ geometry, warnings).

(** A sequence of calls of [ICreateFeature], on any layers: the static
    [tid] is one for all of them. Each call is given with the fields of
    its layer. *)
Fixpoint write_features (W : Externals) (tid : Z)
    (calls : list (list OGRFieldDefn * OGRFeature))
    : option (Z * list Printed * list Warning) :=
  match calls with
  | [] => Some (tid, [], [])
  | (fields, poFeature) :: rest =>
      '(_, tid, out, warnings) ← ICreateFeature W fields tid poFeature;
      '(tid', out', warnings') ← write_features W tid rest;
      Some (tid', out ++ out', warnings ++ warnings')
  end.

End Write.

(** ** Pixel/line and projected coordinates (geo_trans.c)

    The two translations of libgeotiff between the pixel/line coordinates
    of an image and the coordinates of its projected coordinate system.
    Every arithmetic operation is the binary64 operation the expression
    names, in the order C gives it. A read [a[i]] of an array is the
    look-up [a !! i], and a translation has no result when it would read
    outside an array. *)

Module GeoTrans.

(** The three tags the translations fetch, as the file has them: the
    doubles of the tag, or nothing when [gt_methods.get] fails. *)
Record GTIF : Type := mkGTIF {
  GTIFF_TIEPOINTS : option (list float);
  GTIFF_PIXELSCALE : option (list float);
  GTIFF_TRANSMATRIX : option (list float)
}.

(** [if (!(gtif->gt_methods.get)(tif, tag, &count, &data)) count = 0;] :
    the count and the array; the array of a failed fetch is the null
    pointer, which has no element. *)
Definition get (tag : option (list float)) : Z * list float :=
  match tag with
  | Some data => (Z.of_nat (length data), data)
  | None => (0, [])
  end.

(** [double gt[6]] *)
Record GeoTransform : Type := mkGT {
  gt0 : float; gt1 : float; gt2 : float;
  gt3 : float; gt4 : float; gt5 : float
}.

(** [0.000000000000001] : the double nearest to 1e-15. *)
Definition det_eps : float := 0x1.203af9ee75616p-50%float.

(** The determinant [inv_geotransform] computes. *)
Definition det (gt_in : GeoTransform) : float :=
  (gt0 gt_in * gt4 gt_in - gt1 gt_in * gt3 gt_in)%float.

(** [inv_geotransform(gt_in, gt_out)]: [gt_out] when it returns 1, nothing
    when it returns 0. *)
Definition inv_geotransform (gt_in : GeoTransform) : option GeoTransform :=
  if (abs (det gt_in) <? det_eps)%float then None
  else
    let inv_det := (1 / det gt_in)%float in
    Some (mkGT (gt4 gt_in * inv_det)%float
               (- gt1 gt_in * inv_det)%float
               ((gt1 gt_in * gt5 gt_in - gt2 gt_in * gt4 gt_in) * inv_det)%float
               (- gt3 gt_in * inv_det)%float
               (gt0 gt_in * inv_det)%float
               ((- gt0 gt_in * gt5 gt_in + gt2 gt_in * gt3 gt_in)
                * inv_det)%float).

(** [GTIFTiepointTranslate]: it uses none of its arguments, returns FALSE
    and leaves [*x_out] and [*y_out], which are [*x] and [*y], as they
    are. *)
Definition GTIFTiepointTranslate (gcp_count : Z) (gcps_in gcps_out : list float)
    (x_in y_in : float) : bool * float * float :=
  (false, x_in, y_in).

(** [GTIFImageToPCS(gtif, &x, &y)]: the value returned and the contents of
    [x] and [y] after the call. *)
Definition GTIFImageToPCS (gtif : GTIF) (x y : float)
    : option (bool * float * float) :=
  let '(tiepoint_count, tiepoints) := get (GTIFF_TIEPOINTS gtif) in
  let '(count, pixel_scale) := get (GTIFF_PIXELSCALE gtif) in
  let '(transform_count, transform) := get (GTIFF_TRANSMATRIX gtif) in
  if (6 <? tiepoint_count) && (count =? 0) then
    Some (GTIFTiepointTranslate (tiepoint_count ÷ 6) tiepoints
                                (drop 3 tiepoints) x y)
  else if transform_count =? 16 then
    t0 ← transform !! 0%nat; t1 ← transform !! 1%nat;
    t3 ← transform !! 3%nat; t4 ← transform !! 4%nat;
    t5 ← transform !! 5%nat; t7 ← transform !! 7%nat;
    Some (true, (x * t0 + y * t1 + t3)%float, (x * t4 + y * t5 + t7)%float)
  else if (count <? 3) || (tiepoint_count <? 6) then Some (false, x, y)
  else
    tp0 ← tiepoints !! 0%nat; tp1 ← tiepoints !! 1%nat;
    tp3 ← tiepoints !! 3%nat; tp4 ← tiepoints !! 4%nat;
    ps0 ← pixel_scale !! 0%nat; ps1 ← pixel_scale !! 1%nat;
    Some (true, ((x - tp0) * ps0 + tp3)%float,
          ((y - tp1) * (-1 * ps1) + tp4)%float).

(** [GTIFPCSToImage(gtif, &x, &y)] *)
Definition GTIFPCSToImage (gtif : GTIF) (x y : float)
    : option (bool * float * float) :=
  let '(tiepoint_count, tiepoints) := get (GTIFF_TIEPOINTS gtif) in
  let '(count, pixel_scale) := get (GTIFF_PIXELSCALE gtif) in
  let '(transform_count, transform) := get (GTIFF_TRANSMATRIX gtif) in
  if (6 <? tiepoint_count) && (count =? 0) then
    Some (GTIFTiepointTranslate (tiepoint_count ÷ 6) (drop 3 tiepoints)
                                tiepoints x y)
  else if transform_count =? 16 then
    t0 ← transform !! 0%nat; t1 ← transform !! 1%nat;
    t3 ← transform !! 3%nat; t4 ← transform !! 4%nat;
    t5 ← transform !! 5%nat; t7 ← transform !! 7%nat;
    match inv_geotransform (mkGT t0 t1 t3 t4 t5 t7) with
    | None => Some (false, x, y)
    | Some gt_out =>
        Some (true, (x * gt0 gt_out + y * gt1 gt_out + gt2 gt_out)%float,
              (x * gt3 gt_out + y * gt4 gt_out + gt5 gt_out)%float)
    end
  else if (3 <=? count) && (6 <=? tiepoint_count) then
    tp0 ← tiepoints !! 0%nat; tp1 ← tiepoints !! 1%nat;
    tp3 ← tiepoints !! 3%nat; tp4 ← tiepoints !! 4%nat;
    ps0 ← pixel_scale !! 0%nat; ps1 ← pixel_scale !! 1%nat;
    Some (true, ((x - tp3) / ps0 + tp0)%float,
          ((y - tp4) / (-1 * ps1) + tp1)%float)
  else Some (false, x, y).

End GeoTrans.

(** ** Concrete data

    Fragments, layers and an engine small enough to run the model on. *)

Module Examples.

Import Stitch.

Definition pt (x y : float) : OGRPoint := mkPoint x y.

Definition line (pts : list OGRPoint) : OGRCurve :=
  SimpleCurve (mkSimpleCurve scLineString pts).

(** Twice the signed area of a closed sequence of points, by the
    shoelace formula. *)
Fixpoint shoelace (pts : list OGRPoint) : float :=
  match pts with
  | p :: (q :: _) as rest =>
      (getX p * getY q - getX q * getY p + shoelace rest)%float
  | _ => 0%float
  end.

(** A planar engine for rings and polygons of straight segments: the
    area of a ring by the shoelace formula, a point within a polygon when
    it lies strictly inside the bounding box of the exterior ring, and a
    polygonizer that makes a polygon of every line that is closed. *)
Definition ring_points (cc : OGRCompoundCurve) : list OGRPoint :=
  concat (paoPoints <$> cc).

Definition curve_points (c : OGRCurve) : list OGRPoint :=
  match c with
  | SimpleCurve sc => paoPoints sc
  | CompoundCurve cc => ring_points cc
  end.

Definition area (cc : OGRCompoundCurve) : float :=
  (abs (shoelace (ring_points cc)) / 2)%float.

Definition in_box (p : OGRPoint) (pts : list OGRPoint) : bool :=
  existsb (fun q => ltb (getX q) (getX p)) pts
  && existsb (fun q => ltb (getX p) (getX q)) pts
  && existsb (fun q => ltb (getY q) (getY p)) pts
  && existsb (fun q => ltb (getY p) (getY q)) pts.

Definition within (point poly : OGRGeometry) : bool :=
  match point, poly with
  | GeomPoint p, GeomPolygon _ (ext :: _) => in_box p (curve_points ext)
  | _, _ => false
  end.

Definition closed_line (g : OGRGeometry) : option OGRGeometry :=
  match g with
  | GeomCurve c =>
      if matches (StartPoint c) (EndPoint c)
      then Some (GeomPolygon true [c]) else None
  | _ => None
  end.

Definition engine : GeometryEngine :=
  {| get_Area := area;
     CastToLinearRing cc := line (ring_points cc);
     addRing_accepts _ _ _ := true;
     HAVE_GEOS := true;
     Union lines _ := Some (GeomCollection GeometryCollection lines);
     GEOSPolygonize_r lines :=
       Some (GeomCollection GeometryCollection (omap closed_line lines));
     createFromGEOS g := Some g;
     forceToMultiPolygon g :=
       (fun g => GeomCollection MultiPolygon (members g)) <$> g;
     GEOSisValid_r _ := true;
     GEOSWithin_r := within |}.

(** The same code compiled without [HAVE_GEOS]. *)
Definition engine_without_geos : GeometryEngine :=
  {| get_Area := area;
     CastToLinearRing cc := line (ring_points cc);
     addRing_accepts _ _ _ := true;
     HAVE_GEOS := false;
     Union _ _ := None;
     GEOSPolygonize_r _ := None;
     createFromGEOS _ := None;
     forceToMultiPolygon g := g;
     GEOSisValid_r _ := false;
     GEOSWithin_r _ _ := false |}.



(** The unit square in four fragments, two of them against the
    direction of travel. *)
Definition square_fragments : list OGRCurve :=
  [ line [pt 0 0; pt 1 0]; line [pt 1 1; pt 1 0];
    line [pt 1 1; pt 0 1]; line [pt 0 0; pt 0 1] ].

(** Two closed rings of the same area, each in one fragment. *)
Definition square_A : OGRCurve :=
  line [pt 0 0; pt 1 0; pt 1 1; pt 0 1; pt 0 0].
Definition square_B : OGRCurve :=
  line [pt 5 5; pt 6 5; pt 6 6; pt 5 6; pt 5 5].

Definition two_squares : list OGRCompoundCurve :=
  [forward_pieces square_A; forward_pieces square_B].

(** A ring of area 100 and one of area 1. *)
Definition big_square : OGRCurve :=
  line [pt 0 0; pt 10 0; pt 10 10; pt 0 10; pt 0 0].
Definition small_square : OGRCurve :=
  line [pt 2 2; pt 3 2; pt 3 3; pt 2 3; pt 2 2].

(** Three fragments that leave a gap of one unit. *)
Definition open_triangle : list OGRCurve :=
  [ line [pt 0 0; pt 4 0]; line [pt 4 0; pt 2 3]; line [pt 2 3; pt 1 0] ].

Definition feature (fid : Z) (key : string)
    (geoms : list (option OGRGeometry)) : OGRFeature :=
  mkFeature fid (fun _ => key) (fun _ => fid) geoms.

(** A surface layer with one feature and its line table: one line
    feature that refers to the feature and carries the open triangle. *)
Definition surface_defn : OGRFeatureDefn :=
  mkDefn "Parcel" false [("Geometry", wkbPolygon)].

Definition surface_layer : OGRILI1Layer :=
  AddFeature (new_layer surface_defn) (feature 7 "7" [None]).

Definition line_defn : OGRFeatureDefn :=
  mkDefn "Parcel_Geometry" false [("Geometry", wkbMultiCurve)].

Definition triangle_lines : OGRILI1Layer :=
  AddFeature (new_layer line_defn)
    (feature 7 "7"
       [Some (GeomCollection MultiCurve (GeomCurve <$> open_triangle))]).

(** An area layer with three geometry fields: a position, the area, and
    the companion point of the area. The first feature has its companion
    point in the unit square, the second far from every polygon. *)
Definition area_defn : OGRFeatureDefn :=
  mkDefn "Zone" false
         [("Lage", wkbPoint); ("Flaeche", wkbPolygon);
          ("Flaeche__Point", wkbPoint)].

Definition zone_inside : OGRFeature :=
  feature 1 "1" [Some (GeomPoint (pt 9 9)); None;
                 Some (GeomPoint (pt 0.5 0.5))].

Definition zone_outside : OGRFeature :=
  feature 2 "2" [Some (GeomPoint (pt 8 8)); None;
                 Some (GeomPoint (pt 50 50))].

Definition area_layer : OGRILI1Layer :=
  AddFeature (AddFeature (new_layer area_defn) zone_inside) zone_outside.

Definition area_line_defn : OGRFeatureDefn :=
  mkDefn "Zone_Flaeche" false [("Geometry", wkbLineString)].

(** Boundary lines that make two polygons, and boundary lines that make
    only one. *)
Definition two_boundaries : OGRILI1Layer :=
  AddFeature
    (AddFeature (new_layer area_line_defn)
                (feature 10 "10" [Some (GeomCurve square_A)]))
    (feature 11 "11" [Some (GeomCurve square_B)]).

Definition one_boundary : OGRILI1Layer :=
  AddFeature (new_layer area_line_defn)
             (feature 10 "10" [Some (GeomCurve square_A)]).

Definition area_infos (lines : OGRILI1Layer)
    : list (string * Read.GeomFieldInfo) :=
  [("Flaeche", Read.mkInfo (Some lines) "Area")].


(** A layer whose first feature the attribute query excludes. *)
Definition filtered_layer : OGRILI1Layer :=
  mkLayer surface_defn
          [feature 1 "1" [None]; feature 2 "2" [None]] 0 false None
          (Some (fun f => negb (GetFID f =? 1))).

End Examples.

(** * Properties *)

(** ** The model at work *)

Module Scenarios.

Import Stitch Surface Examples.

(** Four fragments of the unit square, in mixed orientation: one closed
    ring that takes the four of them, of area 1. *)
Example square_in_four_fragments :
  (fun st => (oCurves st, length (poCC st), get_IsClosed (poCC st),
              get_Area engine (poCC st)))
    <$> assemble_ring square_fragments
  = Some ([], 4%nat, true, 1%float).
Proof. reflexivity. Qed.

(** Rings of area 1, 100 and 1: the ring of area 100 is the exterior ring
    and the two others follow in their order. *)
Example largest_ring_first :
  assemble_feature engine false "Parcel" 7
                   [small_square; big_square; square_A]
  = Some (GeomPolygon false
            [CompoundCurve (forward_pieces big_square);
             CompoundCurve (forward_pieces small_square);
             CompoundCurve (forward_pieces square_A)], []).
Proof. reflexivity. Qed.

(** Without the geometry engine [Polygonize] returns an empty multipolygon
    for any lines, and the second pass is still made. *)
Example polygonize_without_geos :
  Area.Polygonize engine_without_geos [GeomCurve square_A] true
  = (Area.empty_MultiPolygon, [CallPolygonize true])
  /\ Area.polygonize_calls
       (Area.polygonize_lines engine_without_geos area_layer
                              [GeomCurve square_A]).2
     = [false; true].
Proof. split; reflexivity. Qed.

(** The first read of the area layer joins the geometries and returns the
    first feature with its polygon; the second feature is returned with
    the empty polygon in its first geometry field. *)
Example reads_of_area_layer :
  (fun res : OGRILI1Layer * list Read.Obs =>
     omap (fun o => match o with
                    | Read.Returned Read.CallGetNextFeature r =>
                        Some (option_map geomFields r)
                    | _ => None
                    end) res.2)
    <$> Read.run engine (area_infos two_boundaries)
          [Read.CallGetNextFeature; Read.CallGetNextFeature;
           Read.CallGetNextFeature] area_layer
  = Some [ Some [Some (GeomPoint (pt 9 9));
                 Some (GeomPolygon true [square_A]);
                 Some (GeomPoint (pt 0.5 0.5))];
           Some [Some Area.emptyPoly; None; Some (GeomPoint (pt 50 50))];
           None ].
Proof. reflexivity. Qed.

End Scenarios.

(** ** The order on doubles *)

Module DblFacts.

Lemma SFleb_trans x y z :
  SFleb x y = true -> SFleb y z = true -> SFleb x z = true.
Proof.
  unfold SFleb, SFcompare.
  destruct x as [sx|sx| |sx mx ex], y as [sy|sy| |sy my ey],
           z as [sz|sz| |sz mz ez];
    try discriminate; try reflexivity;
    repeat match goal with s : bool |- _ => destruct s end;
    try discriminate; try reflexivity;
    change (Pos.compare_cont Eq) with Pos.compare;
    destruct (Z.compare_spec ex ey), (Z.compare_spec ey ez),
             (Z.compare_spec ex ez);
    try discriminate; try reflexivity; try lia; subst;
    destruct (Pos.compare_spec mx my), (Pos.compare_spec my mz),
             (Pos.compare_spec mx mz);
    simpl; try discriminate; try reflexivity; lia.
Qed.

Lemma SFleb_total x y :
  SFleb x x = true -> SFleb y y = true ->
  SFleb x y = false -> SFleb y x = true.
Proof.
  unfold SFleb, SFcompare.
  destruct x as [sx|sx| |sx mx ex], y as [sy|sy| |sy my ey];
    try discriminate; try reflexivity;
    repeat match goal with s : bool |- _ => destruct s end;
    try discriminate; try reflexivity; intros _ _;
    change (Pos.compare_cont Eq) with Pos.compare;
    rewrite (Z.compare_antisym ex ey);
    destruct (Z.compare_spec ex ey); simpl;
    try discriminate; try reflexivity;
    rewrite (Pos.compare_antisym mx my);
    destruct (Pos.compare_spec mx my); simpl;
    try discriminate; reflexivity.
Qed.

Lemma SFleb_refl_r x y : SFleb x y = true -> SFleb y y = true.
Proof.
  unfold SFleb, SFcompare.
  destruct x as [sx|sx| |sx mx ex], y as [sy|sy| |sy my ey];
    try discriminate; try reflexivity;
    repeat match goal with s : bool |- _ => destruct s end;
    try discriminate; try reflexivity; intros _;
    change (Pos.compare_cont Eq) with Pos.compare;
    rewrite Z.compare_refl, Pos.compare_refl; reflexivity.
Qed.

(** [>=] is transitive. *)
Lemma ge_trans a b c :
  Dbl.ge a b = true -> Dbl.ge b c = true -> Dbl.ge a c = true.
Proof.
  unfold Dbl.ge. rewrite !leb_spec. intros H1 H2.
  exact (SFleb_trans _ _ _ H2 H1).
Qed.

(** A double that is [>=] something is not a NaN, and [>=] itself. *)
Lemma ge_refl a z : Dbl.ge a z = true -> Dbl.ge a a = true.
Proof.
  unfold Dbl.ge. rewrite !leb_spec. apply SFleb_refl_r.
Qed.

(** Away from NaN, [a >= b] fails only when [b >= a] holds. *)
Lemma ge_total a b :
  Dbl.ge a a = true -> Dbl.ge b b = true ->
  Dbl.ge a b = false -> Dbl.ge b a = true.
Proof.
  unfold Dbl.ge. rewrite !leb_spec. intros Ha Hb. now apply SFleb_total.
Qed.

End DblFacts.

(** ** The stitcher *)

Module StitchFacts.

Import Stitch.

Lemma find_fragment_Some first endPt pool i o :
  find_fragment first endPt pool = Some (i, o) ->
  exists curve,
    pool !! i = Some curve
    /\ (forall j c, (j < i)%nat -> pool !! j = Some c ->
          forward_test first endPt c = false
          /\ reversed_test endPt c = false)
    /\ match o with
       | Forward => forward_test first endPt curve = true
       | Reversed => forward_test first endPt curve = false
                     /\ reversed_test endPt curve = true
       end.
Proof.
  revert i. induction pool as [|curve rest IH]; intros i; simpl; [done|].
  destruct (forward_test first endPt curve) eqn:Hf.
  { intros [= <- <-]. exists curve.
    split; [done|split; [intros; lia|done]]. }
  destruct (reversed_test endPt curve) eqn:Hr.
  { intros [= <- <-]. exists curve.
    split; [done|split; [intros; lia|done]]. }
  destruct (find_fragment first endPt rest) as [[i' o']|] eqn:Hrest;
    simpl; [|done].
  intros [= <- <-]. destruct (IH i' eq_refl) as (c & Hc & Hbefore & Ho).
  exists c. split; [done|split; [|done]].
  intros [|j] c' Hj; simpl.
  - intros [= <-]. done.
  - intros Hc'. apply (Hbefore j); [lia|done].
Qed.




(** A pass that absorbs a fragment takes it out of the pool. *)
Lemma scan_length st st' :
  scan st = Some st' -> length (oCurves st) = S (length (oCurves st')).
Proof.
  unfold scan.
  destruct (find_fragment _ _ _) as [[i o]|] eqn:Hfind; simpl; [|done].
  apply find_fragment_Some in Hfind as (c & Hc & _). rewrite Hc. simpl.
  intros [= <-].
  pose proof (lookup_lt_Some _ _ _ Hc) as Hlt.
  destruct o; simpl; rewrite length_delete; try lia; eauto.
Qed.

Lemma passes_snoc n st :
  passes (S n) st = passes n st ≫= scan.
Proof.
  revert st. induction n as [|n IH]; intros st.
  - simpl. by destruct (scan st).
  - change (passes (S (S n)) st) with (scan st ≫= passes (S n)).
    change (passes (S n) st) with (scan st ≫= passes n).
    destruct (scan st) as [st'|]; simpl; [apply IH|done].
Qed.

Lemma passes_prefix n k st F :
  passes n st = Some F -> (k <= n)%nat -> is_Some (passes k st).
Proof.
  revert st k. induction n as [|n IH]; intros st k Hn Hk.
  - assert (k = 0%nat) as -> by lia. simpl. eauto.
  - destruct k as [|k]; [simpl; eauto|].
    simpl in *. destruct (scan st) as [st'|]; simpl in *; [|done].
    apply (IH st' k Hn). lia.
Qed.

(** The inner loop, pass by pass: it returns, the state it returns in
    is reached by passes that each absorbed a fragment, one of the three
    reasons to stop holds there, and none held after any earlier pass. *)
Lemma ring_loop_passes fuel st :
  (length (oCurves st) < fuel)%nat ->
  exists n F,
    ring_loop fuel st = Some F
    /\ passes n st = Some F
    /\ (scan F = None \/ ((0 < n)%nat /\ pool_empty_or_closed F = true))
    /\ forall k sk, (0 < k < n)%nat -> passes k st = Some sk ->
         scan sk <> None /\ pool_empty_or_closed sk = false.
Proof.
  revert st. induction fuel as [|fuel IH]; intros st Hlen; [lia|].
  simpl. destruct (scan st) as [st'|] eqn:Hscan.
  2:{ exists 0%nat, st. split_and!; [done|done|by left|]. intros; lia. }
  destruct (pool_empty_or_closed st') eqn:Hstop.
  { exists 1%nat, st'. split_and!; [done| |right; split; [lia|done]|].
    - simpl. by rewrite Hscan.
    - intros; lia. }
  pose proof (scan_length _ _ Hscan) as Hl.
  destruct (IH st') as (n & F & Hloop & Hpass & Hfinal & Hbefore); [lia|].
  exists (S n), F. split_and!; [done| |..].
  - simpl. by rewrite Hscan.
  - destruct Hfinal as [?|[? ?]]; [by left|right; split; [lia|done]].
  - intros [|k] sk Hk; [lia|]. simpl. rewrite Hscan. simpl.
    destruct k as [|k].
    + simpl. intros [= <-]. split; [|done].
      destruct n as [|n]; [lia|]. simpl in Hpass.
      destruct (scan st'); [done|]. done.
    + intros Hsk. apply (Hbefore (S k)); [lia|done].
Qed.

(** The inner loop returns on every pool. *)
Lemma assemble_ring_total pool : is_Some (assemble_ring pool).
Proof.
  destruct (ring_loop_passes (S (length pool)) (start_ring pool))
    as (n & F & H & _); [simpl; lia|]. unfold assemble_ring. eauto.
Qed.

(** A ring takes at least one fragment out of a pool that has one. *)
Lemma assemble_ring_shrinks pool st :
  pool <> [] -> assemble_ring pool = Some st ->
  (length (oCurves st) < length pool)%nat.
Proof.
  intros Hne. unfold assemble_ring. simpl.
  destruct pool as [|c rest]; [done|].
  assert (exists st1, scan (start_ring (c :: rest)) = Some st1) as [st1 H1].
  { unfold scan, start_ring. simpl. eauto. }
  rewrite H1. pose proof (scan_length _ _ H1) as Hl. simpl in Hl.
  assert (forall fuel s F, ring_loop fuel s = Some F ->
            (length (oCurves F) <= length (oCurves s))%nat) as Hmono.
  { induction fuel as [|fuel IH]; intros s F; simpl; [done|].
    destruct (scan s) as [s'|] eqn:Hs; [|by intros [= ->]].
    pose proof (scan_length _ _ Hs).
    destruct (pool_empty_or_closed s'); [intros [= ->]; lia|].
    intros HF. apply IH in HF. lia. }
  destruct (pool_empty_or_closed st1).
  - intros [= <-]. simpl. lia.
  - intros HF. apply Hmono in HF. simpl. lia.
Qed.

(** The trailing end point the loop keeps in [endPointCC] is the end
    point of the ring under construction, for fragments that are not
    empty, as the pool holds them. *)
Lemma absorb_trailing_end st i curve o :
  curve_IsEmpty curve = false ->
  endPointCC (absorb st i curve o) = cc_EndPoint (poCC (absorb st i curve o)).
Proof.
  intros Hne. unfold cc_EndPoint, absorb.
  destruct o, curve as [sc|subs];
    cbn [poCC endPointCC forward_pieces reversed_pieces EndPoint StartPoint].
  - by rewrite last_snoc.
  - destruct subs as [|s0 subs]; [done|]. by rewrite last_app_cons.
  - rewrite last_snoc. cbn [fmap option_fmap option_map default from_option].
    unfold sc_EndPoint, sc_StartPoint, reversePoints. cbn [paoPoints].
    by rewrite last_reverse.
  - destruct subs as [|s0 subs]; [done|].
    rewrite reverse_cons, fmap_app, app_assoc.
    change (reversePoints <$> [s0]) with [reversePoints s0].
    rewrite last_snoc.
    unfold cc_StartPoint, sc_EndPoint, sc_StartPoint, reversePoints.
    cbn [fmap option_fmap option_map default from_option head paoPoints].
    by rewrite last_reverse.
Qed.

End StitchFacts.

Module StitchClaims.

Import Stitch StitchFacts.





End StitchClaims.

(** ** The rings of a feature and the choice of the exterior ring *)

Module SurfaceFacts.

Import Stitch StitchFacts Surface.

Section Largest.

Variable E : GeometryEngine.

Abbreviation area := (get_Area E).

(** What the loop over the rings maintains: [dfLargestArea] bounds the
    area of every ring pushed, and [poLargestCurve] points to the last
    ring that reached it. *)
Definition largest_inv (d : DestState) : Prop :=
  Dbl.ge (dfLargestArea d) 0 = true
  /\ (forall r, r ∈ oSetDestCurves d ->
        Dbl.ge (dfLargestArea d) (area r) = true)
  /\ match poLargestCurve d with
     | None => oSetDestCurves d = [] /\ dfLargestArea d = 0%float
     | Some k =>
         exists r, oSetDestCurves d !! k = Some r
           /\ dfLargestArea d = area r
           /\ forall j r', (k < j)%nat -> oSetDestCurves d !! j = Some r' ->
                Dbl.ge (area r') (dfLargestArea d) = false
     end.

Lemma largest_inv_init : largest_inv dest_init.
Proof.
  split; [reflexivity|]. split; [|done].
  intros r Hr. by apply elem_of_nil in Hr.
Qed.

Lemma record_ring_rings d cc :
  oSetDestCurves (record_ring E d cc) = oSetDestCurves d ++ [cc].
Proof. unfold record_ring. by destruct (Dbl.ge _ _). Qed.

Lemma largest_inv_step d cc :
  largest_inv d -> Dbl.ge (area cc) 0 = true ->
  largest_inv (record_ring E d cc).
Proof.
  intros (Hpos & Hmax & Hptr) Hcc. unfold record_ring.
  destruct (Dbl.ge (area cc) (dfLargestArea d)) eqn:Hge; simpl.
  - split; [done|]. split.
    + intros r Hr. apply elem_of_app in Hr as [Hr|Hr].
      * eapply DblFacts.ge_trans; [exact Hge|by apply Hmax].
      * apply list_elem_of_singleton in Hr as ->.
        by eapply DblFacts.ge_refl.
    + exists cc. simpl. split; [|split; [done|]].
      * rewrite lookup_app_r by lia. by rewrite Nat.sub_diag.
      * intros j r' Hj Hr'. apply lookup_lt_Some in Hr'.
        rewrite length_app in Hr'. simpl in Hr'. lia.
  - assert (Dbl.ge (dfLargestArea d) (area cc) = true) as Hle.
    { apply DblFacts.ge_total; [by eapply DblFacts.ge_refl..|done]. }
    split; [done|]. split.
    + intros r Hr. apply elem_of_app in Hr as [Hr|Hr]; [by apply Hmax|].
      by apply list_elem_of_singleton in Hr as ->.
    + destruct (poLargestCurve d) as [k|].
      * destruct Hptr as (r & Hk & Hr & Hafter). exists r. simpl.
        split; [by apply lookup_app_l_Some|]. split; [done|].
        intros j r' Hj Hr'.
        destruct (decide (j < length (oSetDestCurves d))%nat) as [Hlt|Hnlt].
        -- rewrite lookup_app_l in Hr' by done. by eapply Hafter.
        -- rewrite lookup_app_r in Hr' by lia.
           destruct (j - length (oSetDestCurves d))%nat; [|done].
           by injection Hr' as <-.
      * destruct Hptr as [_ Hzero]. rewrite Hzero in Hge.
        rewrite Hcc in Hge. done.
Qed.

Lemma largest_inv_foldl rs d :
  largest_inv d -> (forall r, r ∈ rs -> Dbl.ge (area r) 0 = true) ->
  largest_inv (foldl (record_ring E) d rs).
Proof.
  revert d. induction rs as [|cc rs IH]; intros d Hd Hrs; simpl; [done|].
  apply IH.
  - apply largest_inv_step; [done|]. apply Hrs. by left.
  - intros r Hr. apply Hrs. by right.
Qed.

Lemma foldl_record_ring_rings rs d :
  oSetDestCurves (foldl (record_ring E) d rs) = oSetDestCurves d ++ rs.
Proof.
  revert d. induction rs as [|cc rs IH]; intros d; simpl.
  - by rewrite app_nil_r.
  - rewrite IH, record_ring_rings, <- app_assoc. done.
Qed.

(** The outer loop over the fragments of a feature returns: the closed
    rings among the rings it starts are recorded in their order, and
    each of the others leaves one warning. *)
Lemma rings_loop_candidates fuel fid layer pool d :
  (length pool <= fuel)%nat ->
  rings_loop E fuel fid layer pool d
  = Some (foldl (record_ring E) d
            (List.filter get_IsClosed (candidate_rings fuel pool)),
          unclosed_warning fid layer
            <$> List.filter (fun cc => negb (get_IsClosed cc))
                            (candidate_rings fuel pool)).
Proof.
  revert pool d. induction fuel as [|fuel IH]; intros pool d Hlen.
  { destruct pool; [done|simpl in Hlen; lia]. }
  destruct pool as [|c rest]; [done|].
  cbn [rings_loop candidate_rings].
  destruct (assemble_ring_total (c :: rest)) as [st Hst]. rewrite Hst.
  pose proof (assemble_ring_shrinks (c :: rest) st ltac:(done) Hst) as Hs.
  simpl in Hs, Hlen. simpl.
  destruct (get_IsClosed (poCC st)) eqn:Hclosed; simpl.
  - apply IH. lia.
  - rewrite IH by lia. done.
Qed.

End Largest.

(** The rings of the polygon are taken from the rings handed over. *)
Lemma foldl_add_ring_incl E linear fid layer rings acc ring :
  ring ∈ (foldl (add_ring E linear fid layer) acc rings).1 ->
  ring ∈ acc.1 \/ ring ∈ rings.
Proof.
  revert acc. induction rings as [|r rings IH]; intros acc; simpl.
  { by left. }
  intros Hin. apply IH in Hin as [Hin|Hin]; [|right; by right].
  unfold add_ring in Hin. destruct (addRing_accepts _ _ _ _); simpl in Hin.
  - apply elem_of_app in Hin as [Hin|Hin]; [by left|].
    apply list_elem_of_singleton in Hin as ->. right. by left.
  - by left.
Qed.

Lemma build_polygon_shape E linear fid layer d :
  exists rings log,
    build_polygon E linear fid layer d = (GeomPolygon linear rings, log)
    /\ (oSetDestCurves d = [] -> poLargestCurve d = None ->
        rings = [] /\ log = [])
    /\ (poLargestCurve d = None -> rings = [] /\ log = [])
    /\ ((forall k, poLargestCurve d = Some k -> is_Some (oSetDestCurves d !! k)) ->
        forall ring, ring ∈ rings ->
          exists cc, cc ∈ oSetDestCurves d /\ ring = ring_for E linear cc).
Proof.
  unfold build_polygon. destruct (poLargestCurve d) as [k|] eqn:Hk.
  2:{ eexists _, _. split; [done|]. split; [done|]. split; [done|].
      intros _ ring Hin. by apply elem_of_nil in Hin. }
  eexists _, _. split; [done|]. split; [done|]. split; [done|].
  intros Hvalid ring Hin.
  destruct (Hvalid k eq_refl) as [r Hr]. rewrite Hr in Hin.
  cbn [fst default from_option] in Hin.
  apply foldl_add_ring_incl in Hin as [Hin|Hin].
  { by apply elem_of_nil in Hin. }
  apply list_elem_of_fmap in Hin as (cc & -> & Hcc). exists cc. split; [|done].
  apply elem_of_cons in Hcc as [->|Hcc].
  - by eapply list_elem_of_lookup_2.
  - by eapply list_elem_of_delete_inv.
Qed.

(** [poLargestCurve] always points into [oSetDestCurves]. *)
Definition ptr_valid (d : Surface.DestState) : Prop :=
  forall k, poLargestCurve d = Some k -> is_Some (oSetDestCurves d !! k).

Lemma ptr_valid_foldl E rs d :
  ptr_valid d -> ptr_valid (foldl (record_ring E) d rs).
Proof.
  revert d. induction rs as [|cc rs IH]; intros d Hd; simpl; [done|].
  apply IH. intros k. unfold record_ring.
  destruct (Dbl.ge _ _); simpl.
  - intros [= <-]. apply lookup_lt_is_Some. rewrite length_app. simpl. lia.
  - intros Hk. apply Hd in Hk. apply lookup_lt_is_Some in Hk.
    apply lookup_lt_is_Some. rewrite length_app. lia.
Qed.

Lemma ptr_valid_classify E rs : ptr_valid (classify E rs).
Proof. apply ptr_valid_foldl. intros k. done. Qed.

End SurfaceFacts.

Module SurfaceClaims.

Import Stitch StitchFacts Surface SurfaceFacts.

(** The reading of the specification: among the rings that tie for the
    largest area the first in insertion order is selected, so that no
    ring before the selected one reaches its area. *)
Definition spec_first_maximum (E : GeometryEngine)
    (rings : list OGRCompoundCurve) : Prop :=
  forall k r, poLargestCurve (classify E rings) = Some k ->
    rings !! k = Some r ->
    forall j r', (j < k)%nat -> rings !! j = Some r' ->
      Dbl.ge (get_Area E r') (get_Area E r) = false.

(** C3, as stated, fails. Two unit squares, each closed by a single
    fragment, tie for the largest area. The second one pushed becomes the
    exterior ring, and with the two fragments in the other order the
    other square does. *)
Lemma C3_counterexample_last_of_tied_rings_selected :
  get_Area Examples.engine (forward_pieces Examples.square_A)
  = get_Area Examples.engine (forward_pieces Examples.square_B)
  /\ poLargestCurve (classify Examples.engine Examples.two_squares)
     = Some 1%nat
  /\ assemble_feature Examples.engine false "Parcel" 7
       [Examples.square_A; Examples.square_B]
     = Some (GeomPolygon false
               [CompoundCurve (forward_pieces Examples.square_B);
                CompoundCurve (forward_pieces Examples.square_A)], [])
  /\ assemble_feature Examples.engine false "Parcel" 7
       [Examples.square_B; Examples.square_A]
     = Some (GeomPolygon false
               [CompoundCurve (forward_pieces Examples.square_A);
                CompoundCurve (forward_pieces Examples.square_B)], [])
  /\ ~ spec_first_maximum Examples.engine Examples.two_squares.
Proof.
  split; [reflexivity|]. split; [reflexivity|].
  split; [reflexivity|]. split; [reflexivity|].
  intros Hspec.
  specialize (Hspec 1%nat (forward_pieces Examples.square_B) eq_refl eq_refl
                    0%nat (forward_pieces Examples.square_A)
                    ltac:(lia) eq_refl).
  vm_compute in Hspec. discriminate Hspec.
Qed.

(** C3 (amended): when the areas of the closed rings of a feature are
    not negative and there is at least one such ring, the ring selected
    as the exterior ring has the largest area, and among the rings that
    tie for the largest area it is the last in insertion order: every
    ring pushed after it has a smaller area. The polygon receives it
    first and the other rings after it in their order. *)
Theorem C3_exterior_is_last_ring_of_largest_area
    (E : GeometryEngine) (linear : bool) (fid : Z) (layer : string)
    (curves : list OGRCurve) (d : DestState) (log : list Event) :
  rings_loop E (length curves) fid layer curves dest_init = Some (d, log) ->
  oSetDestCurves d <> [] ->
  (forall r, r ∈ oSetDestCurves d -> Dbl.ge (get_Area E r) 0 = true) ->
  exists k r,
    poLargestCurve d = Some k
    /\ oSetDestCurves d !! k = Some r
    /\ (forall r', r' ∈ oSetDestCurves d ->
          Dbl.ge (get_Area E r) (get_Area E r') = true)
    /\ (forall j r', (k < j)%nat -> oSetDestCurves d !! j = Some r' ->
          Dbl.ge (get_Area E r') (get_Area E r) = false)
    /\ build_polygon E linear fid layer d
       = (let res :=
            foldl (add_ring E linear fid layer) ([], [])
                  (ring_for E linear <$> r :: delete k (oSetDestCurves d)) in
          (GeomPolygon linear res.1, res.2)).
Proof.
  intros Hloop Hne Hpos.
  rewrite rings_loop_candidates in Hloop by done.
  injection Hloop as <- _.
  set (rs := List.filter get_IsClosed _) in *.
  assert (oSetDestCurves (foldl (record_ring E) dest_init rs) = rs) as Hrs.
  { by rewrite foldl_record_ring_rings. }
  destruct (largest_inv_foldl E rs dest_init (largest_inv_init E))
    as (_ & Hmax & Hptr).
  { intros r Hr. apply Hpos. by rewrite Hrs. }
  unfold build_polygon.
  destruct (poLargestCurve (foldl (record_ring E) dest_init rs)) as [k|].
  2:{ by destruct Hptr as [Hnil _]. }
  destruct Hptr as (r & Hk & Harea & Hafter).
  exists k, r. rewrite Hk, <- Harea. simpl. done.
Qed.

(** C3 at the two unit squares: both areas are 1 and the second square is
    selected. *)
Lemma C3_witness_two_squares :
  exists k r,
    poLargestCurve (classify Examples.engine Examples.two_squares) = Some k
    /\ oSetDestCurves (classify Examples.engine Examples.two_squares) !! k
       = Some r
    /\ (forall r',
          r' ∈ oSetDestCurves (classify Examples.engine Examples.two_squares) ->
          Dbl.ge (get_Area Examples.engine r) (get_Area Examples.engine r')
          = true)
    /\ (forall j r', (k < j)%nat ->
          oSetDestCurves (classify Examples.engine Examples.two_squares) !! j
          = Some r' ->
          Dbl.ge (get_Area Examples.engine r') (get_Area Examples.engine r)
          = false)
    /\ build_polygon Examples.engine false 7 "Parcel"
         (classify Examples.engine Examples.two_squares)
       = (let res :=
            foldl (add_ring Examples.engine false 7 "Parcel") ([], [])
                  (ring_for Examples.engine false
                     <$> r :: delete k
                           (oSetDestCurves
                              (classify Examples.engine Examples.two_squares))) in
          (GeomPolygon false res.1, res.2)).
Proof.
  apply (C3_exterior_is_last_ring_of_largest_area Examples.engine false 7
           "Parcel" [Examples.square_A; Examples.square_B]
           (classify Examples.engine Examples.two_squares) []).
  - reflexivity.
  - discriminate.
  - intros r Hr.
    apply elem_of_cons in Hr as [->|Hr]; [reflexivity|].
    apply elem_of_cons in Hr as [->|Hr]; [reflexivity|].
    by apply elem_of_nil in Hr.
Defined.

(** The reading of the specification: a feature with a ring that does
    not close is left without geometry in its surface field. *)
Definition spec_field_left_unset (E : GeometryEngine)
    (l lines : OGRILI1Layer) (nSurfaceFieldIndex : Z) : Prop :=
  forall l' lines' log,
    JoinSurfaceLayer E l lines nSurfaceFieldIndex = Some (l', lines', log) ->
    forall feature, feature ∈ papoFeatures l' ->
      GetGeomFieldRef feature nSurfaceFieldIndex = None.

(** C4, as stated, fails. Three fragments that leave a gap of one unit:
    the ring is dropped with one warning, and the surface field of the
    feature is set, to a polygon without rings. *)
Lemma C4_counterexample_field_set_to_empty_polygon :
  exists l' lines' ring,
    JoinSurfaceLayer Examples.engine Examples.surface_layer
                     Examples.triangle_lines 0
    = Some (l', lines',
            [Debug "Joining surface layer %s with geometries";
             WarnRingNotClosed ring 7 "Parcel"])
    /\ get_IsClosed ring = false
    /\ (fun feature => GetGeomFieldRef feature 0) <$> papoFeatures l'
       = [Some (GeomPolygon true [])]
    /\ ~ spec_field_left_unset Examples.engine Examples.surface_layer
           Examples.triangle_lines 0.
Proof.
  eexists _, _, _. split; [reflexivity|]. split; [reflexivity|].
  split; [reflexivity|].
  intros Hspec.
  specialize (Hspec _ _ _ eq_refl
                (SetGeomField (Examples.feature 7 "7" [None]) 0
                              (GeomPolygon true []))).
  assert (GetGeomFieldRef
            (SetGeomField (Examples.feature 7 "7" [None]) 0
                          (GeomPolygon true [])) 0 = None) as Hnone.
  { apply Hspec. apply elem_of_cons. by left. }
  discriminate Hnone.
Qed.

(** C4 (amended): for the fragments of a feature the loop over its rings
    returns; every ring it starts that is not closed within the tolerance
    is dropped and leaves one warning that carries the ring and the FID
    of the feature, the rings after it are still assembled, and the
    closed rings are kept in their order. The surface field of the
    feature is then set, on every path, to the polygon built from the
    closed rings: a polygon without rings when no ring closed. *)
Theorem C4_unclosed_rings_dropped_field_set
    (E : GeometryEngine) (linear : bool) (nSurfaceFieldIndex : Z)
    (layer : string) (feature : OGRFeature) (curves : list OGRCurve) :
  let rings := candidate_rings (length curves) curves in
  let d := classify E (List.filter get_IsClosed rings) in
  let warnings :=
    unclosed_warning (GetFID feature) layer
      <$> List.filter (fun cc => negb (get_IsClosed cc)) rings in
  exists poPoly log,
    rings_loop E (length curves) (GetFID feature) layer curves dest_init
    = Some (d, warnings)
    /\ oSetDestCurves d = List.filter get_IsClosed rings
    /\ build_polygon E linear (GetFID feature) layer d
       = (GeomPolygon linear poPoly, log)
    /\ (forall ring, ring ∈ poPoly ->
          exists cc, cc ∈ rings /\ get_IsClosed cc = true
                     /\ ring = ring_for E linear cc)
    /\ (List.filter get_IsClosed rings = [] -> poPoly = [] /\ log = [])
    /\ assemble_target E linear nSurfaceFieldIndex layer feature curves
       = Some (SetGeomField feature nSurfaceFieldIndex
                            (GeomPolygon linear poPoly),
               warnings ++ log)
    /\ (0 <= nSurfaceFieldIndex < Z.of_nat (length (geomFields feature)) ->
        GetGeomFieldRef
          (SetGeomField feature nSurfaceFieldIndex (GeomPolygon linear poPoly))
          nSurfaceFieldIndex
        = Some (GeomPolygon linear poPoly)).
Proof.
  intros rings d warnings.
  assert (rings_loop E (length curves) (GetFID feature) layer curves dest_init
          = Some (d, warnings)) as Hloop.
  { by rewrite rings_loop_candidates. }
  assert (oSetDestCurves d = List.filter get_IsClosed rings) as Hd.
  { unfold d, classify. by rewrite foldl_record_ring_rings. }
  destruct (build_polygon_shape E linear (GetFID feature) layer d)
    as (poPoly & log & Hbuild & _ & Hnone & Hin).
  exists poPoly, log.
  split; [done|]. split; [done|]. split; [done|]. split; [|split; [|split]].
  - intros ring Hring. destruct (Hin) with (ring := ring) as (cc & Hcc & ->).
    + apply ptr_valid_classify.
    + done.
    + rewrite Hd in Hcc. apply list_elem_of_In, filter_In in Hcc as [Hcc Hcl].
      exists cc. split; [by apply list_elem_of_In|done].
  - intros Hnil. apply Hnone. unfold d. by rewrite Hnil.
  - unfold assemble_target, assemble_feature. rewrite Hloop. simpl.
    rewrite Hbuild. done.
  - intros Hidx. unfold GetGeomFieldRef, SetGeomField.
    destruct (0 <=? nSurfaceFieldIndex) eqn:H0; [|lia]. simpl.
    rewrite list_lookup_insert_eq by lia. done.
Qed.

End SurfaceClaims.

(** ** Events *)

Module EventFacts.

(** The two events that mark the entry into a function of the layer; all
    the others are diagnostics and engine calls. *)
Definition is_call (e : Event) : bool :=
  match e with
  | CallJoinGeomLayers | CallPolygonize _ => true
  | _ => false
  end.

(** A log without any entry into [JoinGeomLayers] or [Polygonize]. *)
Definition quiet (log : list Event) : Prop :=
  Forall (fun e => is_call e = false) log.

Lemma quiet_app l1 l2 : quiet l1 -> quiet l2 -> quiet (l1 ++ l2).
Proof. intros H1 H2. by apply Forall_app. Qed.

Lemma quiet_cons e l : is_call e = false -> quiet l -> quiet (e :: l).
Proof. intros He Hl. by constructor. Qed.

Lemma quiet_replicate n e : is_call e = false -> quiet (replicate n e).
Proof. intros He. induction n; simpl; [constructor|by apply quiet_cons]. Qed.

Ltac quiet :=
  repeat first
    [ assumption
    | apply Forall_nil_2
    | apply quiet_replicate; reflexivity
    | apply quiet_cons; [reflexivity|]
    | apply quiet_app ].

Lemma quiet_polygonize_calls log : quiet log -> Area.polygonize_calls log = [].
Proof.
  induction 1 as [|e log He _ IH]; [done|].
  destruct e; try discriminate He; exact IH.
Qed.

Lemma quiet_no_join log : quiet log -> CallJoinGeomLayers ∉ log.
Proof.
  intros Hq Hin. unfold quiet in Hq. rewrite Forall_forall in Hq.
  apply Hq in Hin. done.
Qed.

Lemma polygonize_calls_app l1 l2 :
  Area.polygonize_calls (l1 ++ l2)
  = Area.polygonize_calls l1 ++ Area.polygonize_calls l2.
Proof. apply omap_app. Qed.

End EventFacts.

(** ** Polygonization of area layers *)

Module AreaFacts.

Import Area EventFacts.

Lemma fix_lines_quiet E poLines : quiet (fix_lines E poLines).2.
Proof.
  unfold fix_lines. destruct (poLines !! 0%nat); [|simpl; quiet].
  destruct (Union E poLines _) as [u|]; [|simpl; quiet].
  destruct (_ || _); simpl; quiet.
Qed.

Lemma noncrossing_lines_quiet E poLines fix_crossing_lines :
  quiet (noncrossing_lines E poLines fix_crossing_lines).2.
Proof.
  unfold noncrossing_lines. destruct (_ && _).
  - apply fix_lines_quiet.
  - simpl. quiet.
Qed.

Lemma extract_polygons_quiet E lines : quiet (extract_polygons E lines).2.
Proof.
  unfold extract_polygons.
  destruct (GEOSPolygonize_r E lines) as [h|]; [|simpl; quiet].
  destruct (forceToMultiPolygon E _) as [mp|]; [|simpl; quiet].
  destruct (wkb_eqb _ _); simpl; quiet.
Qed.

(** A call of [Polygonize] is one entry into [Polygonize]. *)
Lemma Polygonize_log E poLines fix_crossing_lines :
  exists log,
    (Polygonize E poLines fix_crossing_lines).2
    = CallPolygonize fix_crossing_lines :: log
    /\ quiet log.
Proof.
  unfold Polygonize. destruct (length poLines =? 0)%nat.
  { eexists. split; [done|]. quiet. }
  destruct (HAVE_GEOS E).
  2:{ eexists. split; [done|]. quiet. }
  unfold polygonize_geos.
  pose proof (noncrossing_lines_quiet E poLines fix_crossing_lines) as H1.
  destruct (noncrossing_lines E poLines fix_crossing_lines) as [lines log1].
  pose proof (extract_polygons_quiet E lines) as H2.
  destruct (extract_polygons E lines) as [mp log2]. simpl in *.
  eexists. split; [done|]. quiet.
Qed.

Lemma Polygonize_calls E poLines fix_crossing_lines :
  polygonize_calls (Polygonize E poLines fix_crossing_lines).2
  = [fix_crossing_lines].
Proof.
  destruct (Polygonize_log E poLines fix_crossing_lines) as (log & -> & Hq).
  change (polygonize_calls (CallPolygonize fix_crossing_lines :: log))
    with (fix_crossing_lines :: polygonize_calls log).
  by rewrite quiet_polygonize_calls.
Qed.

(** The passes of [polygonize_lines]: one, and a second one with the
    crossing line fix when the counts differ. *)
Lemma polygonize_lines_calls E l gc :
  polygonize_calls (polygonize_lines E l gc).2
  = if Z.of_nat (length (members (Polygonize E gc false).1))
       =? (GetFeatureCount l).1
    then [false] else [false; true].
Proof.
  unfold polygonize_lines.
  pose proof (Polygonize_calls E gc false) as H1.
  pose proof (Polygonize_calls E gc true) as H2.
  destruct (Polygonize E gc false) as [polys log1].
  destruct (GetFeatureCount l) as [count l1]. cbn [fst snd] in *.
  destruct (Z.of_nat (length (members polys)) =? count); cbn [negb].
  - cbn [snd]. rewrite (app_comm_cons log1), polygonize_calls_app.
    change (polygonize_calls (Debug ?m :: log1)) with (polygonize_calls log1).
    by rewrite H1.
  - destruct (GetFeatureCount l1) as [? l2].
    destruct (Polygonize E gc true) as [polys2 log2]. cbn [fst snd] in *.
    rewrite (app_comm_cons log1), !polygonize_calls_app.
    change (polygonize_calls (Debug ?m :: log1)) with (polygonize_calls log1).
    by rewrite H1, H2.
Qed.

Lemma first_within_quiet E point cands i :
  quiet (first_within E point cands i).2.
Proof.
  revert i. induction cands as [|[poly [h|]] rest IH]; intros i; simpl.
  - quiet.
  - destruct (GEOSWithin_r E point h); simpl; [quiet|].
    specialize (IH (S i)). destruct (first_within E point rest (S i)).
    simpl in *. quiet.
  - apply IH.
Qed.

Lemma associate_feature_quiet E polys ahInGeoms iArea iPoint feature :
  quiet (associate_feature E polys ahInGeoms iArea iPoint feature).2.
Proof.
  unfold associate_feature.
  destruct (GetGeomFieldRef feature iPoint) as [geomRef|]; [|simpl; quiet].
  pose proof (first_within_quiet E geomRef (zip polys ahInGeoms) 0) as Hq.
  destruct (first_within E geomRef (zip polys ahInGeoms) 0) as [[[i poly]|] log];
    simpl in *; quiet.
Qed.

Lemma associate_loop_quiet E polys ahInGeoms iArea iPoint features :
  quiet (associate_loop E polys ahInGeoms iArea iPoint features).2.
Proof.
  induction features as [|feature rest IH]; simpl; [quiet|].
  pose proof (associate_feature_quiet E polys ahInGeoms iArea iPoint feature)
    as Hq.
  destruct (associate_feature E polys ahInGeoms iArea iPoint feature).
  destruct (associate_loop E polys ahInGeoms iArea iPoint rest).
  simpl in *. quiet.
Qed.

Lemma export_valid_quiet E polys : quiet (export_valid E polys).2.
Proof.
  unfold export_valid. simpl. induction polys as [|p polys IH]; simpl; quiet.
Qed.

Lemma associate_quiet E l polys iArea iPoint :
  quiet (associate E l polys iArea iPoint).2.
Proof.
  unfold associate. destruct (HAVE_GEOS E); [|simpl; quiet].
  pose proof (export_valid_quiet E (members polys)) as H1.
  destruct (export_valid E (members polys)) as [ahInGeoms log1].
  pose proof (associate_loop_quiet E (members polys) ahInGeoms iArea iPoint
                (papoFeatures l)) as H2.
  destruct (associate_loop _ _ _ _ _ _) as [features log2].
  simpl in *. quiet.
Qed.

(** The failing path of the association, in general: the empty polygon
    goes to the first geometry field, and a different area field keeps
    what it had. *)
Lemma associate_feature_no_candidate E polys ahInGeoms iArea iPoint feature
    geomRef log :
  GetGeomFieldRef feature iPoint = Some geomRef ->
  first_within E geomRef (zip polys ahInGeoms) 0 = (None, log) ->
  iArea <> 0 ->
  let feature' :=
    (associate_feature E polys ahInGeoms iArea iPoint feature).1 in
  feature' = SetGeomField feature 0 emptyPoly
  /\ GetGeomFieldRef feature' iArea = GetGeomFieldRef feature iArea.
Proof.
  intros Hpoint Hnone Hne. unfold associate_feature.
  rewrite Hpoint, Hnone. simpl. split; [done|].
  unfold SetGeometry, SetGeomField, GetGeomFieldRef. simpl.
  destruct (0 <=? iArea) eqn:Hpos; [|done].
  rewrite list_lookup_insert_ne; [done|]. lia.
Qed.

(** The collection of the lines returns when every line feature has a
    geometry, and so does [PolygonizeAreaLayer]. *)
Lemma collect_lines_returns fuel line gc :
  (nFeatures line - nFeatureIdx line < fuel)%nat ->
  Forall (fun f => is_Some (GetGeometryRef f)) (papoFeatures line) ->
  is_Some (collect_lines fuel line gc).
Proof.
  revert line gc. induction fuel as [|fuel IH]; intros line gc Hfuel Hall; [lia|].
  simpl. unfold GetNextFeatureRef.
  destruct (papoFeatures line !! nFeatureIdx line) as [f|] eqn:Hf; [|eauto].
  destruct (passes_filters line f); [|eauto].
  rewrite Forall_lookup in Hall. destruct (Hall _ _ Hf) as [g ->]. simpl.
  apply lookup_lt_Some in Hf. apply IH.
  - unfold nFeatures in *. simpl. lia.
  - by rewrite Forall_lookup.
Qed.

Lemma PolygonizeAreaLayer_returns E l lines iArea iPoint :
  Forall (fun f => is_Some (GetGeometryRef f)) (papoFeatures lines) ->
  is_Some (PolygonizeAreaLayer E l lines iArea iPoint).
Proof.
  intros Hall. unfold PolygonizeAreaLayer.
  destruct (collect_lines_returns (S (nFeatures lines)) (ResetReading lines) [])
    as [[line gc] Hc]; [unfold nFeatures; simpl; lia|exact Hall|].
  rewrite Hc. cbn [mbind option_bind].
  destruct (polygonize_lines E l gc) as [[polys l1] log1].
  destruct (associate E l1 polys iArea iPoint). eauto.
Qed.

End AreaFacts.

Module AreaClaims.

Import Area EventFacts AreaFacts.

(** C5: a call of [PolygonizeAreaLayer] that returns has made one pass of
    [Polygonize] without the crossing line fix, followed by exactly one
    pass with it when the first pass gave a count of polygons different
    from the feature count of the layer, and by no other pass, whatever
    the second pass gave. *)
Theorem C5_second_pass_exactly_once_on_count_mismatch
    (E : GeometryEngine) (l poAreaLineLayer : OGRILI1Layer)
    (nAreaFieldIndex nPointFieldIndex : Z)
    (l' line' : OGRILI1Layer) (log : list Event) :
  PolygonizeAreaLayer E l poAreaLineLayer nAreaFieldIndex nPointFieldIndex
  = Some (l', line', log) ->
  exists gc,
    collect_lines (S (nFeatures poAreaLineLayer))
                  (ResetReading poAreaLineLayer) [] = Some (line', gc)
    /\ polygonize_calls log
       = if Z.of_nat (length (members (Polygonize E gc false).1))
            =? (GetFeatureCount l).1
         then [false] else [false; true].
Proof.
  unfold PolygonizeAreaLayer.
  destruct (collect_lines _ _ _) as [[line gc]|]; simpl; [|done].
  pose proof (polygonize_lines_calls E l gc) as Hcalls.
  destruct (polygonize_lines E l gc) as [[polys l1] log1].
  pose proof (associate_quiet E l1 polys nAreaFieldIndex nPointFieldIndex)
    as Hq.
  destruct (associate E l1 polys nAreaFieldIndex nPointFieldIndex)
    as [l2 log2].
  intros [= <- <- <-]. exists gc. split; [done|].
  rewrite polygonize_calls_app, (quiet_polygonize_calls log2 Hq), app_nil_r.
  exact Hcalls.
Qed.

(** C5 at a layer of two features whose boundary lines make one polygon:
    the second pass happens, once. *)
Lemma C5_witness_one_boundary_two_features :
  exists l' line' log,
    PolygonizeAreaLayer Examples.engine Examples.area_layer
                        Examples.one_boundary 1 2
    = Some (l', line', log)
    /\ exists gc,
         collect_lines (S (nFeatures Examples.one_boundary))
                       (ResetReading Examples.one_boundary) []
         = Some (line', gc)
         /\ polygonize_calls log
            = if Z.of_nat
                   (length (members (Polygonize Examples.engine gc false).1))
                 =? (GetFeatureCount Examples.area_layer).1
              then [false] else [false; true].
Proof.
  eexists _, _, _. split; [reflexivity|].
  eapply (C5_second_pass_exactly_once_on_count_mismatch Examples.engine
            Examples.area_layer Examples.one_boundary 1 2).
  reflexivity.
Defined.

(** C6: on an empty collection of lines [Polygonize] returns an empty
    multipolygon at once; the call makes no call into the geometry
    engine. *)
Theorem C6_empty_batch_no_engine_call
    (E : GeometryEngine) (fix_crossing_lines : bool) :
  Polygonize E [] fix_crossing_lines
  = (empty_MultiPolygon, [CallPolygonize fix_crossing_lines])
  /\ members (Polygonize E [] fix_crossing_lines).1 = []
  /\ List.filter is_engine_call (Polygonize E [] fix_crossing_lines).2 = [].
Proof. done. Qed.

(** C7 fails on the code where no valid candidate contains the point and
    the area is not the first geometry field of the layer. The layer has a
    position, the area and the companion point of the area as its geometry
    fields. The first feature lies in the first polygon and receives it in
    its area field. The companion point of the second feature is in no
    polygon: the empty polygon is written over its position, in the first
    geometry field, and its area field stays without geometry; one message
    is emitted and the loop goes on. *)
Theorem C7_empty_polygon_written_to_first_geometry_field :
  GetGeomFieldIndex Examples.area_defn "Flaeche" = 1
  /\ GetGeomFieldIndex Examples.area_defn ("Flaeche" +:+ "__Point") = 2
  /\ exists l' line' log,
       PolygonizeAreaLayer Examples.engine Examples.area_layer
                           Examples.two_boundaries 1 2
       = Some (l', line', log)
       /\ geomFields <$> papoFeatures l'
          = [ [Some (GeomPoint (Examples.pt 9 9));
               Some (GeomPolygon true [Examples.square_A]);
               Some (GeomPoint (Examples.pt 0.5 0.5))];
              [Some emptyPoly; None;
               Some (GeomPoint (Examples.pt 50 50))] ]
       /\ List.filter
            (fun e =>
               match e with
               | Debug "Association between area and point failed." => true
               | _ => false
               end) log
          = [Debug "Association between area and point failed."].
Proof.
  split; [reflexivity|]. split; [reflexivity|].
  eexists _, _, _. split; [reflexivity|]. split; reflexivity.
Qed.

Lemma engine_calls_app l1 l2 :
  List.filter is_engine_call (l1 ++ l2)
  = List.filter is_engine_call l1 ++ List.filter is_engine_call l2.
Proof. apply List.filter_app. Qed.

Lemma engine_calls_replicate n e :
  is_engine_call e = true ->
  List.filter is_engine_call (replicate n e) = replicate n e.
Proof.
  intros He. induction n as [|n IH]; [done|]. simpl. by rewrite He, IH.
Qed.

(** The engine calls of the extraction, down to the calls themselves:
    the lines are exported one by one, handed to [GEOSPolygonize_r] and
    destroyed; a result is brought back and destroyed. *)
Lemma extract_polygons_engine_calls E lines :
  (extract_polygons E lines).1
  = match GEOSPolygonize_r E lines with
    | Some hResultGeom =>
        match forceToMultiPolygon E (createFromGEOS E hResultGeom) with
        | Some poMP =>
            if wkb_eqb (getGeometryType poMP) wkbMultiPolygon
            then poMP else empty_MultiPolygon
        | None => empty_MultiPolygon
        end
    | None => empty_MultiPolygon
    end
  /\ List.filter is_engine_call (extract_polygons E lines).2
     = [EngineCreateContext] ++ replicate (length lines) EngineExport
         ++ [EnginePolygonize] ++ replicate (length lines) EngineDestroy
         ++ match GEOSPolygonize_r E lines with
            | Some _ => [EngineImport; EngineDestroy]
            | None => []
            end
         ++ [EngineFreeContext].
Proof.
  unfold extract_polygons.
  assert (forall tail,
            List.filter is_engine_call tail = tail ->
            List.filter is_engine_call
              (([EngineCreateContext] ++ replicate (length lines) EngineExport
                  ++ [EnginePolygonize]
                  ++ replicate (length lines) EngineDestroy) ++ tail)
            = [EngineCreateContext] ++ replicate (length lines) EngineExport
                ++ [EnginePolygonize]
                ++ replicate (length lines) EngineDestroy ++ tail) as Hlog.
  { intros tail Htail. rewrite !engine_calls_app, Htail.
    rewrite !engine_calls_replicate by done. by rewrite <- !app_assoc. }
  destruct (GEOSPolygonize_r E lines) as [h|].
  2:{ split; [done|]. cbn [snd]. by rewrite Hlog. }
  destruct (forceToMultiPolygon E _) as [mp|].
  2:{ split; [done|]. cbn [snd]. by rewrite Hlog. }
  destruct (wkb_eqb _ _); (split; [done|]); cbn [snd]; by rewrite Hlog.
Qed.

(** C8: compiled with the geometry engine, a call of [Polygonize] with
    the crossing line fix on a collection that is not empty computes one
    union, of the whole collection with its first member, before it
    calls any other function of the engine. The lines it then exports
    and hands to [GEOSPolygonize_r] are the members of the union when the
    union is a geometry collection or a multi line string, and otherwise
    (another type, or no result) the lines as they were given; the
    multipolygon returned is what the engine makes of these lines, forced
    to a multipolygon, and the empty multipolygon when the engine returns
    no result or a result of another type. *)
Theorem C8_union_with_first_line_or_original_lines
    (E : GeometryEngine) (poLines : list OGRGeometry) :
  HAVE_GEOS E = true ->
  poLines <> [] ->
  exists line0,
    poLines !! 0%nat = Some line0
    /\ let lines :=
         match Union E poLines line0 with
         | Some poUnion =>
             if wkb_eqb (getGeometryType poUnion) wkbGeometryCollection
                || wkb_eqb (getGeometryType poUnion) wkbMultiLineString
             then members poUnion
             else poLines
         | None => poLines
         end in
       (Polygonize E poLines true).1
       = match GEOSPolygonize_r E lines with
         | Some hResultGeom =>
             match forceToMultiPolygon E (createFromGEOS E hResultGeom) with
             | Some poMP =>
                 if wkb_eqb (getGeometryType poMP) wkbMultiPolygon
                 then poMP else empty_MultiPolygon
             | None => empty_MultiPolygon
             end
         | None => empty_MultiPolygon
         end
       /\ List.filter is_engine_call (Polygonize E poLines true).2
          = [EngineUnion; EngineCreateContext]
              ++ replicate (length lines) EngineExport
              ++ [EnginePolygonize]
              ++ replicate (length lines) EngineDestroy
              ++ match GEOSPolygonize_r E lines with
                 | Some _ => [EngineImport; EngineDestroy]
                 | None => []
                 end
              ++ [EngineFreeContext].
Proof.
  intros Hgeos Hne. destruct poLines as [|line0 rest]; [done|].
  exists line0. split; [done|].
  unfold Polygonize, polygonize_geos, noncrossing_lines, fix_lines.
  rewrite Hgeos. cbn [length Nat.eqb andb Nat.ltb Nat.leb lookup list_lookup].
  assert (forall lines log1,
            List.filter is_engine_call log1 = [EngineUnion] ->
            (let '(poMP, log2) := extract_polygons E lines in
             (poMP, log1 ++ log2)) =
            ((extract_polygons E lines).1,
             log1 ++ (extract_polygons E lines).2)) as Hpair.
  { intros lines log1 _. by destruct (extract_polygons E lines). }
  assert (forall lines log1,
            List.filter is_engine_call log1 = [EngineUnion] ->
            List.filter is_engine_call
              (CallPolygonize true :: log1 ++ (extract_polygons E lines).2)
            = [EngineUnion; EngineCreateContext]
                ++ replicate (length lines) EngineExport
                ++ [EnginePolygonize]
                ++ replicate (length lines) EngineDestroy
                ++ match GEOSPolygonize_r E lines with
                   | Some _ => [EngineImport; EngineDestroy]
                   | None => []
                   end
                ++ [EngineFreeContext]) as Hcalls.
  { intros lines log1 Hlog1.
    change (CallPolygonize true :: ?l) with ([CallPolygonize true] ++ l).
    rewrite !engine_calls_app, Hlog1.
    destruct (extract_polygons_engine_calls E lines) as [_ ->]. done. }
  destruct (Union E (line0 :: rest) line0) as [poUnion|].
  - destruct (_ || _); cbv zeta;
      (destruct (extract_polygons E _) as [poMP log2] eqn:Hextract;
       match type of Hextract with
       | extract_polygons E ?lines = _ =>
           pose proof (extract_polygons_engine_calls E lines) as [Hmp _];
           pose proof (Hcalls lines) as Hc;
           rewrite Hextract in Hmp, Hc
       end; cbn [fst snd] in *; split; [exact Hmp|by apply Hc]).
  - cbv zeta.
    destruct (extract_polygons E _) as [poMP log2] eqn:Hextract.
    pose proof (extract_polygons_engine_calls E (line0 :: rest)) as [Hmp _].
    pose proof (Hcalls (line0 :: rest)) as Hc.
    rewrite Hextract in Hmp, Hc. cbn [fst snd] in *.
    split; [exact Hmp|by apply Hc].
Qed.

(** A line that crosses itself at (1, 1), and the two closed lines its
    union with itself cuts it into. *)
Definition bowtie : OGRGeometry :=
  GeomCurve (Examples.line
               [Examples.pt 0 0; Examples.pt 2 2; Examples.pt 2 0;
                Examples.pt 0 2; Examples.pt 0 0]).

Definition bowtie_noded : list OGRGeometry :=
  [ GeomCurve (Examples.line
                 [Examples.pt 0 0; Examples.pt 1 1; Examples.pt 0 2;
                  Examples.pt 0 0]);
    GeomCurve (Examples.line
                 [Examples.pt 1 1; Examples.pt 2 2; Examples.pt 2 0;
                  Examples.pt 1 1]) ].

(** The engine of the examples with a union that nodes the bow tie. *)
Definition noding_engine : GeometryEngine :=
  mkEngine (get_Area Examples.engine) (CastToLinearRing Examples.engine)
           (addRing_accepts Examples.engine) true
           (fun _ _ => Some (GeomCollection MultiLineString bowtie_noded))
           (GEOSPolygonize_r Examples.engine) (createFromGEOS Examples.engine)
           (forceToMultiPolygon Examples.engine)
           (GEOSisValid_r Examples.engine) (GEOSWithin_r Examples.engine).

(** With the fix the bow tie gives the two polygons of its noded lines;
    without it, and with the fix and an engine whose union is the
    collection of the lines as they were given, the one polygon of the
    line. *)
Example bowtie_with_and_without_fix :
  (Polygonize noding_engine [bowtie] true).1
  = GeomCollection MultiPolygon
      ((fun g => GeomPolygon true
                   match g with GeomCurve c => [c] | _ => [] end)
         <$> bowtie_noded)
  /\ (Polygonize noding_engine [bowtie] false).1
     = GeomCollection MultiPolygon
         [GeomPolygon true match bowtie with GeomCurve c => [c] | _ => [] end]
  /\ (Polygonize Examples.engine [bowtie] true).1
     = GeomCollection MultiPolygon
         [GeomPolygon true match bowtie with GeomCurve c => [c] | _ => [] end].
Proof. split; [reflexivity|]. split; reflexivity. Qed.

(** C8 at the bow tie: the union has two members, and two lines are
    exported and polygonized where one was given. *)
Lemma C8_witness_bowtie :
  exists line0,
    [bowtie] !! 0%nat = Some line0
    /\ let lines :=
         match Union noding_engine [bowtie] line0 with
         | Some poUnion =>
             if wkb_eqb (getGeometryType poUnion) wkbGeometryCollection
                || wkb_eqb (getGeometryType poUnion) wkbMultiLineString
             then members poUnion
             else [bowtie]
         | None => [bowtie]
         end in
       (Polygonize noding_engine [bowtie] true).1
       = match GEOSPolygonize_r noding_engine lines with
         | Some hResultGeom =>
             match forceToMultiPolygon noding_engine
                     (createFromGEOS noding_engine hResultGeom) with
             | Some poMP =>
                 if wkb_eqb (getGeometryType poMP) wkbMultiPolygon
                 then poMP else empty_MultiPolygon
             | None => empty_MultiPolygon
             end
         | None => empty_MultiPolygon
         end
       /\ List.filter is_engine_call (Polygonize noding_engine [bowtie] true).2
          = [EngineUnion; EngineCreateContext]
              ++ replicate (length lines) EngineExport
              ++ [EnginePolygonize]
              ++ replicate (length lines) EngineDestroy
              ++ match GEOSPolygonize_r noding_engine lines with
                 | Some _ => [EngineImport; EngineDestroy]
                 | None => []
                 end
              ++ [EngineFreeContext].
Proof.
  apply (C8_union_with_first_line_or_original_lines noding_engine [bowtie]).
  - reflexivity.
  - discriminate.
Defined.

End AreaClaims.

(** ** Reading: the cursor, the look-ups and the join *)

Module ReadFacts.

Import Read EventFacts.

(** A log without any entry into [JoinGeomLayers]. *)
Definition joinless (log : list Event) : Prop := CallJoinGeomLayers ∉ log.

Lemma joinless_app l1 l2 : joinless l1 -> joinless l2 -> joinless (l1 ++ l2).
Proof. unfold joinless. rewrite not_elem_of_app. done. Qed.

Lemma joinless_cons e l :
  e <> CallJoinGeomLayers -> joinless l -> joinless (e :: l).
Proof. unfold joinless. rewrite not_elem_of_cons. done. Qed.

Lemma joinless_nil : joinless [].
Proof. apply not_elem_of_nil. Qed.

Ltac joinless :=
  repeat first
    [ assumption
    | apply joinless_nil
    | apply quiet_no_join; assumption
    | apply joinless_cons; [discriminate|]
    | apply joinless_app ].


















(** The feature at which the scan of [GetFeatureRef] stops: the first one
    that the filters exclude or that matches the key. *)
Fixpoint first_stop (matches_key : OGRFeature -> bool) (l : OGRILI1Layer)
    (features : list OGRFeature) (i : nat) : option (nat * OGRFeature) :=
  match features with
  | [] => None
  | f :: rest =>
      if negb (passes_filters l f) || matches_key f then Some (i, f)
      else first_stop matches_key l rest (S i)
  end.

Lemma passes_filters_cursor l i f :
  passes_filters (set_nFeatureIdx l i) f = passes_filters l f.
Proof. done. Qed.

Lemma first_stop_cursor key l i fs k :
  first_stop key (set_nFeatureIdx l i) fs k = first_stop key l fs k.
Proof. revert k. induction fs as [|f fs IH]; intros k; simpl; [done|].
  rewrite passes_filters_cursor, IH. done.
Qed.

Lemma GetFeatureRef_loop_first_stop key fuel l :
  (nFeatureIdx l <= nFeatures l)%nat ->
  (nFeatures l - nFeatureIdx l < fuel)%nat ->
  GetFeatureRef_loop fuel key l
  = Some match first_stop key l (drop (nFeatureIdx l) (papoFeatures l))
                 (nFeatureIdx l) with
         | Some (i, f) =>
             (if passes_filters l f then Some (i, f) else None,
              set_nFeatureIdx l (S i))
         | None => (None, set_nFeatureIdx l (nFeatures l))
         end.
Proof.
  revert l. induction fuel as [|fuel IH]; intros l Hle Hfuel; [lia|].
  simpl. unfold GetNextFeatureRef.
  destruct (papoFeatures l !! nFeatureIdx l) as [f|] eqn:Hf.
  2:{ apply lookup_ge_None in Hf. rewrite drop_ge by done. simpl.
      assert (nFeatures l = nFeatureIdx l) as -> by (unfold nFeatures in *; lia).
      by destruct l. }
  rewrite (drop_S _ _ _ Hf). simpl.
  destruct (passes_filters l f) eqn:Hpass; simpl; rewrite ?Hpass; [|done].
  destruct (key f) eqn:Hkey; simpl; [by rewrite Hpass|].
  apply lookup_lt_Some in Hf.
  rewrite IH; [|unfold nFeatures in *; simpl; lia..].
  simpl. rewrite first_stop_cursor.
  destruct (first_stop key l _ _) as [[i g]|]; by destruct l.
Qed.

(** What the look-ups do in general: the scan ends at the first feature
    that the filters exclude or that matches the key, and returns it only
    in the second case; the cursor is left past that feature, or at the
    end of the features when the scan reaches it. *)
Lemma GetFeatureRef_by_first_stop key l :
  GetFeatureRef_by key l
  = Some match first_stop key l (papoFeatures l) 0 with
         | Some (i, f) =>
             (if passes_filters l f then Some (i, f) else None,
              set_nFeatureIdx l (S i))
         | None => (None, set_nFeatureIdx l (nFeatures l))
         end.
Proof.
  unfold GetFeatureRef_by. rewrite GetFeatureRef_loop_first_stop.
  2,3: unfold nFeatures; simpl; lia.
  simpl. rewrite (first_stop_cursor key l 0).
  destruct (first_stop key l _ _) as [[i g]|]; by destruct l.
Qed.

(** *** The loops return *)

Lemma first_stop_lookup key l fs k i f :
  first_stop key l fs k = Some (i, f) ->
  (k <= i)%nat /\ fs !! (i - k)%nat = Some f.
Proof.
  revert k. induction fs as [|g fs IH]; intros k; simpl; [done|].
  destruct (negb (passes_filters l g) || key g).
  - intros [= <- <-]. split; [lia|]. by rewrite Nat.sub_diag.
  - intros H. apply IH in H as [Hle Hf]. split; [lia|].
    replace (i - k)%nat with (S (i - S k)) by lia. done.
Qed.

(** A look-up returns; the feature it returns is the one stored at the
    position it returns, and the features of the layer are as before. *)
Lemma GetFeatureRef_by_returns key l :
  exists r l',
    GetFeatureRef_by key l = Some (r, l')
    /\ papoFeatures l' = papoFeatures l
    /\ poFeatureDefn l' = poFeatureDefn l
    /\ forall i f, r = Some (i, f) -> papoFeatures l !! i = Some f.
Proof.
  rewrite GetFeatureRef_by_first_stop.
  destruct (first_stop key l (papoFeatures l) 0) as [[i f]|] eqn:Hstop.
  - eexists _, _. split; [done|]. split; [done|]. split; [done|].
    apply first_stop_lookup in Hstop as [_ Hf]. rewrite Nat.sub_0_r in Hf.
    destruct (passes_filters l f); [|done]. by intros ? ? [= <- <-].
  - eexists _, _. split; [done|]. split; [done|]. split; done.
Qed.

(** The keys of the map are positions of features of the layer. *)
Definition keys_valid (l : OGRILI1Layer) (m : Surface.FeatureToGeomSet) : Prop :=
  Forall (fun entry => (entry.1 < nFeatures l)%nat) m.

Lemma map_push_back_keys l i curve m :
  (i < nFeatures l)%nat -> keys_valid l m ->
  keys_valid l (Surface.map_push_back i curve m).
Proof.
  intros Hi. unfold keys_valid.
  induction m as [|[k cs] m IH]; intros Hm; simpl.
  { by repeat constructor. }
  apply Forall_cons in Hm as [Hk Hm].
  destruct (i =? k)%nat; [by constructor|].
  destruct (i <? k)%nat; [by repeat constructor|].
  constructor; [done|by apply IH].
Qed.

Lemma push_curves_keys l i linefeature m :
  (i < nFeatures l)%nat -> keys_valid l m ->
  keys_valid l (Surface.push_curves i linefeature m).
Proof.
  intros Hi. unfold Surface.push_curves.
  destruct (as_MultiCurve _) as [curves|]; [|done].
  revert m. induction curves as [|c curves IH]; intros m Hm; simpl; [done|].
  apply IH. destruct (curve_IsEmpty c); [done|]. by apply map_push_back_keys.
Qed.

Lemma collect_loop_returns fuel l line m :
  (nFeatures line - nFeatureIdx line < fuel)%nat ->
  keys_valid l m ->
  exists l' line' m' log,
    Surface.collect_loop fuel l line m = Some (l', line', m', log)
    /\ papoFeatures l' = papoFeatures l
    /\ poFeatureDefn l' = poFeatureDefn l
    /\ keys_valid l m'.
Proof.
  revert l line m. induction fuel as [|fuel IH]; intros l line m Hfuel Hm; [lia|].
  simpl. unfold GetNextFeatureRef.
  destruct (papoFeatures line !! nFeatureIdx line) as [linefeature|] eqn:Hf.
  2:{ eexists _, _, _, _. done. }
  destruct (passes_filters line linefeature).
  2:{ eexists _, _, _, _. done. }
  apply lookup_lt_Some in Hf.
  assert (exists r l1, Surface.find_target l linefeature = Some (r, l1)
            /\ papoFeatures l1 = papoFeatures l
            /\ poFeatureDefn l1 = poFeatureDefn l
            /\ forall i f, r = Some (i, f) -> papoFeatures l !! i = Some f)
    as (r & l1 & -> & Hfs & Hdefn & Hr).
  { unfold Surface.find_target. destruct (field0_is_OFTString _);
      apply GetFeatureRef_by_returns. }
  assert (forall m0, keys_valid l m0 -> keys_valid l1 m0) as Hkeys.
  { intros m0. unfold keys_valid, nFeatures. by rewrite Hfs. }
  simpl. destruct r as [[i f]|].
  - destruct (IH l1 (set_nFeatureIdx line (S (nFeatureIdx line)))
                (Surface.push_curves i linefeature m))
      as (l' & line' & m' & log & -> & Hfs' & Hdefn' & Hm').
    { unfold nFeatures in *. simpl. lia. }
    { apply Hkeys, push_curves_keys; [|done].
      specialize (Hr i f eq_refl). by apply lookup_lt_Some in Hr. }
    eexists _, _, _, _. split; [done|]. split; [congruence|].
    split; [congruence|].
    revert Hm'. unfold keys_valid, nFeatures. by rewrite Hfs.
  - destruct (IH l1 (set_nFeatureIdx line (S (nFeatureIdx line))) m)
      as (l' & line' & m' & log & -> & Hfs' & Hdefn' & Hm').
    { unfold nFeatures in *. simpl. lia. }
    { by apply Hkeys. }
    eexists _, _, _, _. split; [done|]. split; [congruence|].
    split; [congruence|].
    revert Hm'. unfold keys_valid, nFeatures. by rewrite Hfs.
Qed.

Lemma assemble_target_returns E linear idx layer feature curves :
  is_Some (Surface.assemble_target E linear idx layer feature curves).
Proof.
  unfold Surface.assemble_target, Surface.assemble_feature.
  rewrite SurfaceFacts.rings_loop_candidates by done. simpl.
  destruct (Surface.build_polygon _ _ _ _ _). simpl. eauto.
Qed.

Lemma assemble_loop_returns E linear idx l m :
  keys_valid l m -> is_Some (Surface.assemble_loop E linear idx l m).
Proof.
  revert l. induction m as [|[i curves] m IH]; intros l Hm; simpl; [eauto|].
  apply Forall_cons in Hm as [Hi Hm]. simpl in Hi.
  destruct (lookup_lt_is_Some_2 (papoFeatures l) i Hi) as [feature ->]. simpl.
  destruct (assemble_target_returns E linear idx (GetName (poFeatureDefn l))
              feature curves) as [[feature' log1] ->].
  simpl.
  match goal with
  | |- is_Some (mbind _ (Surface.assemble_loop _ _ _ ?l1 _)) =>
      destruct (IH l1) as [[l2 log2] ->]
  end; [|by eauto].
  revert Hm. unfold keys_valid, nFeatures. simpl. by rewrite length_insert.
Qed.

(** [JoinSurfaceLayer] returns whenever the surface field has a field
    definition: every line feature is looked at and every target feature
    with fragments is assembled, whatever rings were dropped. *)
Lemma JoinSurfaceLayer_returns E l lines idx :
  is_Some (GetGeomFieldType (poFeatureDefn l) idx) ->
  is_Some (Surface.JoinSurfaceLayer E l lines idx).
Proof.
  intros [geomType Hty]. unfold Surface.JoinSurfaceLayer.
  destruct (collect_loop_returns (S (nFeatures lines)) l (ResetReading lines) [])
    as (l1 & line1 & m & log1 & Hc & Hfs & _ & Hm).
  { unfold nFeatures. simpl. lia. }
  { constructor. }
  destruct (assemble_loop_returns E (wkb_eqb geomType wkbPolygon) idx l1 m)
    as [[l2 log2] Ha].
  { revert Hm. unfold keys_valid, nFeatures. by rewrite Hfs. }
  eexists. apply bind_Some. exists geomType. split; [done|].
  apply bind_Some. exists (l1, line1, m, log1). split; [exact Hc|].
  apply bind_Some. exists (l2, log2). split; [exact Ha|]. done.
Qed.

End ReadFacts.

Module ReadClaims.

Import Read EventFacts ReadFacts.




















(** C10 fails on the code when the filters exclude a feature stored before
    the one looked up. The second feature of the layer passes the filters
    and has the key 2, by its FID and by its first field; the look-ups
    return no feature, with the cursor left after the first feature, the
    one the attribute query excludes. *)
Theorem C10_lookup_ends_at_feature_excluded_by_filter :
  (exists poFeature,
     papoFeatures Examples.filtered_layer !! 1%nat = Some poFeature
     /\ passes_filters Examples.filtered_layer poFeature = true
     /\ GetFID poFeature = 2
     /\ GetFieldAsString poFeature 0 = "2")
  /\ GetFeatureRef 2 Examples.filtered_layer
     = Some (None, set_nFeatureIdx Examples.filtered_layer 1)
  /\ GetFeatureRef_str "2" Examples.filtered_layer
     = Some (None, set_nFeatureIdx Examples.filtered_layer 1).
Proof.
  split; [eexists; split; [reflexivity|]; split; [reflexivity|]; done|].
  split; reflexivity.
Qed.

End ReadClaims.

(** * Further properties of the layer *)

(** ** Look-ups and reads without the join *)

Module ReadMore.

Import Read ReadFacts.

(** The client loop [while ((f = GetNextFeature()) != NULL)]: the features
    it receives. *)
Fixpoint read_all (E : GeometryEngine) (infos : list (string * GeomFieldInfo))
    (fuel : nat) (l : OGRILI1Layer) : option (list OGRFeature) :=
  match fuel with
  | O => None
  | S fuel' =>
      '(poFeature, l', _) ← GetNextFeature E infos l;
      match poFeature with
      | None => Some []
      | Some f => (f ::.) <$> read_all E infos fuel' l'
      end
  end.

Lemma passes_unfiltered l f :
  m_poFilterGeom l = None -> m_poAttrQuery l = None ->
  passes_filters l f = true.
Proof. intros Hg Ha. unfold passes_filters. by rewrite Hg, Ha. Qed.

Lemma first_stop_found key l fs k i f :
  m_poFilterGeom l = None -> m_poAttrQuery l = None ->
  fs !! i = Some f -> key f = true ->
  (forall j g, (j < i)%nat -> fs !! j = Some g -> key g = false) ->
  first_stop key l fs k = Some ((k + i)%nat, f).
Proof.
  intros Hg Ha. revert k i.
  induction fs as [|g fs IH]; intros k i Hi Hkey Hbefore; [done|].
  simpl. rewrite (passes_unfiltered l g Hg Ha). simpl.
  destruct i as [|i].
  - injection Hi as ->. rewrite Hkey. by rewrite Nat.add_0_r.
  - rewrite (Hbefore 0%nat g) by (done || lia).
    rewrite (IH (S k) i Hi Hkey).
    + f_equal. f_equal. lia.
    + intros j g' Hj Hg'. apply (Hbefore (S j)); [lia|done].
Qed.

Lemma first_stop_miss key l fs k :
  m_poFilterGeom l = None -> m_poAttrQuery l = None ->
  (forall g, g ∈ fs -> key g = false) ->
  first_stop key l fs k = None.
Proof.
  intros Hg Ha. revert k. induction fs as [|g fs IH]; intros k Hall; [done|].
  simpl. rewrite (passes_unfiltered l g Hg Ha), (Hall g) by by left.
  simpl. apply IH. intros g' Hg'. apply Hall. by right.
Qed.

Lemma GetFeatureRef_by_found key l i f :
  m_poFilterGeom l = None -> m_poAttrQuery l = None ->
  papoFeatures l !! i = Some f -> key f = true ->
  (forall j g, (j < i)%nat -> papoFeatures l !! j = Some g -> key g = false) ->
  GetFeatureRef_by key l = Some (Some (i, f), set_nFeatureIdx l (S i)).
Proof.
  intros Hg Ha Hi Hkey Hbefore. rewrite GetFeatureRef_by_first_stop.
  rewrite (first_stop_found key l _ 0 i f Hg Ha Hi Hkey Hbefore). simpl.
  by rewrite (passes_unfiltered l f Hg Ha).
Qed.

Lemma GetFeatureRef_by_miss key l :
  m_poFilterGeom l = None -> m_poAttrQuery l = None ->
  (forall g, g ∈ papoFeatures l -> key g = false) ->
  GetFeatureRef_by key l = Some (None, set_nFeatureIdx l (nFeatures l)).
Proof.
  intros Hg Ha Hall. rewrite GetFeatureRef_by_first_stop.
  by rewrite (first_stop_miss key l _ 0 Hg Ha Hall).
Qed.

(** X1: on a layer without filters, [GetFeatureRef(nFID)] returns the
    first feature in stored order whose FID is [nFID], whatever the cursor
    was, and leaves the cursor just past it; when no feature has this FID
    it returns a null pointer and leaves the cursor at the end. *)
Theorem X1_GetFeatureRef_first_feature_with_fid (l : OGRILI1Layer) (nFID : Z) :
  m_poFilterGeom l = None ->
  m_poAttrQuery l = None ->
  (forall i f,
     papoFeatures l !! i = Some f -> GetFID f = nFID ->
     (forall j g, (j < i)%nat -> papoFeatures l !! j = Some g ->
                  GetFID g <> nFID) ->
     GetFeatureRef nFID l = Some (Some (i, f), set_nFeatureIdx l (S i)))
  /\ ((forall g, g ∈ papoFeatures l -> GetFID g <> nFID) ->
      GetFeatureRef nFID l = Some (None, set_nFeatureIdx l (nFeatures l))).
Proof.
  intros Hg Ha. split.
  - intros i f Hi Hfid Hbefore. apply GetFeatureRef_by_found; try done.
    + by apply Z.eqb_eq.
    + intros j g Hj Hgj. apply Z.eqb_neq. by eapply Hbefore.
  - intros Hall. apply GetFeatureRef_by_miss; try done.
    intros g Hin. apply Z.eqb_neq. by apply Hall.
Qed.

(** X1 at the surface layer of the examples, which has no filter. *)
Lemma X1_witness_surface_layer :
  (forall i f,
     papoFeatures Examples.surface_layer !! i = Some f -> GetFID f = 7 ->
     (forall j g, (j < i)%nat ->
                  papoFeatures Examples.surface_layer !! j = Some g ->
                  GetFID g <> 7) ->
     GetFeatureRef 7 Examples.surface_layer
     = Some (Some (i, f), set_nFeatureIdx Examples.surface_layer (S i)))
  /\ ((forall g, g ∈ papoFeatures Examples.surface_layer -> GetFID g <> 7) ->
      GetFeatureRef 7 Examples.surface_layer
      = Some (None, set_nFeatureIdx Examples.surface_layer
                      (nFeatures Examples.surface_layer))).
Proof.
  apply (X1_GetFeatureRef_first_feature_with_fid Examples.surface_layer 7);
    reflexivity.
Defined.

(** X2: on a layer without filters, the look-up by the string key compares
    the key with the first field of each feature: it returns the first
    feature in stored order whose first field is the key, and a null
    pointer when there is none. *)
Theorem X2_GetFeatureRef_first_feature_with_key (l : OGRILI1Layer)
    (fid : string) :
  m_poFilterGeom l = None ->
  m_poAttrQuery l = None ->
  (forall i f,
     papoFeatures l !! i = Some f -> GetFieldAsString f 0 = fid ->
     (forall j g, (j < i)%nat -> papoFeatures l !! j = Some g ->
                  GetFieldAsString g 0 <> fid) ->
     GetFeatureRef_str fid l = Some (Some (i, f), set_nFeatureIdx l (S i)))
  /\ ((forall g, g ∈ papoFeatures l -> GetFieldAsString g 0 <> fid) ->
      GetFeatureRef_str fid l
      = Some (None, set_nFeatureIdx l (nFeatures l))).
Proof.
  intros Hg Ha. split.
  - intros i f Hi Hfid Hbefore. apply GetFeatureRef_by_found; try done.
    + by apply String.eqb_eq.
    + intros j g Hj Hgj. apply String.eqb_neq. by eapply Hbefore.
  - intros Hall. apply GetFeatureRef_by_miss; try done.
    intros g Hin. apply String.eqb_neq. by apply Hall.
Qed.

Lemma X2_witness_surface_layer :
  (forall i f,
     papoFeatures Examples.surface_layer !! i = Some f ->
     GetFieldAsString f 0 = "7" ->
     (forall j g, (j < i)%nat ->
                  papoFeatures Examples.surface_layer !! j = Some g ->
                  GetFieldAsString g 0 <> "7") ->
     GetFeatureRef_str "7" Examples.surface_layer
     = Some (Some (i, f), set_nFeatureIdx Examples.surface_layer (S i)))
  /\ ((forall g, g ∈ papoFeatures Examples.surface_layer ->
                 GetFieldAsString g 0 <> "7") ->
      GetFeatureRef_str "7" Examples.surface_layer
      = Some (None, set_nFeatureIdx Examples.surface_layer
                      (nFeatures Examples.surface_layer))).
Proof.
  apply (X2_GetFeatureRef_first_feature_with_key Examples.surface_layer "7");
    reflexivity.
Defined.

(** X3: a feature added to a layer without filters is found by its FID,
    at the position it was stored at, as soon as no feature stored before
    it has the same FID. *)
Theorem X3_AddFeature_then_GetFeatureRef (l : OGRILI1Layer) (f : OGRFeature) :
  m_poFilterGeom l = None ->
  m_poAttrQuery l = None ->
  (forall g, g ∈ papoFeatures l -> GetFID g <> GetFID f) ->
  GetFeatureRef (GetFID f) (AddFeature l f)
  = Some (Some (nFeatures l, f),
          set_nFeatureIdx (AddFeature l f) (S (nFeatures l))).
Proof.
  intros Hg Ha Hfresh. apply GetFeatureRef_by_found; try done.
  - simpl. rewrite lookup_app_r by done. unfold nFeatures.
    by rewrite Nat.sub_diag.
  - apply Z.eqb_refl.
  - intros j g Hj Hgj. apply Z.eqb_neq, Hfresh.
    simpl in Hgj. rewrite lookup_app_l in Hgj by done.
    by eapply list_elem_of_lookup_2.
Qed.

Lemma X3_witness_second_parcel :
  GetFeatureRef 8
    (AddFeature Examples.surface_layer (Examples.feature 8 "8" [None]))
  = Some (Some (1%nat, Examples.feature 8 "8" [None]),
          set_nFeatureIdx
            (AddFeature Examples.surface_layer (Examples.feature 8 "8" [None]))
            2).
Proof.
  apply (X3_AddFeature_then_GetFeatureRef Examples.surface_layer
           (Examples.feature 8 "8" [None])); [reflexivity..|].
  intros g Hin. apply elem_of_cons in Hin as [->|Hin]; [done|].
  by apply elem_of_nil in Hin.
Defined.

(** The next feature at or after position [i] that passes the filters. *)
Fixpoint next_from (l : OGRILI1Layer) (fs : list OGRFeature) (i : nat)
    : option (nat * OGRFeature) :=
  match fs with
  | [] => None
  | f :: rest =>
      if passes_filters l f then Some (i, f) else next_from l rest (S i)
  end.

Lemma next_from_cursor l c fs k :
  next_from (set_nFeatureIdx l c) fs k = next_from l fs k.
Proof. revert k. induction fs as [|f fs IH]; intros k; simpl; [done|].
  by rewrite passes_filters_cursor, IH.
Qed.

Lemma GetNextFeature_loop_next fuel l :
  (nFeatureIdx l <= nFeatures l)%nat ->
  (nFeatures l - nFeatureIdx l < fuel)%nat ->
  GetNextFeature_loop fuel l
  = Some match next_from l (drop (nFeatureIdx l) (papoFeatures l))
                 (nFeatureIdx l) with
         | Some (i, f) => (Some f, set_nFeatureIdx l (S i))
         | None => (None, set_nFeatureIdx l (nFeatures l))
         end.
Proof.
  revert l. induction fuel as [|fuel IH]; intros l Hle Hfuel; [lia|].
  simpl. destruct (nFeatureIdx l <? nFeatures l)%nat eqn:Hlt.
  2:{ apply Nat.ltb_ge in Hlt. rewrite drop_ge by done. simpl.
      assert (nFeatures l = nFeatureIdx l) as -> by lia. by destruct l. }
  apply Nat.ltb_lt in Hlt. unfold GetNextFeatureRef.
  destruct (lookup_lt_is_Some_2 (papoFeatures l) _ Hlt) as [f Hf].
  rewrite Hf, (drop_S _ _ _ Hf). simpl.
  destruct (passes_filters l f) eqn:Hpass; [done|].
  rewrite IH; [|unfold nFeatures in *; simpl; lia..].
  simpl. rewrite next_from_cursor.
  destruct (next_from l _ _) as [[i g]|]; by destruct l.
Qed.

Lemma next_from_found l fs k i f :
  fs !! i = Some f -> passes_filters l f = true ->
  (forall j g, (j < i)%nat -> fs !! j = Some g -> passes_filters l g = false) ->
  next_from l fs k = Some ((k + i)%nat, f).
Proof.
  revert k i. induction fs as [|g fs IH]; intros k i Hi Hpass Hbefore; [done|].
  simpl. destruct i as [|i].
  - injection Hi as ->. by rewrite Hpass, Nat.add_0_r.
  - rewrite (Hbefore 0%nat g) by (done || lia).
    rewrite (IH (S k) i Hi Hpass).
    + f_equal. f_equal. lia.
    + intros j g' Hj Hg'. apply (Hbefore (S j)); [lia|done].
Qed.

Lemma next_from_none l fs k :
  (forall g, g ∈ fs -> passes_filters l g = false) -> next_from l fs k = None.
Proof.
  revert k. induction fs as [|g fs IH]; intros k Hall; [done|].
  simpl. rewrite (Hall g) by by left. apply IH.
  intros g' Hg'. apply Hall. by right.
Qed.

Lemma next_from_filter l fs k :
  match next_from l fs k with
  | Some (i, f) =>
      (k <= i)%nat
      /\ List.filter (passes_filters l) fs
         = f :: List.filter (passes_filters l) (drop (S (i - k)) fs)
  | None => List.filter (passes_filters l) fs = []
  end.
Proof.
  revert k. induction fs as [|g fs IH]; intros k; simpl; [done|].
  destruct (passes_filters l g) eqn:Hpass.
  - split; [lia|]. by rewrite Nat.sub_diag, drop_0.
  - specialize (IH (S k)). destruct (next_from l fs (S k)) as [[i f]|]; [|done].
    destruct IH as [Hle ->]. split; [lia|].
    replace (i - k)%nat with (S (i - S k)) by lia. done.
Qed.

Lemma next_from_lookup l fs k i f :
  next_from l fs k = Some (i, f) -> (k <= i)%nat /\ fs !! (i - k)%nat = Some f.
Proof.
  revert k. induction fs as [|g fs IH]; intros k; simpl; [done|].
  destruct (passes_filters l g).
  - intros [= <- <-]. by rewrite Nat.sub_diag.
  - intros [Hle Hf]%IH. split; [lia|].
    by replace (i - k)%nat with (S (i - S k)) by lia.
Qed.

Lemma GetNextFeature_joined E infos l :
  bGeomsJoined l = true ->
  GetNextFeature E infos l
  = '(poFeature, l') ← GetNextFeature_loop (S (nFeatures l)) l;
    Some (poFeature, l', []).
Proof. intros Hj. unfold GetNextFeature. by rewrite Hj. Qed.

(** X4: once the geometries are joined, [GetNextFeature] hands back the
    first feature at or after the cursor that passes the filters, passing
    over the features they exclude, and leaves the cursor just past it; when
    no such feature is left it returns a null pointer with the cursor at
    the end. In both cases nothing is reported. *)
Theorem X4_GetNextFeature_next_feature_passing_filters
    (E : GeometryEngine) (infos : list (string * GeomFieldInfo))
    (l : OGRILI1Layer) :
  bGeomsJoined l = true ->
  (nFeatureIdx l <= nFeatures l)%nat ->
  (forall i f,
     (nFeatureIdx l <= i)%nat ->
     papoFeatures l !! i = Some f -> passes_filters l f = true ->
     (forall j g, (nFeatureIdx l <= j < i)%nat ->
                  papoFeatures l !! j = Some g ->
                  passes_filters l g = false) ->
     GetNextFeature E infos l = Some (Some f, set_nFeatureIdx l (S i), []))
  /\ ((forall j g, (nFeatureIdx l <= j)%nat ->
                   papoFeatures l !! j = Some g ->
                   passes_filters l g = false) ->
      GetNextFeature E infos l
      = Some (None, set_nFeatureIdx l (nFeatures l), [])).
Proof.
  intros Hj Hle. rewrite (GetNextFeature_joined E infos l Hj).
  rewrite GetNextFeature_loop_next by (done || lia). split.
  - intros i f Hi Hf Hpass Hbefore.
    rewrite (next_from_found l _ (nFeatureIdx l) (i - nFeatureIdx l) f).
    + simpl. repeat f_equal. lia.
    + rewrite lookup_drop. by replace (nFeatureIdx l + (i - nFeatureIdx l))%nat
        with i by lia.
    + done.
    + intros j g Hlt Hg. rewrite lookup_drop in Hg.
      apply (Hbefore (nFeatureIdx l + j)%nat); [lia|done].
  - intros Hnone. rewrite next_from_none; [done|].
    intros g Hin. apply list_elem_of_lookup in Hin as [j Hg].
    rewrite lookup_drop in Hg. by eapply (Hnone (nFeatureIdx l + j)%nat); [lia|].
Qed.

(** X4 at the layer of the examples whose first feature the attribute query
    excludes. *)
Lemma X4_witness_filtered_layer :
  (forall i f,
     (0 <= i)%nat ->
     papoFeatures Examples.filtered_layer !! i = Some f ->
     passes_filters Examples.filtered_layer f = true ->
     (forall j g, (0 <= j < i)%nat ->
                  papoFeatures Examples.filtered_layer !! j = Some g ->
                  passes_filters Examples.filtered_layer g = false) ->
     GetNextFeature Examples.engine []
       (set_bGeomsJoined Examples.filtered_layer true)
     = Some (Some f,
             set_nFeatureIdx (set_bGeomsJoined Examples.filtered_layer true)
                             (S i), []))
  /\ ((forall j g, (0 <= j)%nat ->
                   papoFeatures Examples.filtered_layer !! j = Some g ->
                   passes_filters Examples.filtered_layer g = false) ->
      GetNextFeature Examples.engine []
        (set_bGeomsJoined Examples.filtered_layer true)
      = Some (None,
              set_nFeatureIdx (set_bGeomsJoined Examples.filtered_layer true) 2,
              [])).
Proof.
  apply (X4_GetNextFeature_next_feature_passing_filters Examples.engine []
           (set_bGeomsJoined Examples.filtered_layer true)).
  - reflexivity.
  - simpl. lia.
Defined.

Lemma read_all_from E infos fuel l :
  bGeomsJoined l = true ->
  (nFeatureIdx l <= nFeatures l)%nat ->
  (nFeatures l - nFeatureIdx l < fuel)%nat ->
  read_all E infos fuel l
  = Some (List.filter (passes_filters l)
                      (drop (nFeatureIdx l) (papoFeatures l))).
Proof.
  revert l. induction fuel as [|fuel IH]; intros l Hj Hle Hfuel; [lia|].
  simpl. rewrite (GetNextFeature_joined E infos l Hj).
  rewrite GetNextFeature_loop_next by (done || lia).
  pose proof (next_from_filter l (drop (nFeatureIdx l) (papoFeatures l))
                (nFeatureIdx l)) as Hnext.
  destruct (next_from l _ _) as [[i f]|] eqn:Hfound; simpl.
  2:{ by rewrite Hnext. }
  destruct Hnext as [Hi Hfilter].
  assert (i < nFeatures l)%nat as Hlt.
  { apply next_from_lookup in Hfound as [_ Hf].
    apply lookup_lt_Some in Hf. rewrite length_drop in Hf.
    unfold nFeatures. lia. }
  rewrite IH; [|done|unfold nFeatures in *; simpl; lia..].
  simpl. rewrite Hfilter, drop_drop. replace (nFeatureIdx l + S (i - nFeatureIdx l))%nat with (S i) by lia. reflexivity.
Qed.

(** X5: once the geometries are joined, a client that resets the reading
    and calls [GetNextFeature] until it returns a null pointer receives
    exactly the features of the layer that pass the filters, in their
    stored order; as many calls as the layer has features, and one more,
    are enough. *)
Theorem X5_reading_through_yields_filtered_features
    (E : GeometryEngine) (infos : list (string * GeomFieldInfo))
    (l : OGRILI1Layer) :
  bGeomsJoined l = true ->
  read_all E infos (S (nFeatures l)) (ResetReading l)
  = Some (List.filter (passes_filters l) (papoFeatures l)).
Proof.
  intros Hj. rewrite read_all_from; [done|done|..].
  - simpl. lia.
  - unfold nFeatures. simpl. lia.
Qed.

Lemma X5_witness_filtered_layer :
  read_all Examples.engine []
    (S (nFeatures (set_bGeomsJoined Examples.filtered_layer true)))
    (ResetReading (set_bGeomsJoined Examples.filtered_layer true))
  = Some (List.filter
            (passes_filters (set_bGeomsJoined Examples.filtered_layer true))
            (papoFeatures (set_bGeomsJoined Examples.filtered_layer true))).
Proof.
  apply (X5_reading_through_yields_filtered_features Examples.engine []
           (set_bGeomsJoined Examples.filtered_layer true)).
  reflexivity.
Defined.

End ReadMore.

(** * Further properties of the stitcher *)

Module StitchMore.

Import Stitch StitchFacts.

(** What the ring receives from a fragment taken in a direction. *)
Definition pieces (t : OGRCurve * Orientation) : OGRCompoundCurve :=
  match t.2 with
  | Forward => forward_pieces t.1
  | Reversed => reversed_pieces t.1
  end.

(** A piece taken forward starts where the fragment starts, a piece taken
    reversed starts where the fragment ends. *)
Lemma pieces_start c o :
  cc_StartPoint (pieces (c, o))
  = match o with Forward => StartPoint c | Reversed => EndPoint c end.
Proof.
  unfold pieces, cc_StartPoint. destruct o, c as [sc|subs]; simpl; try done.
  - unfold sc_StartPoint, sc_EndPoint, reversePoints. simpl.
    by rewrite head_reverse.
  - unfold cc_EndPoint. rewrite <- (reverse_involutive subs) at 2.
    destruct (reverse subs) as [|s rest]; [done|].
    rewrite reverse_cons, last_snoc. simpl.
    unfold sc_StartPoint, sc_EndPoint, reversePoints. simpl.
    by rewrite head_reverse.
Qed.

Lemma scan_absorbs st st' :
  scan st = Some st' ->
  exists i c o,
    find_fragment (bFirst st) (endPointCC st) (oCurves st) = Some (i, o)
    /\ oCurves st !! i = Some c
    /\ st' = absorb st i c o.
Proof.
  unfold scan.
  destruct (find_fragment _ _ _) as [[i o]|] eqn:Hfind; simpl; [|done].
  destruct (oCurves st !! i) as [c|] eqn:Hc; simpl; [|done].
  intros [= <-]. by exists i, c, o.
Qed.

Lemma absorb_pool st i c o : oCurves (absorb st i c o) = delete i (oCurves st).
Proof. by destruct o. Qed.

Lemma absorb_ring st i c o : poCC (absorb st i c o) = poCC st ++ pieces (c, o).
Proof. by destruct o. Qed.

(** After a pass that absorbed a fragment, [bFirst] is false. *)
Lemma scan_not_first st st' : scan st = Some st' -> bFirst st' = false.
Proof.
  intros (i & c & o & Hfind & Hc & ->)%scan_absorbs.
  destruct o; [done|]. simpl.
  apply find_fragment_Some in Hfind as (c' & Hc' & _ & Hf & _).
  unfold forward_test in Hf. by destruct (bFirst st).
Qed.

Lemma ring_loop_takes fuel st F :
  ring_loop fuel st = Some F ->
  exists taken,
    oCurves st ≡ₚ taken.*1 ++ oCurves F
    /\ poCC F = poCC st ++ concat (pieces <$> taken)
    /\ oCurves F `sublist_of` oCurves st.
Proof.
  revert st. induction fuel as [|fuel IH]; intros st; simpl; [done|].
  destruct (scan st) as [st'|] eqn:Hscan.
  2:{ intros [= <-]. exists []. simpl. by rewrite app_nil_r. }
  apply scan_absorbs in Hscan as (i & c & o & _ & Hc & ->).
  assert (forall F,
    (exists taken, oCurves (absorb st i c o) ≡ₚ taken.*1 ++ oCurves F
       /\ poCC F = poCC (absorb st i c o) ++ concat (pieces <$> taken)
       /\ oCurves F `sublist_of` oCurves (absorb st i c o)) ->
    exists taken, oCurves st ≡ₚ taken.*1 ++ oCurves F
       /\ poCC F = poCC st ++ concat (pieces <$> taken)
       /\ oCurves F `sublist_of` oCurves st) as Hstep.
  { intros F' (taken & Hperm & Hcc & Hsub). exists ((c, o) :: taken).
    rewrite absorb_pool in Hperm, Hsub. rewrite absorb_ring in Hcc.
    split; [|split].
    - simpl. rewrite <- Hperm. by apply delete_Permutation.
    - rewrite Hcc. simpl. by rewrite <- app_assoc.
    - etrans; [exact Hsub|apply sublist_delete]. }
  destruct (pool_empty_or_closed _).
  - intros [= <-]. apply Hstep. exists []. simpl. by rewrite app_nil_r.
  - intros HF. apply Hstep. by apply IH.
Qed.

(** X6: a ring is made of fragments of the pool and of nothing else. The
    inner loop returns on every pool; the fragments it took and the
    fragments it left are together the pool it started from, the ring is
    the concatenation of the pieces taken, in the order and the direction
    they were taken, and the fragments left keep their order. *)
Theorem X6_ring_is_made_of_fragments_taken_from_pool (pool : list OGRCurve) :
  exists st taken,
    assemble_ring pool = Some st
    /\ pool ≡ₚ taken.*1 ++ oCurves st
    /\ poCC st = concat (pieces <$> taken)
    /\ oCurves st `sublist_of` pool.
Proof.
  destruct (assemble_ring_total pool) as [st Hst]. exists st.
  unfold assemble_ring in Hst.
  destruct (ring_loop_takes _ _ _ Hst) as (taken & Hperm & Hcc & Hsub).
  by exists taken.
Qed.

(** The trailing end point and [bFirst] after any number of passes on a
    pool of fragments that are not empty. *)
Lemma passes_trailing_end n pool st :
  Forall (fun c => curve_IsEmpty c = false) pool ->
  passes (S n) (start_ring pool) = Some st ->
  bFirst st = false
  /\ endPointCC st = cc_EndPoint (poCC st)
  /\ Forall (fun c => curve_IsEmpty c = false) (oCurves st).
Proof.
  intros Hpool. revert st.
  assert (forall m s, passes m (start_ring pool) = Some s ->
            Forall (fun c => curve_IsEmpty c = false) (oCurves s)) as Hne.
  { induction m as [|m IH]; intros s.
    - simpl. by intros [= <-].
    - rewrite passes_snoc.
      destruct (passes m (start_ring pool)) as [s0|] eqn:Hm; simpl; [|done].
      intros (i & c & o & _ & _ & ->)%scan_absorbs. rewrite absorb_pool.
      apply Forall_delete. by apply IH. }
  intros st Hst. split; [|split; [|by eapply Hne]].
  - rewrite passes_snoc in Hst.
    destruct (passes n (start_ring pool)) as [s0|]; simpl in Hst; [|done].
    by eapply scan_not_first.
  - rewrite passes_snoc in Hst.
    destruct (passes n (start_ring pool)) as [s0|] eqn:Hn; simpl in Hst;
      [|done].
    apply scan_absorbs in Hst as (i & c & o & _ & Hc & ->).
    apply absorb_trailing_end.
    apply Hne in Hn. rewrite Forall_lookup in Hn. by eapply Hn.
Qed.

(** X7: the ring grows at its end without a gap. On a pool of fragments
    that are not empty, every pass after the first appends a piece whose
    start point lies within the tolerance of the end point of the ring as
    it stands. *)
Theorem X7_piece_appended_starts_at_end_of_ring
    (n : nat) (pool : list OGRCurve) (st st' : RingState) :
  Forall (fun c => curve_IsEmpty c = false) pool ->
  passes (S n) (start_ring pool) = Some st ->
  scan st = Some st' ->
  exists piece,
    poCC st' = poCC st ++ piece
    /\ matches (cc_StartPoint piece) (cc_EndPoint (poCC st)) = true.
Proof.
  intros Hpool Hst Hscan.
  destruct (passes_trailing_end n pool st Hpool Hst) as (Hfirst & Hend & _).
  apply scan_absorbs in Hscan as (i & c & o & Hfind & Hc & ->).
  exists (pieces (c, o)). split; [apply absorb_ring|].
  rewrite pieces_start, <- Hend.
  apply find_fragment_Some in Hfind as (c' & Hc' & _ & Ho).
  assert (c' = c) as -> by congruence.
  destruct o.
  - unfold forward_test in Ho. by rewrite Hfirst in Ho.
  - by destruct Ho as [_ Ho].
Qed.

(** X7 at the second pass over the four fragments of the unit square. *)
Lemma X7_witness_square_fragments :
  exists st st',
    passes 1 (start_ring Examples.square_fragments) = Some st
    /\ scan st = Some st'
    /\ exists piece,
         poCC st' = poCC st ++ piece
         /\ matches (cc_StartPoint piece) (cc_EndPoint (poCC st)) = true.
Proof.
  eexists _, _. split; [reflexivity|]. split; [reflexivity|].
  apply (X7_piece_appended_starts_at_end_of_ring 0 Examples.square_fragments).
  - repeat constructor.
  - reflexivity.
  - reflexivity.
Defined.

(** X8: every ring starts with the first fragment of the pool, taken in
    its own direction whatever its end points are; when that fragment is
    closed by itself the ring takes no other fragment and the rest of the
    pool is left as it is. *)
Theorem X8_ring_starts_with_first_fragment_of_pool
    (c : OGRCurve) (rest : list OGRCurve) :
  exists st tail,
    assemble_ring (c :: rest) = Some st
    /\ poCC st = forward_pieces c ++ tail
    /\ (get_IsClosed (forward_pieces c) = true ->
        tail = [] /\ oCurves st = rest).
Proof.
  unfold assemble_ring. cbn [length].
  remember (S (length rest)) as fuel eqn:Hfuel. cbn [ring_loop].
  assert (scan (start_ring (c :: rest))
          = Some (mkRing rest (forward_pieces c) (EndPoint c) false)) as ->.
  { reflexivity. }
  unfold pool_empty_or_closed. cbn [oCurves poCC].
  destruct (get_IsClosed (forward_pieces c)) eqn:Hclosed.
  { rewrite orb_true_r. eexists _, []. rewrite app_nil_r. by split. }
  rewrite orb_false_r. destruct (empty rest) eqn:Hrest.
  { eexists _, []. rewrite app_nil_r. by split. }
  destruct (ring_loop_passes fuel
              (mkRing rest (forward_pieces c) (EndPoint c) false))
    as (n & F & HF & _); [simpl; lia|].
  rewrite HF.
  destruct (ring_loop_takes _ _ _ HF) as (taken & _ & Hcc & _).
  exists F, (concat (pieces <$> taken)). by split.
Qed.

End StitchMore.

(** * Further properties of [JoinSurfaceLayer] *)

Module SurfaceMore.

Import Stitch StitchFacts StitchMore Surface SurfaceFacts.

Lemma candidate_rings_take fuel pool :
  (length pool <= fuel)%nat ->
  exists taken,
    pool ≡ₚ taken.*1
    /\ concat (candidate_rings fuel pool) = concat (pieces <$> taken).
Proof.
  revert pool. induction fuel as [|fuel IH]; intros pool Hlen.
  { destruct pool; [by exists []|simpl in Hlen; lia]. }
  destruct pool as [|c rest]; [by exists []|].
  cbn [candidate_rings].
  destruct (assemble_ring_total (c :: rest)) as [st Hst]. rewrite Hst.
  pose proof (assemble_ring_shrinks (c :: rest) st ltac:(done) Hst) as Hs.
  unfold assemble_ring in Hst.
  destruct (ring_loop_takes _ _ _ Hst) as (taken1 & Hperm & Hcc & _).
  destruct (IH (oCurves st)) as (taken2 & Hperm2 & Hcc2).
  { simpl in Hs, Hlen. lia. }
  exists (taken1 ++ taken2). split.
  - rewrite fmap_app, <- Hperm2. exact Hperm.
  - cbn [concat]. rewrite Hcc2, Hcc, fmap_app, concat_app. done.
Qed.

(** X9: the rings started for a feature share out its fragments. Every
    fragment handed to the loop over the rings is taken into exactly one
    of the rings it starts, and the rings hold nothing else. *)
Theorem X9_candidate_rings_share_out_the_fragments (pool : list OGRCurve) :
  exists taken,
    pool ≡ₚ taken.*1
    /\ concat (candidate_rings (length pool) pool)
       = concat (pieces <$> taken).
Proof. by apply candidate_rings_take. Qed.

(** The warning of a ring the polygon refuses. *)
Definition refused_warning (E : GeometryEngine) (linear : bool) (fid : Z)
    (layer : string) (cc : OGRCompoundCurve) : Event :=
  WarnCannotAddRing (ring_for E linear cc) fid layer.

(** Every ring handed to the polygon is added or reported: the rings
    split into those the polygon accepted, which it holds in their order,
    and those it refused, each reported by one warning in their order. *)
Lemma foldl_add_ring_split E linear fid layer ccs acc :
  exists accepted refused,
    foldl (add_ring E linear fid layer) acc (ring_for E linear <$> ccs)
    = (acc.1 ++ (ring_for E linear <$> accepted),
       acc.2 ++ (refused_warning E linear fid layer <$> refused))
    /\ ccs ≡ₚ accepted ++ refused.
Proof.
  revert acc. induction ccs as [|cc ccs IH]; intros acc.
  { exists [], []. simpl. rewrite !app_nil_r. by destruct acc. }
  cbn [fmap list_fmap foldl]. unfold add_ring at 2.
  destruct (addRing_accepts E linear acc.1 (ring_for E linear cc)).
  - destruct (IH (acc.1 ++ [ring_for E linear cc], acc.2))
      as (accepted & refused & -> & Hperm).
    exists (cc :: accepted), refused. split.
    + cbn [fst snd]. by rewrite <- app_assoc.
    + simpl. by rewrite Hperm.
  - destruct (IH (acc.1, acc.2 ++ [WarnCannotAddRing (ring_for E linear cc)
                                      fid layer]))
      as (accepted & refused & -> & Hperm).
    exists accepted, (cc :: refused). split.
    + cbn [fst snd]. by rewrite <- app_assoc.
    + rewrite Hperm. apply Permutation_middle.
Qed.

Lemma build_polygon_split E linear fid layer d k :
  poLargestCurve d = Some k -> is_Some (oSetDestCurves d !! k) ->
  exists accepted refused,
    build_polygon E linear fid layer d
    = (GeomPolygon linear (ring_for E linear <$> accepted),
       refused_warning E linear fid layer <$> refused)
    /\ oSetDestCurves d ≡ₚ accepted ++ refused.
Proof.
  intros Hk [largest Hlargest]. unfold build_polygon. rewrite Hk, Hlargest.
  cbn [default from_option].
  destruct (foldl_add_ring_split E linear fid layer
              (largest :: delete k (oSetDestCurves d)) ([], []))
    as (accepted & refused & Hfold & Hperm).
  cbn [fst snd app] in Hfold. cbv zeta. change (id largest) with largest.
  exists accepted, refused. split.
  - by rewrite Hfold.
  - rewrite <- Hperm. by apply delete_Permutation.
Qed.

(** X10: no ring of a feature is lost, and none is taken twice, when the
    areas of its closed rings compare as non-negative. The polygon is
    built; the rings started for the feature that are not closed are
    each reported by one warning, in their order; and the closed ones
    split into the rings of the polygon and the rings the polygon
    refused, each of these reported by one warning: accepted and refused
    together are the closed rings, each once. *)
Theorem X10_every_ring_is_added_or_reported
    (E : GeometryEngine) (linear : bool) (layer : string) (fid : Z)
    (curves : list OGRCurve) :
  Forall (fun cc => Dbl.ge (get_Area E cc) 0 = true)
         (List.filter get_IsClosed (candidate_rings (length curves) curves)) ->
  exists accepted refused,
    assemble_feature E linear layer fid curves
    = Some (GeomPolygon linear (ring_for E linear <$> accepted),
            (unclosed_warning fid layer
               <$> List.filter (fun cc => negb (get_IsClosed cc))
                               (candidate_rings (length curves) curves))
              ++ (refused_warning E linear fid layer <$> refused))
    /\ List.filter get_IsClosed (candidate_rings (length curves) curves)
       ≡ₚ accepted ++ refused.
Proof.
  intros Hpos. unfold assemble_feature.
  rewrite rings_loop_candidates by done. cbn [mbind option_bind].
  set (cands := candidate_rings (length curves) curves) in *.
  pose proof (largest_inv_foldl E (List.filter get_IsClosed cands) dest_init
                (largest_inv_init E)) as Hinv.
  rewrite Forall_forall in Hpos. specialize (Hinv Hpos).
  pose proof (foldl_record_ring_rings E (List.filter get_IsClosed cands)
                dest_init) as Hrings.
  simpl in Hrings.
  destruct Hinv as (_ & _ & Hptr).
  destruct (poLargestCurve (foldl (record_ring E) dest_init
                              (List.filter get_IsClosed cands)))
    as [k|] eqn:Hk.
  - destruct Hptr as (r & Hr & _).
    destruct (build_polygon_split E linear fid layer _ k Hk)
      as (accepted & refused & Hbuild & Hperm); [by eexists|].
    rewrite Hbuild. exists accepted, refused.
    split; [done|]. by rewrite <- Hrings.
  - destruct Hptr as [Hnil _]. rewrite Hrings in Hnil.
    unfold build_polygon. rewrite Hk.
    exists [], []. rewrite Hnil. done.
Qed.

(** X10 at a feature with a closed square and the open triangle. *)
Lemma X10_witness_square_and_open_triangle :
  exists accepted refused,
    assemble_feature Examples.engine true "Parcel" 7
                     (Examples.square_A :: Examples.open_triangle)
    = Some (GeomPolygon true (ring_for Examples.engine true <$> accepted),
            (unclosed_warning 7 "Parcel"
               <$> List.filter (fun cc => negb (get_IsClosed cc))
                     (candidate_rings
                        (length (Examples.square_A :: Examples.open_triangle))
                        (Examples.square_A :: Examples.open_triangle)))
              ++ (refused_warning Examples.engine true 7 "Parcel"
                    <$> refused))
    /\ List.filter get_IsClosed
         (candidate_rings
            (length (Examples.square_A :: Examples.open_triangle))
            (Examples.square_A :: Examples.open_triangle))
       ≡ₚ accepted ++ refused.
Proof.
  apply (X10_every_ring_is_added_or_reported Examples.engine true "Parcel" 7
           (Examples.square_A :: Examples.open_triangle)).
  vm_compute. repeat constructor.
Defined.

Lemma foldl_record_ring_no_largest E rs d :
  poLargestCurve d = None -> dfLargestArea d = 0%float ->
  Forall (fun cc => Dbl.ge (get_Area E cc) 0 = false) rs ->
  poLargestCurve (foldl (record_ring E) d rs) = None.
Proof.
  revert d. induction rs as [|cc rs IH]; intros d Hptr Harea Hall; [done|].
  inversion Hall as [|? ? Hcc Hrs]; subst. simpl. apply IH; [..|done].
  - unfold record_ring. rewrite Harea, Hcc. done.
  - unfold record_ring. rewrite Harea, Hcc. done.
Qed.

(** X11: the comparison [dfArea >= dfLargestArea] starts from 0.0. When
    the area of no closed ring compares as greater than or equal to 0,
    no exterior ring is chosen: the polygon stays empty although rings
    are closed, and the warnings are those of the rings not closed. *)
Theorem X11_no_exterior_ring_when_no_area_reaches_zero
    (E : GeometryEngine) (linear : bool) (layer : string) (fid : Z)
    (curves : list OGRCurve) :
  Forall (fun cc => Dbl.ge (get_Area E cc) 0 = false)
         (List.filter get_IsClosed (candidate_rings (length curves) curves)) ->
  assemble_feature E linear layer fid curves
  = Some (GeomPolygon linear [],
          unclosed_warning fid layer
            <$> List.filter (fun cc => negb (get_IsClosed cc))
                            (candidate_rings (length curves) curves)).
Proof.
  intros Hneg. unfold assemble_feature.
  rewrite rings_loop_candidates by done. cbn [mbind option_bind].
  unfold build_polygon.
  rewrite (foldl_record_ring_no_largest E _ dest_init) by done.
  by rewrite app_nil_r.
Qed.

(** An engine whose areas are not numbers. *)
Definition engine_nan_area : GeometryEngine :=
  mkEngine (fun _ => nan) (CastToLinearRing Examples.engine)
           (addRing_accepts Examples.engine) true (Union Examples.engine)
           (GEOSPolygonize_r Examples.engine) (createFromGEOS Examples.engine)
           (forceToMultiPolygon Examples.engine)
           (GEOSisValid_r Examples.engine) (GEOSWithin_r Examples.engine).

Lemma X11_witness_nan_area :
  assemble_feature engine_nan_area true "Parcel" 7 [Examples.square_A]
  = Some (GeomPolygon true [],
          unclosed_warning 7 "Parcel"
            <$> List.filter (fun cc => negb (get_IsClosed cc))
                  (candidate_rings (length [Examples.square_A])
                                   [Examples.square_A])).
Proof.
  apply (X11_no_exterior_ring_when_no_area_reaches_zero engine_nan_area true
           "Parcel" 7 [Examples.square_A]).
  vm_compute. repeat constructor.
Defined.

(** Two layers that differ by their cursor only. *)
Definition same_layer (l l' : OGRILI1Layer) : Prop :=
  poFeatureDefn l' = poFeatureDefn l
  /\ papoFeatures l' = papoFeatures l
  /\ bGeomsJoined l' = bGeomsJoined l
  /\ m_poFilterGeom l' = m_poFilterGeom l
  /\ m_poAttrQuery l' = m_poAttrQuery l.

Lemma same_layer_refl l : same_layer l l.
Proof. done. Qed.

Lemma same_layer_trans l1 l2 l3 :
  same_layer l1 l2 -> same_layer l2 l3 -> same_layer l1 l3.
Proof.
  intros (? & ? & ? & ? & ?) (? & ? & ? & ? & ?).
  unfold same_layer. split_and!; congruence.
Qed.

Lemma GetNextFeatureRef_same_layer l : same_layer l (GetNextFeatureRef l).2.
Proof.
  unfold GetNextFeatureRef. destruct (papoFeatures l !! nFeatureIdx l); [|done].
  by destruct (passes_filters l _).
Qed.

Lemma GetFeatureRef_loop_same_layer fuel key l r l' :
  GetFeatureRef_loop fuel key l = Some (r, l') -> same_layer l l'.
Proof.
  revert l. induction fuel as [|fuel IH]; intros l; simpl; [done|].
  pose proof (GetNextFeatureRef_same_layer l) as Hnext.
  destruct (GetNextFeatureRef l) as [[[i f]|] l1]; simpl in Hnext.
  - destruct (key f).
    + by intros [= <- <-].
    + intros Hloop. apply IH in Hloop. by eapply same_layer_trans.
  - by intros [= <- <-].
Qed.

Lemma find_target_same_layer l linefeature r l' :
  find_target l linefeature = Some (r, l') -> same_layer l l'.
Proof.
  unfold find_target, GetFeatureRef_str, GetFeatureRef, GetFeatureRef_by.
  destruct (field0_is_OFTString _); intros Hloop;
    apply GetFeatureRef_loop_same_layer in Hloop;
    (eapply same_layer_trans; [|exact Hloop]); done.
Qed.

Lemma collect_loop_same_layer fuel l line m l' line' m' log :
  collect_loop fuel l line m = Some (l', line', m', log) ->
  same_layer l l' /\ same_layer line line'.
Proof.
  revert l line m l' line' m' log.
  induction fuel as [|fuel IH]; intros l line m l' line' m' log; [done|].
  cbn [collect_loop].
  pose proof (GetNextFeatureRef_same_layer line) as Hnext.
  destruct (GetNextFeatureRef line) as [[[i linefeature]|] line1];
    simpl in Hnext.
  2:{ by intros [= <- <- <- <-]. }
  intros Hloop. apply bind_Some in Hloop as ([feature l1] & Hfind & Hloop).
  apply find_target_same_layer in Hfind.
  destruct feature as [[j f]|].
  - apply IH in Hloop as [H1 H2].
    split; eapply same_layer_trans; eauto.
  - apply bind_Some in Hloop as ([[[l2 line2] m2] log2] & Hrec & Hloop).
    injection Hloop as <- <- <- <-.
    apply IH in Hrec as [H1 H2].
    split; eapply same_layer_trans; eauto.
Qed.

(** Two features that differ at most by one geometry field. *)
Definition same_but_field (iField : Z) (f f' : OGRFeature) : Prop :=
  GetFID f' = GetFID f
  /\ GetFieldAsString f' = GetFieldAsString f
  /\ GetFieldAsInteger64 f' = GetFieldAsInteger64 f
  /\ length (geomFields f') = length (geomFields f)
  /\ forall j, j <> iField -> GetGeomFieldRef f' j = GetGeomFieldRef f j.

Lemma same_but_field_refl iField f : same_but_field iField f f.
Proof. done. Qed.

Lemma same_but_field_trans iField f1 f2 f3 :
  same_but_field iField f1 f2 -> same_but_field iField f2 f3 ->
  same_but_field iField f1 f3.
Proof.
  intros (? & ? & ? & ? & H12) (? & ? & ? & ? & H23).
  unfold same_but_field. split_and!; try congruence.
  intros j Hj. by rewrite H23, H12.
Qed.

Lemma SetGeomField_same_but_field iField f g :
  same_but_field iField f (SetGeomField f iField g).
Proof.
  unfold SetGeomField. destruct (0 <=? iField) eqn:Hpos; [|done].
  unfold same_but_field. simpl. split_and!; try done.
  - by rewrite length_insert.
  - intros j Hj. unfold GetGeomFieldRef. simpl.
    destruct (0 <=? j) eqn:Hj0; [|done].
    rewrite list_lookup_insert_ne; [done|]. lia.
Qed.

Lemma assemble_loop_frame E linear iField m fs0 l l' log :
  Forall2 (same_but_field iField) fs0 (papoFeatures l) ->
  assemble_loop E linear iField l m = Some (l', log) ->
  Forall2 (same_but_field iField) fs0 (papoFeatures l')
  /\ poFeatureDefn l' = poFeatureDefn l
  /\ nFeatureIdx l' = nFeatureIdx l.
Proof.
  revert l l' log. induction m as [|[i curves] m IH]; intros l l' log Hfs.
  { simpl. by intros [= <- <-]. }
  cbn [assemble_loop]. intros Hloop.
  apply bind_Some in Hloop as (feature & Hfeature & Hloop).
  apply bind_Some in Hloop as ([feature' log1] & Htarget & Hloop).
  apply bind_Some in Hloop as ([l2 log2] & Hrec & Hloop).
  injection Hloop as <- <-.
  apply IH in Hrec; [done|]. simpl.
  unfold assemble_target in Htarget.
  apply bind_Some in Htarget as ([poPoly log0] & _ & Htarget).
  injection Htarget as <- <-.
  apply Forall2_same_length_lookup. apply Forall2_same_length_lookup in Hfs.
  destruct Hfs as [Hlen Hfs]. split; [by rewrite length_insert|].
  intros j x y Hx Hy.
  destruct (decide (j = i)) as [->|Hne].
  - rewrite list_lookup_insert_eq in Hy by by eapply lookup_lt_Some.
    injection Hy as <-.
    eapply same_but_field_trans; [by eapply Hfs|].
    apply SetGeomField_same_but_field.
  - rewrite list_lookup_insert_ne in Hy by done. by eapply Hfs.
Qed.

(** X12: [JoinSurfaceLayer] touches one geometry field and nothing else.
    When it returns, the layer has the features it had, in their order,
    each with its FID, its attributes and its other geometry fields; the
    definition of the layer is the same, the cursor is reset, and the
    line layer has lost no feature. *)
Theorem X12_JoinSurfaceLayer_changes_only_the_surface_field
    (E : GeometryEngine) (l poSurfaceLineLayer : OGRILI1Layer)
    (nSurfaceFieldIndex : Z) (l' line' : OGRILI1Layer) (log : list Event) :
  JoinSurfaceLayer E l poSurfaceLineLayer nSurfaceFieldIndex
  = Some (l', line', log) ->
  nFeatureIdx l' = 0%nat
  /\ poFeatureDefn l' = poFeatureDefn l
  /\ papoFeatures line' = papoFeatures poSurfaceLineLayer
  /\ Forall2 (same_but_field nSurfaceFieldIndex)
             (papoFeatures l) (papoFeatures l').
Proof.
  unfold JoinSurfaceLayer. intros Hjoin.
  apply bind_Some in Hjoin as (geomType & _ & Hjoin).
  apply bind_Some in Hjoin as ([[[l1 line1] m] log1] & Hcollect & Hjoin).
  apply bind_Some in Hjoin as ([l2 log2] & Hassemble & Hjoin).
  injection Hjoin as <- <- <-.
  apply collect_loop_same_layer in Hcollect
    as [(Hdefn & Hfs & _) (_ & Hline & _)].
  apply (assemble_loop_frame _ _ _ _ (papoFeatures l)) in Hassemble
    as (Hframe & Hdefn2 & _).
  - simpl. split_and!; [done|congruence|exact Hline|exact Hframe].
  - rewrite Hfs. apply Forall2_same_length_lookup. split; [done|].
    intros j x y Hx Hy. assert (x = y) as -> by congruence.
    apply same_but_field_refl.
Qed.

(** X12 at the surface layer of the examples and its line table. *)
Lemma X12_witness_surface_layer :
  exists l' line' log,
    JoinSurfaceLayer Examples.engine Examples.surface_layer
                     Examples.triangle_lines 0
    = Some (l', line', log)
    /\ nFeatureIdx l' = 0%nat
    /\ poFeatureDefn l' = poFeatureDefn Examples.surface_layer
    /\ papoFeatures line' = papoFeatures Examples.triangle_lines
    /\ Forall2 (same_but_field 0)
               (papoFeatures Examples.surface_layer) (papoFeatures l').
Proof.
  eexists _, _, _. split; [reflexivity|].
  eapply (X12_JoinSurfaceLayer_changes_only_the_surface_field Examples.engine
            Examples.surface_layer Examples.triangle_lines 0).
  reflexivity.
Defined.

End SurfaceMore.

(** * Further properties of the polygonization *)

Module AreaMore.

Import Area EventFacts AreaFacts.

Lemma wkb_eqb_eq a b : wkb_eqb a b = true -> a = b.
Proof. by destruct a, b. Qed.

(** X13: [Polygonize] returns a multipolygon on every path: for an empty
    collection, without the geometry engine, when the engine returns no
    result, and when the result brought back is forced to a geometry of
    another type. *)
Theorem X13_Polygonize_returns_a_multipolygon
    (E : GeometryEngine) (poLines : list OGRGeometry)
    (fix_crossing_lines : bool) :
  getGeometryType (Polygonize E poLines fix_crossing_lines).1
  = wkbMultiPolygon.
Proof.
  unfold Polygonize. destruct (length poLines =? 0)%nat; [done|].
  destruct (HAVE_GEOS E); [|done].
  unfold polygonize_geos.
  destruct (noncrossing_lines E poLines fix_crossing_lines) as [lines log1].
  unfold extract_polygons.
  destruct (GEOSPolygonize_r E lines) as [h|]; [|done].
  destruct (forceToMultiPolygon E _) as [mp|]; [|done].
  destruct (wkb_eqb _ _) eqn:Htype; [|done].
  by apply wkb_eqb_eq in Htype.
Qed.

(** The calls that create and that free an engine context. *)
Definition is_create (e : Event) : bool :=
  match e with EngineCreateContext => true | _ => false end.

Definition is_free (e : Event) : bool :=
  match e with EngineFreeContext => true | _ => false end.

Definition count (p : Event -> bool) (log : list Event) : nat :=
  length (List.filter p log).

(** As many contexts freed as created. *)
Definition balanced (log : list Event) : Prop :=
  count is_create log = count is_free log.

(** Neither call. *)
Definition contextless (log : list Event) : Prop :=
  Forall (fun e => is_create e = false /\ is_free e = false) log.

Lemma count_app p l1 l2 : count p (l1 ++ l2) = (count p l1 + count p l2)%nat.
Proof. unfold count. by rewrite List.filter_app, length_app. Qed.

Lemma count_none p log :
  Forall (fun e => p e = false) log -> count p log = 0%nat.
Proof.
  unfold count. induction 1 as [|e log He _ IH]; [done|].
  simpl. by rewrite He.
Qed.

Lemma contextless_balanced log : contextless log -> balanced log.
Proof.
  intros Hc. unfold balanced. rewrite !count_none; [done|..].
  - eapply Forall_impl; [exact Hc|]. simpl. tauto.
  - eapply Forall_impl; [exact Hc|]. simpl. tauto.
Qed.

Lemma balanced_app l1 l2 : balanced l1 -> balanced l2 -> balanced (l1 ++ l2).
Proof. unfold balanced. rewrite !count_app. lia. Qed.

Lemma balanced_cons e log :
  is_create e = false -> is_free e = false -> balanced log ->
  balanced (e :: log).
Proof. unfold balanced, count. simpl. by intros -> ->. Qed.

Lemma balanced_bracket log :
  balanced log -> balanced (EngineCreateContext :: log ++ [EngineFreeContext]).
Proof.
  unfold balanced, count. simpl.
  rewrite !List.filter_app, !length_app. simpl. lia.
Qed.

Lemma contextless_app l1 l2 :
  contextless l1 -> contextless l2 -> contextless (l1 ++ l2).
Proof. intros H1 H2. by apply Forall_app. Qed.

Lemma contextless_replicate n e :
  is_create e = false -> is_free e = false -> contextless (replicate n e).
Proof.
  intros H1 H2. induction n; simpl; [constructor|]. by constructor.
Qed.

Lemma fix_lines_contextless E poLines : contextless (fix_lines E poLines).2.
Proof.
  unfold fix_lines. destruct (poLines !! 0%nat).
  2:{ simpl. by repeat constructor. }
  destruct (Union E poLines _) as [u|].
  2:{ simpl. by repeat constructor. }
  destruct (_ || _); simpl; by repeat constructor.
Qed.

Lemma extract_polygons_balanced E lines : balanced (extract_polygons E lines).2.
Proof.
  assert (forall n tail, contextless tail ->
            balanced ([EngineCreateContext] ++ replicate n EngineExport
                        ++ [EnginePolygonize] ++ replicate n EngineDestroy
                        ++ tail ++ [EngineFreeContext])) as Hshape.
  { intros n tail Htail.
    change ([EngineCreateContext] ++ ?l) with (EngineCreateContext :: l).
    rewrite !app_assoc. apply balanced_bracket, contextless_balanced.
    repeat apply contextless_app; try done.
    - by apply contextless_replicate.
    - by repeat constructor.
    - by apply contextless_replicate. }
  unfold extract_polygons.
  destruct (GEOSPolygonize_r E lines) as [h|].
  2:{ cbn [snd]. rewrite <- !app_assoc. apply (Hshape _ []). constructor. }
  assert (balanced
            (([EngineCreateContext] ++ replicate (length lines) EngineExport
                ++ [EnginePolygonize]
                ++ replicate (length lines) EngineDestroy)
               ++ [EngineImport; EngineDestroy; EngineFreeContext])) as Hlog.
  { rewrite <- !app_assoc.
    apply (Hshape _ [EngineImport; EngineDestroy]). by repeat constructor. }
  destruct (forceToMultiPolygon E _) as [mp|]; [|exact Hlog].
  destruct (wkb_eqb _ _); exact Hlog.
Qed.

Lemma Polygonize_balanced E poLines fix_crossing_lines :
  balanced (Polygonize E poLines fix_crossing_lines).2.
Proof.
  unfold Polygonize. destruct (length poLines =? 0)%nat.
  { apply contextless_balanced. by repeat constructor. }
  destruct (HAVE_GEOS E).
  2:{ apply contextless_balanced. by repeat constructor. }
  unfold polygonize_geos, noncrossing_lines.
  assert (contextless
            (if fix_crossing_lines && (0 <? length poLines)%nat
             then fix_lines E poLines else (poLines, [])).2) as Hfix.
  { destruct (_ && _); [apply fix_lines_contextless|constructor]. }
  destruct (if fix_crossing_lines && (0 <? length poLines)%nat
            then fix_lines E poLines else (poLines, [])) as [lines log1].
  pose proof (extract_polygons_balanced E lines) as Hextract.
  destruct (extract_polygons E lines) as [mp log2]. simpl in *.
  apply balanced_cons; [done..|].
  apply balanced_app; [by apply contextless_balanced|done].
Qed.

Lemma polygonize_lines_balanced E l gc :
  balanced (polygonize_lines E l gc).2.
Proof.
  unfold polygonize_lines.
  pose proof (Polygonize_balanced E gc false) as H1.
  pose proof (Polygonize_balanced E gc true) as H2.
  destruct (Polygonize E gc false) as [polys log1].
  destruct (GetFeatureCount l) as [n l1]. simpl in H1.
  destruct (negb _).
  - destruct (GetFeatureCount l1) as [n2 l2].
    destruct (Polygonize E gc true) as [polys2 log2]. simpl in *.
    apply balanced_cons; [done..|].
    repeat apply balanced_app; try done;
      apply contextless_balanced; by repeat constructor.
  - simpl. apply balanced_cons; [done..|].
    apply balanced_app; [done|].
    apply contextless_balanced. by repeat constructor.
Qed.

Lemma first_within_contextless E point cands i :
  contextless (first_within E point cands i).2.
Proof.
  revert i. induction cands as [|[poly [h|]] rest IH]; intros i; simpl.
  - constructor.
  - destruct (GEOSWithin_r E point h); simpl; [by repeat constructor|].
    specialize (IH (S i)). destruct (first_within E point rest (S i)).
    simpl in *. by constructor.
  - apply IH.
Qed.

Lemma associate_loop_contextless E polys ahInGeoms iArea iPoint features :
  contextless (associate_loop E polys ahInGeoms iArea iPoint features).2.
Proof.
  induction features as [|feature rest IH]; simpl; [constructor|].
  assert (contextless
            (associate_feature E polys ahInGeoms iArea iPoint feature).2)
    as Hfeature.
  { unfold associate_feature.
    destruct (GetGeomFieldRef feature iPoint) as [geomRef|]; [|constructor].
    pose proof (first_within_contextless E geomRef (zip polys ahInGeoms) 0)
      as Hw.
    destruct (first_within E geomRef (zip polys ahInGeoms) 0)
      as [[[i poly]|] log]; simpl in *.
    - constructor; [done|]. apply contextless_app; [done|].
      by repeat constructor.
    - constructor; [done|]. apply contextless_app; [done|].
      by repeat constructor. }
  destruct (associate_feature E polys ahInGeoms iArea iPoint feature).
  destruct (associate_loop E polys ahInGeoms iArea iPoint rest).
  simpl in *. by apply contextless_app.
Qed.

Lemma export_valid_contextless E polys : contextless (export_valid E polys).2.
Proof.
  unfold export_valid. simpl.
  induction polys as [|p polys IH]; simpl; [constructor|].
  by repeat constructor.
Qed.

Lemma associate_balanced E l polys iArea iPoint :
  balanced (associate E l polys iArea iPoint).2.
Proof.
  unfold associate. destruct (HAVE_GEOS E).
  2:{ apply contextless_balanced. constructor. }
  pose proof (export_valid_contextless E (members polys)) as H1.
  destruct (export_valid E (members polys)) as [ahInGeoms log1].
  pose proof (associate_loop_contextless E (members polys) ahInGeoms iArea
                iPoint (papoFeatures l)) as H2.
  destruct (associate_loop _ _ _ _ _ _) as [features log2].
  simpl in *. apply balanced_cons; [done..|].
  rewrite !app_assoc. apply balanced_bracket, contextless_balanced.
  repeat apply contextless_app; try done.
  by apply contextless_replicate.
Qed.

(** X14: every engine context is freed. When every line feature has a
    geometry, [PolygonizeAreaLayer] returns, and among the calls it made
    into the engine there are as many calls of [freeGEOSContext] as of
    [createGEOSContext]: one pair for each pass of [Polygonize] that
    reaches the engine, on the path where the engine returns no result
    too, and one pair for the association. *)
Theorem X14_PolygonizeAreaLayer_frees_every_context
    (E : GeometryEngine) (l poAreaLineLayer : OGRILI1Layer)
    (nAreaFieldIndex nPointFieldIndex : Z) :
  Forall (fun f => is_Some (GetGeometryRef f))
         (papoFeatures poAreaLineLayer) ->
  exists l' line' log,
    PolygonizeAreaLayer E l poAreaLineLayer nAreaFieldIndex nPointFieldIndex
    = Some (l', line', log)
    /\ count is_create log = count is_free log.
Proof.
  intros Hall. unfold PolygonizeAreaLayer.
  destruct (collect_lines_returns (S (nFeatures poAreaLineLayer))
              (ResetReading poAreaLineLayer) [])
    as [[line gc] Hc]; [unfold nFeatures; simpl; lia|exact Hall|].
  rewrite Hc. cbn [mbind option_bind].
  pose proof (polygonize_lines_balanced E l gc) as H1.
  destruct (polygonize_lines E l gc) as [[polys l1] log1].
  pose proof (associate_balanced E l1 polys nAreaFieldIndex nPointFieldIndex)
    as H2.
  destruct (associate E l1 polys nAreaFieldIndex nPointFieldIndex)
    as [l2 log2].
  eexists _, _, _. split; [done|]. by apply balanced_app.
Qed.

(** X14 at the area layer of the examples with its two boundary lines. *)
Lemma X14_witness_area_layer :
  exists l' line' log,
    PolygonizeAreaLayer Examples.engine Examples.area_layer
                        Examples.two_boundaries 1 2
    = Some (l', line', log)
    /\ count is_create log = count is_free log.
Proof.
  apply (X14_PolygonizeAreaLayer_frees_every_context Examples.engine
           Examples.area_layer Examples.two_boundaries 1 2).
  repeat constructor; by eexists.
Defined.

(** The handles of the polygons after the first loop of the association. *)
Definition handles (E : GeometryEngine) (polys : list OGRGeometry)
    : list (option OGRGeometry) :=
  (export_valid E polys).1.

Lemma first_within_found E point polys k i poly :
  polys !! i = Some poly ->
  GEOSisValid_r E poly = true -> GEOSWithin_r E point poly = true ->
  (forall j p, (j < i)%nat -> polys !! j = Some p ->
     GEOSisValid_r E p && GEOSWithin_r E point p = false) ->
  (first_within E point (zip polys (handles E polys)) k).1
  = Some ((k + i)%nat, poly).
Proof.
  unfold handles, export_valid. cbn [fst].
  revert k i. induction polys as [|p polys IH]; intros k i Hi Hv Hw Hbefore;
    [done|].
  destruct i as [|i].
  - injection Hi as ->. simpl. rewrite Hv, Hw. simpl. by rewrite Nat.add_0_r.
  - pose proof (Hbefore 0%nat p ltac:(lia) eq_refl) as Hp.
    specialize (IH (S k) i Hi Hv Hw).
    replace (S k + i)%nat with (k + S i)%nat in IH by lia.
    simpl. destruct (GEOSisValid_r E p); simpl in Hp.
    + rewrite Hp.
      destruct (first_within E point _ (S k)) as [r log] eqn:Hrest.
      simpl in *. apply IH.
      intros j q Hj Hq. apply (Hbefore (S j)); [lia|done].
    + apply IH. intros j q Hj Hq. apply (Hbefore (S j)); [lia|done].
Qed.

(** X15: a feature receives the first polygon, in the order of the
    multipolygon, that the engine finds valid and that contains the point
    of the feature: polygons the engine finds invalid are passed over,
    and so are valid polygons that do not contain the point. The polygon
    goes to the area field, the other fields of the feature are kept. *)
Theorem X15_feature_receives_first_valid_polygon_around_its_point
    (E : GeometryEngine) (polys : list OGRGeometry)
    (nAreaFieldIndex nPointFieldIndex : Z) (feature : OGRFeature)
    (geomRef : OGRGeometry) (i : nat) (poly : OGRGeometry) :
  GetGeomFieldRef feature nPointFieldIndex = Some geomRef ->
  polys !! i = Some poly ->
  GEOSisValid_r E poly = true -> GEOSWithin_r E geomRef poly = true ->
  (forall j p, (j < i)%nat -> polys !! j = Some p ->
     GEOSisValid_r E p && GEOSWithin_r E geomRef p = false) ->
  (associate_feature E polys (handles E polys) nAreaFieldIndex
                     nPointFieldIndex feature).1
  = SetGeomField feature nAreaFieldIndex poly.
Proof.
  intros Hpoint Hi Hv Hw Hbefore. unfold associate_feature. rewrite Hpoint.
  pose proof (first_within_found E geomRef polys 0 i poly Hi Hv Hw Hbefore)
    as Hfound.
  destruct (first_within E geomRef _ 0) as [r log]. simpl in Hfound.
  by rewrite Hfound.
Qed.

(** X15 at a feature whose point lies in the second of two squares. *)
Lemma X15_witness_second_square :
  (associate_feature Examples.engine
     [GeomPolygon true [Examples.square_B];
      GeomPolygon true [Examples.square_A]]
     (handles Examples.engine
        [GeomPolygon true [Examples.square_B];
         GeomPolygon true [Examples.square_A]])
     1 2 Examples.zone_inside).1
  = SetGeomField Examples.zone_inside 1 (GeomPolygon true [Examples.square_A]).
Proof.
  apply (X15_feature_receives_first_valid_polygon_around_its_point
           Examples.engine _ 1 2 Examples.zone_inside
           (GeomPoint (Examples.pt 0.5 0.5)) 1).
  - reflexivity.
  - reflexivity.
  - reflexivity.
  - reflexivity.
  - intros [|j] p Hj Hp; [|lia]. injection Hp as <-. reflexivity.
Defined.

(** Two features with the same FID, the same attributes and as many
    geometry fields. *)
Definition same_attributes (f f' : OGRFeature) : Prop :=
  GetFID f' = GetFID f
  /\ GetFieldAsString f' = GetFieldAsString f
  /\ GetFieldAsInteger64 f' = GetFieldAsInteger64 f
  /\ length (geomFields f') = length (geomFields f).

Lemma SetGeomField_same_attributes f iField g :
  same_attributes f (SetGeomField f iField g).
Proof.
  unfold SetGeomField. destruct (0 <=? iField); [|done].
  unfold same_attributes. simpl. by rewrite length_insert.
Qed.

(** What the association does to one feature. *)
Definition associated (nPointFieldIndex : Z) (f f' : OGRFeature) : Prop :=
  same_attributes f f'
  /\ (GetGeomFieldRef f nPointFieldIndex = None -> f' = f).

Lemma associate_feature_associated E polys ahInGeoms iArea iPoint feature :
  associated iPoint feature
    (associate_feature E polys ahInGeoms iArea iPoint feature).1.
Proof.
  unfold associate_feature, associated.
  destruct (GetGeomFieldRef feature iPoint) as [geomRef|]; [|done].
  destruct (first_within E geomRef (zip polys ahInGeoms) 0)
    as [[[i poly]|] log]; simpl;
    (split; [apply SetGeomField_same_attributes|done]).
Qed.

Lemma associate_loop_associated E polys ahInGeoms iArea iPoint features :
  Forall2 (associated iPoint) features
          (associate_loop E polys ahInGeoms iArea iPoint features).1.
Proof.
  induction features as [|feature rest IH]; simpl; [constructor|].
  pose proof (associate_feature_associated E polys ahInGeoms iArea iPoint
                feature) as Hfeature.
  destruct (associate_feature E polys ahInGeoms iArea iPoint feature).
  destruct (associate_loop E polys ahInGeoms iArea iPoint rest).
  simpl in *. by constructor.
Qed.

Lemma GetFeatureCount_features l :
  papoFeatures (GetFeatureCount l).2 = papoFeatures l
  /\ poFeatureDefn (GetFeatureCount l).2 = poFeatureDefn l.
Proof.
  unfold GetFeatureCount.
  by destruct (m_poFilterGeom l), (m_poAttrQuery l).
Qed.

Lemma polygonize_lines_features E l gc :
  papoFeatures (polygonize_lines E l gc).1.2 = papoFeatures l
  /\ poFeatureDefn (polygonize_lines E l gc).1.2 = poFeatureDefn l.
Proof.
  unfold polygonize_lines.
  destruct (Polygonize E gc false) as [polys log1].
  pose proof (GetFeatureCount_features l) as [H1 H1'].
  destruct (GetFeatureCount l) as [n l1]. simpl in H1, H1'.
  destruct (negb _); [|done].
  pose proof (GetFeatureCount_features l1) as [H2 H2'].
  destruct (GetFeatureCount l1) as [n2 l2]. simpl in H2, H2'.
  destruct (Polygonize E gc true) as [polys2 log2]. simpl.
  split; congruence.
Qed.

Lemma collect_lines_features fuel line gc line' gc' :
  collect_lines fuel line gc = Some (line', gc') ->
  papoFeatures line' = papoFeatures line.
Proof.
  revert line gc. induction fuel as [|fuel IH]; intros line gc; [done|].
  simpl. unfold GetNextFeatureRef.
  destruct (papoFeatures line !! nFeatureIdx line) as [f|];
    [|by intros [= <- <-]].
  destruct (passes_filters line f); [|by intros [= <- <-]].
  intros Hrec. apply bind_Some in Hrec as (g & _ & Hrec).
  by apply IH in Hrec.
Qed.

(** X16: [PolygonizeAreaLayer] writes geometry fields and nothing else.
    When it returns, the layer has the features it had, in their order,
    each with its FID, its attributes and the number of its geometry
    fields; a feature without a geometry in the point field is left as it
    was; the definition of the layer is the same and the line layer has
    the features it had. *)
Theorem X16_PolygonizeAreaLayer_keeps_features_and_attributes
    (E : GeometryEngine) (l poAreaLineLayer : OGRILI1Layer)
    (nAreaFieldIndex nPointFieldIndex : Z) (l' line' : OGRILI1Layer)
    (log : list Event) :
  PolygonizeAreaLayer E l poAreaLineLayer nAreaFieldIndex nPointFieldIndex
  = Some (l', line', log) ->
  poFeatureDefn l' = poFeatureDefn l
  /\ papoFeatures line' = papoFeatures poAreaLineLayer
  /\ Forall2 (associated nPointFieldIndex) (papoFeatures l) (papoFeatures l').
Proof.
  unfold PolygonizeAreaLayer. intros Hres.
  apply bind_Some in Hres as ([line gc] & Hcollect & Hres).
  apply collect_lines_features in Hcollect.
  pose proof (polygonize_lines_features E l gc) as [Hfs Hdefn].
  destruct (polygonize_lines E l gc) as [[polys l1] log1].
  simpl in Hfs, Hdefn. unfold associate in Hres.
  destruct (HAVE_GEOS E).
  - destruct (export_valid E (members polys)) as [ahInGeoms log2].
    pose proof (associate_loop_associated E (members polys) ahInGeoms
                  nAreaFieldIndex nPointFieldIndex (papoFeatures l1)) as Hloop.
    destruct (associate_loop _ _ _ _ _ _) as [features log3].
    injection Hres as <- <- <-. simpl in *.
    split; [done|]. split; [done|]. by rewrite <- Hfs.
  - injection Hres as <- <- <-.
    split; [done|]. split; [done|]. rewrite Hfs.
    apply Forall2_same_length_lookup. split; [done|].
    intros i x y Hx Hy. assert (x = y) as -> by congruence. done.
Qed.

(** X16 at the area layer of the examples with its two boundary lines. *)
Lemma X16_witness_area_layer :
  exists l' line' log,
    PolygonizeAreaLayer Examples.engine Examples.area_layer
                        Examples.two_boundaries 1 2
    = Some (l', line', log)
    /\ poFeatureDefn l' = poFeatureDefn Examples.area_layer
    /\ papoFeatures line' = papoFeatures Examples.two_boundaries
    /\ Forall2 (associated 2) (papoFeatures Examples.area_layer)
               (papoFeatures l').
Proof.
  eexists _, _, _. split; [reflexivity|].
  eapply (X16_PolygonizeAreaLayer_keeps_features_and_attributes
            Examples.engine Examples.area_layer Examples.two_boundaries 1 2).
  reflexivity.
Defined.

(** X17: compiled without the geometry engine, [PolygonizeAreaLayer]
    leaves every feature of the layer as it is and makes no call into
    the engine; [Polygonize] finds no polygon, so that it is called a
    second time, with the crossing line fix, as soon as the layer counts
    a feature. *)
Theorem X17_without_engine_no_feature_is_changed
    (E : GeometryEngine) (l poAreaLineLayer : OGRILI1Layer)
    (nAreaFieldIndex nPointFieldIndex : Z) :
  HAVE_GEOS E = false ->
  Forall (fun f => is_Some (GetGeometryRef f))
         (papoFeatures poAreaLineLayer) ->
  exists l' line' log,
    PolygonizeAreaLayer E l poAreaLineLayer nAreaFieldIndex nPointFieldIndex
    = Some (l', line', log)
    /\ papoFeatures l' = papoFeatures l
    /\ List.filter is_engine_call log = []
    /\ polygonize_calls log
       = if (GetFeatureCount l).1 =? 0 then [false] else [false; true].
Proof.
  intros Hgeos Hall. unfold PolygonizeAreaLayer.
  destruct (collect_lines_returns (S (nFeatures poAreaLineLayer))
              (ResetReading poAreaLineLayer) [])
    as [[line gc] Hc]; [unfold nFeatures; simpl; lia|exact Hall|].
  rewrite Hc. cbn [mbind option_bind].
  assert (forall fix_crossing_lines,
            Polygonize E gc fix_crossing_lines
            = (empty_MultiPolygon, [CallPolygonize fix_crossing_lines]))
    as Hpoly.
  { intros b. unfold Polygonize. rewrite Hgeos. by destruct (_ =? _)%nat. }
  unfold polygonize_lines, associate. rewrite !Hpoly, Hgeos.
  pose proof (GetFeatureCount_features l) as [H1 _].
  destruct (GetFeatureCount l) as [n l1]. simpl in H1.
  change (Z.of_nat (length (members empty_MultiPolygon))) with 0.
  rewrite (Z.eqb_sym 0 n). cbn [fst].
  destruct (n =? 0); cbn [negb].
  - eexists _, _, _. split; [done|]. by split.
  - pose proof (GetFeatureCount_features l1) as [H2 _].
    destruct (GetFeatureCount l1) as [n2 l2]. simpl in H2.
    eexists _, _, _. split; [done|]. split; [congruence|]. by split.
Qed.

(** X17 at the area layer of the examples, without the engine. *)
Lemma X17_witness_without_geos :
  exists l' line' log,
    PolygonizeAreaLayer Examples.engine_without_geos Examples.area_layer
                        Examples.two_boundaries 1 2
    = Some (l', line', log)
    /\ papoFeatures l' = papoFeatures Examples.area_layer
    /\ List.filter is_engine_call log = []
    /\ polygonize_calls log
       = if (GetFeatureCount Examples.area_layer).1 =? 0
         then [false] else [false; true].
Proof.
  apply (X17_without_engine_no_feature_is_changed Examples.engine_without_geos
           Examples.area_layer Examples.two_boundaries 1 2).
  - reflexivity.
  - repeat constructor; by eexists.
Defined.

(** X18: the count [GetFeatureCount] returns is the number of features a
    client receives that reads the layer through, once the geometries
    are joined; without filters this is the shortcut [nFeatures]. *)
Theorem X18_GetFeatureCount_counts_what_a_full_read_yields
    (E : GeometryEngine) (infos : list (string * Read.GeomFieldInfo))
    (l : OGRILI1Layer) :
  bGeomsJoined l = true ->
  exists features,
    ReadMore.read_all E infos (S (nFeatures l)) (ResetReading l)
    = Some features
    /\ (GetFeatureCount l).1 = Z.of_nat (length features).
Proof.
  intros Hj. eexists. split.
  { rewrite ReadMore.read_all_from; [done|done|..].
    - simpl. lia.
    - unfold nFeatures. simpl. lia. }
  simpl. rewrite drop_0. unfold GetFeatureCount.
  destruct (m_poFilterGeom l) eqn:Hg; [done|].
  destruct (m_poAttrQuery l) eqn:Ha; [done|]. simpl.
  f_equal. unfold nFeatures.
  assert (forall fs, List.filter (passes_filters l) fs = fs) as ->; [|done].
  induction fs as [|f fs IH]; [done|]. simpl.
  by rewrite (ReadMore.passes_unfiltered l f Hg Ha), IH.
Qed.

Lemma X18_witness_filtered_layer :
  exists features,
    ReadMore.read_all Examples.engine []
      (S (nFeatures (set_bGeomsJoined Examples.filtered_layer true)))
      (ResetReading (set_bGeomsJoined Examples.filtered_layer true))
    = Some features
    /\ (GetFeatureCount (set_bGeomsJoined Examples.filtered_layer true)).1
       = Z.of_nat (length features).
Proof.
  apply (X18_GetFeatureCount_counts_what_a_full_read_yields Examples.engine
           [] (set_bGeomsJoined Examples.filtered_layer true)).
  reflexivity.
Defined.

End AreaMore.

(** * Properties of the coordinate translations (geo_trans.c) *)

Module GeoTransFacts.

Import GeoTrans.

(** The count [gt_methods.get] delivers for a tag, 0 when it fails. *)
Definition count (tag : option (list float)) : Z := (get tag).1.

(** The six entries of the transformation matrix that [GTIFPCSToImage]
    copies into [gt_in]. *)
Definition gt_in (gtif : GTIF) : option GeoTransform :=
  transform ← GTIFF_TRANSMATRIX gtif;
  t0 ← transform !! 0%nat; t1 ← transform !! 1%nat;
  t3 ← transform !! 3%nat; t4 ← transform !! 4%nat;
  t5 ← transform !! 5%nat; t7 ← transform !! 7%nat;
  Some (mkGT t0 t1 t3 t4 t5 t7).

Lemma get_read tag n data i :
  get tag = (n, data) -> Z.of_nat i < n -> is_Some (data !! i).
Proof.
  destruct tag as [d|]; simpl; intros [= <- <-] Hi; [|lia].
  apply lookup_lt_is_Some_2. lia.
Qed.

Lemma get_data tag n data :
  get tag = (n, data) -> 0 < n -> tag = Some data.
Proof. destruct tag as [d|]; simpl; intros [= <- <-] Hn; [done|lia]. Qed.

Ltac read Hget i :=
  let v := fresh "v" in
  let Hv := fresh "Hv" in
  destruct (get_read _ _ _ i Hget) as [v Hv]; [lia|];
  rewrite ?Hv; cbn [mbind option_bind].

(** X19: [GTIFImageToPCS] reads no array outside its bounds, whatever the
    three tags hold. It returns TRUE exactly when the file is not in the
    tiepoints-only form (more than six tiepoint values and no pixel
    scale) and has either a transformation matrix of 16 values or at
    least three pixel scale values with at least six tiepoint values;
    when it returns FALSE, [x] and [y] are as they were. *)
Theorem X19_GTIFImageToPCS_succeeds_exactly_on_supported_forms
    (gtif : GTIF) (x y : float) :
  exists res x' y',
    GTIFImageToPCS gtif x y = Some (res, x', y')
    /\ (res = true <->
        ~ (6 < count (GTIFF_TIEPOINTS gtif)
           /\ count (GTIFF_PIXELSCALE gtif) = 0)
        /\ (count (GTIFF_TRANSMATRIX gtif) = 16
            \/ (3 <= count (GTIFF_PIXELSCALE gtif)
                /\ 6 <= count (GTIFF_TIEPOINTS gtif))))
    /\ (res = false -> x' = x /\ y' = y).
Proof.
  unfold GTIFImageToPCS, count.
  destruct (get (GTIFF_TIEPOINTS gtif)) as [tc tiepoints] eqn:Htp.
  destruct (get (GTIFF_PIXELSCALE gtif)) as [c pixel_scale] eqn:Hps.
  destruct (get (GTIFF_TRANSMATRIX gtif)) as [trc transform] eqn:Htr.
  cbn [fst].
  destruct ((6 <? tc) && (c =? 0)) eqn:Honly.
  { eexists _, _, _. split; [done|]. split; [|done].
    split; [done|]. intros [Hn _]. lia. }
  destruct (trc =? 16) eqn:Hmatrix.
  { read Htr 0%nat. read Htr 1%nat. read Htr 3%nat. read Htr 4%nat.
    read Htr 5%nat. read Htr 7%nat.
    eexists _, _, _. split; [done|]. split; [|done].
    split; [|done]. intros _. split; lia. }
  destruct ((c <? 3) || (tc <? 6)) eqn:Hscale.
  { eexists _, _, _. split; [done|]. split; [|done].
    split; [done|]. intros [_ H]. lia. }
  read Htp 0%nat. read Htp 1%nat. read Htp 3%nat. read Htp 4%nat.
  read Hps 0%nat. read Hps 1%nat.
  eexists _, _, _. split; [done|]. split; [|done].
  split; [|done]. intros _. split; lia.
Qed.

(** X20: [GTIFPCSToImage] reads no array outside its bounds. It returns
    TRUE exactly when the file is not in the tiepoints-only form and
    either has a transformation matrix of 16 values whose determinant does
    not test as smaller in magnitude than 1e-15, or has no such matrix and
    at least three pixel scale values with at least six tiepoint values;
    when it returns FALSE, [x] and [y] are as they were. *)
Theorem X20_GTIFPCSToImage_succeeds_exactly_on_invertible_forms
    (gtif : GTIF) (x y : float) :
  exists res x' y',
    GTIFPCSToImage gtif x y = Some (res, x', y')
    /\ (res = true <->
        ~ (6 < count (GTIFF_TIEPOINTS gtif)
           /\ count (GTIFF_PIXELSCALE gtif) = 0)
        /\ ((count (GTIFF_TRANSMATRIX gtif) = 16
             /\ exists gt, gt_in gtif = Some gt
                  /\ (abs (det gt) <? det_eps)%float = false)
            \/ (count (GTIFF_TRANSMATRIX gtif) <> 16
                /\ 3 <= count (GTIFF_PIXELSCALE gtif)
                /\ 6 <= count (GTIFF_TIEPOINTS gtif))))
    /\ (res = false -> x' = x /\ y' = y).
Proof.
  unfold GTIFPCSToImage, count, gt_in.
  destruct (get (GTIFF_TIEPOINTS gtif)) as [tc tiepoints] eqn:Htp.
  destruct (get (GTIFF_PIXELSCALE gtif)) as [c pixel_scale] eqn:Hps.
  destruct (get (GTIFF_TRANSMATRIX gtif)) as [trc transform] eqn:Htr.
  cbn [fst].
  destruct ((6 <? tc) && (c =? 0)) eqn:Honly.
  { eexists _, _, _. split; [done|]. split; [|done].
    split; [done|]. intros [Hn _]. lia. }
  destruct (trc =? 16) eqn:Hmatrix.
  { rewrite (get_data _ _ _ Htr) by lia. cbn [mbind option_bind].
    read Htr 0%nat. read Htr 1%nat. read Htr 3%nat. read Htr 4%nat.
    read Htr 5%nat. read Htr 7%nat.
    unfold inv_geotransform.
    destruct (abs (det (mkGT v v0 v1 v2 v3 v4)) <? det_eps)%float eqn:Hdet.
    - eexists _, _, _. split; [done|]. split; [|done].
      split; [done|]. intros [_ [[_ (gt & [= <-] & Hgt)]|[Hne _]]]; [|lia].
      congruence.
    - eexists _, _, _. split; [done|]. split; [|done].
      split; [|done]. intros _. split; [lia|]. left. split; [lia|]. eauto. }
  destruct ((3 <=? c) && (6 <=? tc)) eqn:Hscale.
  2:{ eexists _, _, _. split; [done|]. split; [|done].
      split; [done|]. intros [_ [[H _]|[_ H]]]; lia. }
  read Htp 0%nat. read Htp 1%nat. read Htp 3%nat. read Htp 4%nat.
  read Hps 0%nat. read Hps 1%nat.
  eexists _, _, _. split; [done|]. split; [|done].
  split; [|done]. intros _. split; [lia|]. right. lia.
Qed.

(** X21: a file on which [GTIFPCSToImage] succeeds for some coordinates
    is a file on which [GTIFImageToPCS] succeeds for all coordinates: the
    forward translation is defined wherever the inverse one is. *)
Theorem X21_forward_translation_defined_where_inverse_is
    (gtif : GTIF) (x y x' y' u v : float) :
  GTIFPCSToImage gtif x y = Some (true, x', y') ->
  exists u' v', GTIFImageToPCS gtif u v = Some (true, u', v').
Proof.
  unfold GTIFPCSToImage, GTIFImageToPCS.
  destruct (get (GTIFF_TIEPOINTS gtif)) as [tc tiepoints] eqn:Htp.
  destruct (get (GTIFF_PIXELSCALE gtif)) as [c pixel_scale] eqn:Hps.
  destruct (get (GTIFF_TRANSMATRIX gtif)) as [trc transform] eqn:Htr.
  destruct ((6 <? tc) && (c =? 0)) eqn:Honly; [done|].
  destruct (trc =? 16) eqn:Hmatrix.
  { read Htr 0%nat. read Htr 1%nat. read Htr 3%nat. read Htr 4%nat.
    read Htr 5%nat. read Htr 7%nat. eauto. }
  destruct ((3 <=? c) && (6 <=? tc)) eqn:Hscale; [|done].
  assert (((c <? 3) || (tc <? 6)) = false) as -> by lia.
  read Htp 0%nat. read Htp 1%nat. read Htp 3%nat. read Htp 4%nat.
  read Hps 0%nat. read Hps 1%nat. eauto.
Qed.

(** A north-up image with its upper left corner at (100, 200) and pixels
    of 2 by 2. *)
Definition north_up : GTIF :=
  mkGTIF (Some [0; 0; 0; 100; 200; 0]%float) (Some [2; 2; 0]%float) None.

Lemma X21_witness_north_up :
  exists u' v', GTIFImageToPCS north_up 2 2 = Some (true, u', v').
Proof.
  apply (X21_forward_translation_defined_where_inverse_is north_up 104 196
           2 2 2 2).
  reflexivity.
Defined.

Lemma SF_nan f : Prim2SF f = S754_nan -> f = nan.
Proof.
  intros Hf. rewrite <- (SF2Prim_Prim2SF f), Hf. reflexivity.
Qed.

Lemma mul_nan_r a b : b = nan -> (a * b)%float = nan.
Proof.
  intros ->. apply SF_nan. rewrite mul_spec.
  unfold SF64mul, SFmul. by destruct (Prim2SF a).
Qed.

Lemma add_nan_l a b : a = nan -> (a + b)%float = nan.
Proof. intros ->. apply SF_nan. by rewrite add_spec. Qed.

Lemma add_nan_r a b : b = nan -> (a + b)%float = nan.
Proof.
  intros ->. apply SF_nan. rewrite add_spec.
  unfold SF64add, SFadd. by destruct (Prim2SF a).
Qed.

Lemma div_nan_r a b : b = nan -> (a / b)%float = nan.
Proof.
  intros ->. apply SF_nan. rewrite div_spec.
  unfold SF64div, SFdiv. by destruct (Prim2SF a).
Qed.

(** X22: the singularity test [fabs(det) < 1e-15] does not hold of a
    determinant that is not a number. With a transformation matrix of 16
    values whose determinant is a NaN, and a file not in the
    tiepoints-only form, [GTIFPCSToImage] returns TRUE and leaves a NaN
    in [x] and in [y]. *)
Theorem X22_GTIFPCSToImage_accepts_a_nan_determinant
    (gtif : GTIF) (gt : GeoTransform) (x y : float) :
  ~ (6 < count (GTIFF_TIEPOINTS gtif) /\ count (GTIFF_PIXELSCALE gtif) = 0) ->
  count (GTIFF_TRANSMATRIX gtif) = 16 ->
  gt_in gtif = Some gt ->
  det gt = nan ->
  GTIFPCSToImage gtif x y = Some (true, nan, nan).
Proof.
  unfold GTIFPCSToImage, count, gt_in.
  destruct (get (GTIFF_TIEPOINTS gtif)) as [tc tiepoints] eqn:Htp.
  destruct (get (GTIFF_PIXELSCALE gtif)) as [c pixel_scale] eqn:Hps.
  destruct (get (GTIFF_TRANSMATRIX gtif)) as [trc transform] eqn:Htr.
  cbn [fst]. intros Honly Hcount Hgt Hdet.
  assert (((6 <? tc) && (c =? 0)) = false) as -> by lia.
  assert ((trc =? 16) = true) as -> by lia.
  rewrite (get_data _ _ _ Htr) in Hgt by lia. cbn [mbind option_bind] in Hgt.
  destruct (transform !! 0%nat) as [t0|]; [|done].
  destruct (transform !! 1%nat) as [t1|]; [|done].
  destruct (transform !! 3%nat) as [t3|]; [|done].
  destruct (transform !! 4%nat) as [t4|]; [|done].
  destruct (transform !! 5%nat) as [t5|]; [|done].
  destruct (transform !! 7%nat) as [t7|]; [|done].
  cbn [mbind option_bind] in *. injection Hgt as <-.
  unfold inv_geotransform. rewrite Hdet.
  change (abs nan <? det_eps)%float with false. cbn [gt0 gt1 gt2 gt3 gt4 gt5].
  assert ((1 / nan)%float = nan) as -> by reflexivity.
  do 2 f_equal.
  - f_equal. apply add_nan_r. by apply mul_nan_r.
  - apply add_nan_r. by apply mul_nan_r.
Qed.

(** A matrix with an entry that is not a number. *)
Definition nan_matrix : GTIF :=
  mkGTIF None None
         (Some [nan; 0; 0; 0; 0; 1; 0; 0; 0; 0; 1; 0; 0; 0; 0; 1]%float).

Lemma X22_witness_nan_matrix :
  GTIFPCSToImage nan_matrix 10 20 = Some (true, nan, nan).
Proof.
  apply (X22_GTIFPCSToImage_accepts_a_nan_determinant nan_matrix
           (mkGT nan 0 0 0 1 0) 10 20).
  - intros [H _]. vm_compute in H. discriminate H.
  - reflexivity.
  - reflexivity.
  - reflexivity.
Defined.

End GeoTransFacts.

(** * Properties of the writer *)

Module WriteFacts.

Import Stdlib.Strings.Ascii.
Import Write.

(** Induction on a geometry and, for a collection, on its members. *)
Lemma OGRGeometry_members_ind (P : OGRGeometry -> Prop) :
  (forall p, P (GeomPoint p)) ->
  (forall c, P (GeomCurve c)) ->
  (forall linear rings, P (GeomPolygon linear rings)) ->
  (forall cls ms, Forall P ms -> P (GeomCollection cls ms)) ->
  forall g, P g.
Proof.
  intros Hpoint Hcurve Hpolygon Hcollection. fix IH 1.
  intros [p|c|linear rings|cls ms]; [done..|].
  apply Hcollection. induction ms as [|m ms IHms]; constructor; [apply IH|done].
Qed.

(** The curves [GeometryAppend] writes: line strings, linear rings and
    compound curves without M. *)
Definition curve_writable (W : Externals) (c : OGRCurve) : bool :=
  negb (wkbHasM W (GeomCurve c))
  && match c with
     | SimpleCurve poLine =>
         match scType poLine with
         | scLineString => true
         | scCircularString => false
         end
     | CompoundCurve _ => true
     end.

(** The geometries [GeometryAppend] writes: points, line strings,
    polygons of such rings and compound curves, all without M, and the
    collections other than multi surfaces whose members are of this
    kind. *)
Fixpoint writable (W : Externals) (g : OGRGeometry) : bool :=
  match g with
  | GeomPoint _ => negb (wkbHasM W g)
  | GeomCurve c => curve_writable W c
  | GeomPolygon linear rings =>
      linear && negb (wkbHasM W g) && forallb (curve_writable W) rings
  | GeomCollection cls ms =>
      match cls with
      | MultiSurface => false
      | _ => forallb (writable W) ms
      end
  end.

(** What a call that returns [ok] has reported. *)
Definition reports (ok : bool) (r : Appended) : Prop :=
  r.1.1 = ok /\ length r.2 = if ok then 0%nat else 1%nat.

Lemma append_each_reports {A} (append : A -> Appended) (ok : A -> bool) l :
  Forall (fun x => reports (ok x) (append x)) l ->
  reports (forallb ok l) (append_each append l).
Proof.
  induction 1 as [|x l [Hok Hw] _ IH]; [done|].
  cbn [append_each forallb].
  destruct (append x) as [[b out] w]. simpl in Hok, Hw. subst b.
  destruct (ok x); [|done]. destruct IH as [Hok' Hw'].
  destruct (append_each append l) as [[b' out'] w']. simpl in *.
  split; [done|]. simpl. rewrite length_app, Hw, Hw'. done.
Qed.

Lemma AppendCurve_reports W c :
  reports (curve_writable W c) (AppendCurve W c).
Proof.
  unfold AppendCurve, curve_writable.
  destruct (wkbHasM W (GeomCurve c)); [done|].
  destruct c as [poLine|poCC]; [|done]. by destruct (scType poLine).
Qed.

(** X23: [GeometryAppend] returns TRUE exactly on the geometries made of
    points, line strings, polygons with linear rings and compound
    curves, all without M, and of collections of these other than multi
    surfaces; it reports nothing when it returns TRUE and exactly one
    "Skipping unknown geometry type" when it returns FALSE, however many
    parts of the geometry it cannot write. *)
Theorem X23_GeometryAppend_fails_with_one_warning_exactly_on_unknown_parts
    (W : Externals) (poGeometry : OGRGeometry) :
  exists out warnings,
    GeometryAppend W poGeometry = (writable W poGeometry, out, warnings)
    /\ length warnings = if writable W poGeometry then 0%nat else 1%nat.
Proof.
  enough (reports (writable W poGeometry) (GeometryAppend W poGeometry))
    as Hreports.
  { destruct (GeometryAppend W poGeometry) as [[ok out] w].
    destruct Hreports as [Hok Hw]. simpl in *. subst ok. by exists out, w. }
  induction poGeometry as [p|c|linear rings|cls ms IH]
    using OGRGeometry_members_ind.
  - simpl. by destruct (wkbHasM W _).
  - apply AppendCurve_reports.
  - cbn [GeometryAppend writable].
    destruct (linear && negb (wkbHasM W _)); [|done].
    apply append_each_reports, Forall_forall.
    intros c _. apply AppendCurve_reports.
  - destruct cls; try done; cbn [GeometryAppend writable];
      by apply append_each_reports.
Qed.

(** An environment for geometries without Z and M, features with all
    their fields set, strings that need no recoding, and a [long] of 64
    bits. *)
Definition plain : Externals :=
  mkExternals (fun _ => false) (fun _ => false) (fun _ => 0%float)
              (fun _ _ => true) (fun s => s) true.




Lemma member_loop_alone W b3D getNumPoints iPoint points :
  member_loop W b3D false 0 1 getNumPoints iPoint points
  = coordinate_loop W b3D iPoint points.
Proof.
  revert iPoint. induction points as [|p rest IH]; intros iPoint; [done|].
  cbn [member_loop coordinate_loop]. rewrite IH.
  change (0 <? 1 - 1) with false. rewrite andb_false_r.
  change (0 =? 0) with true. cbn [andb app]. done.
Qed.

(** X25: a compound curve of one line string is written as the line
    string itself: [AppendCompoundCurve] prints for it what
    [AppendCoordinateList] prints for its member. *)
Theorem X25_compound_curve_of_one_line_string_written_as_the_line
    (W : Externals) (poLine : OGRSimpleCurve) :
  scType poLine = scLineString ->
  AppendCompoundCurve W [poLine] = AppendCoordinateList W poLine.
Proof.
  intros Htype. unfold AppendCompoundCurve, AppendCoordinateList, bIsArc.
  cbn [curves_loop length]. unfold bIsArc. rewrite Htype.
  change (Z.of_nat 1) with 1. rewrite member_loop_alone, app_nil_r. done.
Qed.

Lemma X25_witness_square :
  AppendCompoundCurve plain
    [mkSimpleCurve scLineString (Examples.curve_points Examples.square_A)]
  = AppendCoordinateList plain
      (mkSimpleCurve scLineString (Examples.curve_points Examples.square_A)).
Proof.
  apply (X25_compound_curve_of_one_line_string_written_as_the_line plain
           (mkSimpleCurve scLineString
              (Examples.curve_points Examples.square_A))).
  reflexivity.
Defined.

(** The records of coordinates among what is printed, by their tags. *)
Definition is_tag (item : Printed) : bool :=
  match item with
  | Text text =>
      String.eqb text "STPT" || String.eqb text "LIPT"
      || String.eqb text "ARCP"
  | _ => false
  end.

Definition tags (out : list Printed) : list Printed := List.filter is_tag out.

Lemma tags_app out1 out2 : tags (out1 ++ out2) = tags out1 ++ tags out2.
Proof. apply List.filter_app. Qed.

Lemma tags_coordinates W b3D p : tags (coordinates W b3D p) = [].
Proof. unfold coordinates. by destruct b3D. Qed.

Lemma tags_record W b3D (b1 b2 : bool) p :
  tags (Text (if b1 then "STPT" else if b2 then "ARCP" else "LIPT")
          :: coordinates W b3D p)
  = [Text (if b1 then "STPT" else if b2 then "ARCP" else "LIPT")].
Proof.
  unfold tags. cbn [List.filter].
  fold (tags (coordinates W b3D p)). rewrite tags_coordinates.
  by destruct b1, b2.
Qed.

(** The records of one member: all its points when it is the last
    member, all but the last point otherwise. *)
Lemma member_loop_records W b3D isArc iMember getNumCurves n iPoint points :
  0 <= iPoint -> n = iPoint + Z.of_nat (length points) ->
  length (tags (member_loop W b3D isArc iMember getNumCurves n iPoint points))
  = if iMember <? getNumCurves - 1 then (length points - 1)%nat
    else length points.
Proof.
  revert iPoint. induction points as [|p rest IH]; intros iPoint Hpos Hn.
  { simpl. by destruct (_ <? _). }
  cbn [member_loop]. rewrite tags_app, length_app.
  rewrite IH by (simpl in Hn; lia).
  destruct (iMember <? getNumCurves - 1) eqn:Hlast.
  - rewrite andb_true_r. destruct (iPoint =? n - 1) eqn:Hend.
    + simpl in Hn. assert (rest = []) as ->.
      { destruct rest; [done|]. simpl in Hn. lia. }
      done.
    + rewrite tags_record. simpl in *.
      destruct rest; [simpl in Hn; lia|]. simpl. lia.
  - rewrite andb_false_r, tags_record. simpl. lia.
Qed.

Lemma curves_loop_records W getNumCurves iMember curves :
  0 <= iMember -> getNumCurves = iMember + Z.of_nat (length curves) ->
  (length (tags (curves_loop W getNumCurves iMember curves))
   + length (List.filter (fun m => negb (sc_IsEmpty m)) (removelast curves))
   = length (concat (paoPoints <$> curves)))%nat.
Proof.
  revert iMember. induction curves as [|poLine rest IH]; intros iMember Hpos Hn;
    [done|].
  cbn [curves_loop]. rewrite tags_app, length_app.
  rewrite member_loop_records by lia.
  specialize (IH (iMember + 1) ltac:(lia) ltac:(simpl in Hn; lia)).
  rewrite fmap_cons. cbn [concat]. rewrite length_app.
  destruct rest as [|next rest].
  - assert ((iMember <? getNumCurves - 1) = false) as ->.
    { simpl in Hn. lia. }
    simpl. lia.
  - assert ((iMember <? getNumCurves - 1) = true) as ->.
    { simpl in Hn. lia. }
    change (removelast (poLine :: next :: rest))
      with (poLine :: removelast (next :: rest)).
    cbn [List.filter]. unfold sc_IsEmpty at 1.
    destruct (paoPoints poLine) as [|p pts]; simpl in *; lia.
Qed.

(** X26: [AppendCompoundCurve] prints one record for each point of the
    compound curve but the last point of each member that has a
    successor, which the first point of the successor stands for. *)
Theorem X26_AppendCompoundCurve_prints_each_joint_once
    (W : Externals) (poCC : OGRCompoundCurve) :
  (length (tags (AppendCompoundCurve W poCC))
   + length (List.filter (fun m => negb (sc_IsEmpty m)) (removelast poCC))
   = length (concat (paoPoints <$> poCC)))%nat.
Proof.
  unfold AppendCompoundCurve. rewrite tags_app.
  change (tags [Text ("ELIN" +:+ LF)]) with (@nil Printed).
  rewrite app_nil_r. apply curves_loop_records; lia.
Qed.

(** The records tagged STPT among what is printed. *)
Definition is_STPT (item : Printed) : bool :=
  match item with
  | Text text => String.eqb text "STPT"
  | _ => false
  end.

Definition starts (out : list Printed) : nat :=
  length (List.filter is_STPT out).

Lemma starts_app out1 out2 :
  starts (out1 ++ out2) = (starts out1 + starts out2)%nat.
Proof. unfold starts. by rewrite List.filter_app, length_app. Qed.

Lemma starts_coordinates W b3D p : starts (coordinates W b3D p) = 0%nat.
Proof. unfold coordinates. by destruct b3D. Qed.

Lemma member_loop_no_start W b3D isArc iMember getNumCurves n iPoint points :
  0 <= iMember -> 0 <= iPoint -> 0 < iMember + iPoint ->
  starts (member_loop W b3D isArc iMember getNumCurves n iPoint points)
  = 0%nat.
Proof.
  revert iPoint. induction points as [|p rest IH]; intros iPoint Hm Hp Hpos;
    [done|].
  cbn [member_loop]. rewrite starts_app, IH by lia.
  destruct (_ && _); [done|].
  assert (((iMember =? 0) && (iPoint =? 0)) = false) as -> by lia.
  change (Text ?t :: coordinates W b3D p)
    with ([Text t] ++ coordinates W b3D p).
  rewrite starts_app, starts_coordinates. by destruct (_ && _).
Qed.

Lemma curves_loop_no_start W getNumCurves iMember curves :
  0 < iMember -> starts (curves_loop W getNumCurves iMember curves) = 0%nat.
Proof.
  revert iMember. induction curves as [|poLine rest IH]; intros iMember Hpos;
    [done|].
  cbn [curves_loop]. rewrite starts_app, IH by lia.
  by rewrite member_loop_no_start by lia.
Qed.

(** Whether the first point of a compound curve is printed: the curve
    has a first member with a point, and this point is not the last
    point of a member that has a successor. *)
Definition first_point_printed (poCC : OGRCompoundCurve) : bool :=
  match poCC with
  | [] => false
  | [poLine] => negb (sc_IsEmpty poLine)
  | poLine :: _ => (2 <=? length (paoPoints poLine))%nat
  end.

(** X27: [AppendCompoundCurve] tags at most one record STPT, the record
    of the first point of the first member. It does so when this member
    has at least two points, or has one point and no successor; a first
    member with a single point and a successor has its point left out as
    the last point of a member, and no record is tagged STPT. *)
Theorem X27_AppendCompoundCurve_tags_first_point_STPT
    (W : Externals) (poCC : OGRCompoundCurve) :
  starts (AppendCompoundCurve W poCC)
  = if first_point_printed poCC then 1%nat else 0%nat.
Proof.
  unfold AppendCompoundCurve. rewrite starts_app.
  change (starts [Text ("ELIN" +:+ LF)]) with 0%nat. rewrite Nat.add_0_r.
  destruct poCC as [|poLine rest]; [done|].
  cbn [curves_loop]. rewrite starts_app.
  rewrite (curves_loop_no_start W _ (0 + 1)) by lia. rewrite Nat.add_0_r.
  destruct (paoPoints poLine) as [|p points] eqn:Hpoints.
  { unfold first_point_printed, sc_IsEmpty. rewrite Hpoints.
    by destruct rest. }
  cbn [member_loop]. rewrite starts_app.
  rewrite member_loop_no_start by lia. rewrite Nat.add_0_r.
  unfold first_point_printed, sc_IsEmpty. rewrite Hpoints.
  cbn [Stitch.empty negb length].
  destruct rest as [|next rest].
  - match goal with
    | |- context [0 <? ?n] => assert ((0 <? n) = false) as -> by done
    end.
    rewrite andb_false_r. cbn [andb Z.eqb].
    change (Text "STPT" :: coordinates W ?b p)
      with ([Text "STPT"] ++ coordinates W b p).
    by rewrite starts_app, starts_coordinates.
  - match goal with
    | |- context [0 <? ?n] =>
        assert ((0 <? n) = true) as -> by (apply Z.ltb_lt; simpl length; lia)
    end.
    rewrite andb_true_r.
    destruct points as [|q points].
    + done.
    + match goal with
      | |- context [0 =? ?n] =>
          assert ((0 =? n) = false) as -> by (apply Z.eqb_neq; simpl length; lia)
      end.
      cbn [andb Z.eqb].
      change (Text "STPT" :: coordinates W ?b p)
        with ([Text "STPT"] ++ coordinates W b p).
      by rewrite starts_app, starts_coordinates.
Qed.

(** The generated TIDs among what is printed. *)
Definition tids (out : list Printed) : list Z :=
  omap (fun item => match item with Long tid => Some tid | _ => None end) out.

Lemma tids_app out1 out2 : tids (out1 ++ out2) = tids out1 ++ tids out2.
Proof. apply omap_app. Qed.

Lemma tids_coordinates W b3D p : tids (coordinates W b3D p) = [].
Proof. unfold coordinates. by destruct b3D. Qed.

Lemma tids_coordinate_loop W b3D iPoint points :
  tids (coordinate_loop W b3D iPoint points) = [].
Proof.
  revert iPoint. induction points as [|p rest IH]; intros iPoint; [done|].
  cbn [coordinate_loop].
  change (Text ?t :: ?l) with ([Text t] ++ l).
  by rewrite !tids_app, tids_coordinates, IH.
Qed.

Lemma tids_member_loop W b3D isArc iMember getNumCurves n iPoint points :
  tids (member_loop W b3D isArc iMember getNumCurves n iPoint points) = [].
Proof.
  revert iPoint. induction points as [|p rest IH]; intros iPoint; [done|].
  cbn [member_loop]. rewrite tids_app, IH.
  destruct (_ && _); [done|].
  change (Text ?t :: ?l) with ([Text t] ++ l).
  by rewrite tids_app, tids_coordinates.
Qed.

Lemma tids_curves_loop W getNumCurves iMember curves :
  tids (curves_loop W getNumCurves iMember curves) = [].
Proof.
  revert iMember. induction curves as [|poLine rest IH]; intros iMember;
    [done|].
  cbn [curves_loop]. by rewrite tids_app, tids_member_loop, IH.
Qed.

Lemma tids_AppendCurve W c : tids (AppendCurve W c).1.2 = [].
Proof.
  unfold AppendCurve. destruct (wkbHasM W _); [done|].
  destruct c as [poLine|poCC].
  - destruct (scType poLine); [|done]. simpl.
    unfold AppendCoordinateList. by rewrite tids_app, tids_coordinate_loop.
  - simpl. unfold AppendCompoundCurve. by rewrite tids_app, tids_curves_loop.
Qed.

Lemma tids_append_each {A} (append : A -> Appended) l :
  Forall (fun x => tids (append x).1.2 = []) l ->
  tids (append_each append l).1.2 = [].
Proof.
  induction 1 as [|x l Hx _ IH]; [done|]. cbn [append_each].
  destruct (append x) as [[ok out] w]. simpl in Hx.
  destruct ok; [|done].
  destruct (append_each append l) as [[ok' out'] w']. simpl in *.
  by rewrite tids_app, Hx, IH.
Qed.

Lemma tids_GeometryAppend W g : tids (GeometryAppend W g).1.2 = [].
Proof.
  induction g as [p|c|linear rings|cls ms IH] using OGRGeometry_members_ind.
  - simpl. by destruct (wkbHasM W _).
  - apply tids_AppendCurve.
  - cbn [GeometryAppend]. destruct (_ && _); [|done].
    apply tids_append_each, Forall_forall. intros c _. apply tids_AppendCurve.
  - destruct cls; try done; cbn [GeometryAppend]; by apply tids_append_each.
Qed.

Lemma tids_embedded_point W f : tids (embedded_point W f) = [].
Proof.
  unfold embedded_point. destruct (GetGeometryRef f) as [[p|c|b r|cls ms]|];
    try done.
  destruct (wkbHasM W _); [done|]. by destruct (wkbHasZ W _).
Qed.

Lemma tids_fields_loop W f iField fields :
  tids (fields_loop W f iField fields) = [].
Proof.
  revert iField. induction fields as [|defn rest IH]; intros iField; [done|].
  cbn [fields_loop].
  destruct (IsFieldSetAndNotNull W f iField); [destruct (is_OFTString defn)|];
    simpl; apply IH.
Qed.

(** A call on a feature without FID, in a layer whose first field is not
    a TID. *)
Definition numbered (call : list OGRFieldDefn * OGRFeature) : Prop :=
  GetFID call.2 = OGRNullFID
  /\ exists defn0 rest,
       call.1 = defn0 :: rest /\ EQUAL (GetNameRef defn0) "TID" = false.

Lemma ICreateFeature_numbered W fields tid f :
  numbered (fields, f) ->
  tid < LONG_MAX W ->
  exists out warnings,
    ICreateFeature W fields tid f = Some (OGRERR_NONE, tid + 1, out, warnings)
    /\ tids out = [tid + 1].
Proof.
  intros [Hfid (defn0 & rest & Hfields & Hname)] Hmax.
  simpl in Hfid, Hfields.
  unfold ICreateFeature, attribute_line, increment.
  rewrite Hfields, Hname, Hfid.
  assert ((tid <? LONG_MAX W) = true) as -> by lia.
  cbn [negb Z.eqb OGRNullFID Pos.eqb mbind option_bind].
  pose proof (tids_GeometryAppend W) as Hgeom.
  destruct (GetGeometryRef f) as [g|].
  - specialize (Hgeom g). destruct (GeometryAppend W g) as [[ok out] w].
    simpl in Hgeom. eexists _, _. split; [done|].
    rewrite tids_app, Hgeom, app_nil_r.
    change (Text "OBJE" :: (Long (tid + 1) :: ?l) ++ ?l')
      with ([Text "OBJE"; Long (tid + 1)] ++ l ++ l').
    by rewrite !tids_app, tids_embedded_point, tids_fields_loop.
  - eexists _, _. split; [done|]. rewrite app_nil_r.
    change (Text "OBJE" :: (Long (tid + 1) :: ?l) ++ ?l')
      with ([Text "OBJE"; Long (tid + 1)] ++ l ++ l').
    by rewrite !tids_app, tids_embedded_point, tids_fields_loop.
Qed.

Lemma ICreateFeature_overflow W fields tid f :
  numbered (fields, f) ->
  LONG_MAX W <= tid ->
  ICreateFeature W fields tid f = None.
Proof.
  intros [Hfid (defn0 & rest & Hfields & Hname)] Hmax.
  simpl in Hfid, Hfields.
  unfold ICreateFeature, attribute_line, increment.
  rewrite Hfields, Hname, Hfid.
  assert ((tid <? LONG_MAX W) = false) as -> by lia. done.
Qed.

(** X28: the TIDs [ICreateFeature] generates are consecutive as long as
    the static [long tid] can be incremented. Over a sequence of calls on
    features without FID, in layers whose first field is not named TID,
    that leaves the counter within [LONG_MAX], the TIDs printed are the
    static [tid] plus 1, plus 2, and so on, one for each call in the
    order of the calls, whatever layers the calls are made on and
    whether or not the geometries can be written, and the counter ends at
    the last of them. A sequence that would take the counter past
    [LONG_MAX] increments a [long] that holds [LONG_MAX], and has no
    defined result. *)
Theorem X28_generated_TIDs_are_consecutive
    (W : Externals) (tid : Z)
    (calls : list (list OGRFieldDefn * OGRFeature)) :
  Forall numbered calls ->
  tid <= LONG_MAX W ->
  (tid + Z.of_nat (length calls) <= LONG_MAX W ->
   exists out warnings,
     write_features W tid calls
     = Some (tid + Z.of_nat (length calls), out, warnings)
     /\ tids out = seqZ (tid + 1) (Z.of_nat (length calls)))
  /\ (LONG_MAX W < tid + Z.of_nat (length calls) ->
      write_features W tid calls = None).
Proof.
  intros Hcalls. revert tid.
  induction Hcalls as [|[fields f] calls Hcall _ IH]; intros tid Htid.
  { split; [|simpl; lia]. intros _. exists [], []. split; [|done].
    simpl. do 3 f_equal. lia. }
  cbn [write_features]. split.
  - intros Hmax.
    destruct (ICreateFeature_numbered W fields tid f Hcall)
      as (out1 & w1 & -> & Htids1); [simpl length in Hmax; lia|].
    cbn [mbind option_bind].
    destruct (IH (tid + 1)) as [Hin _]; [simpl length in Hmax; lia|].
    destruct Hin as (out2 & w2 & -> & Htids2); [simpl length in Hmax; lia|].
    cbn [mbind option_bind]. eexists _, _. split.
    + do 3 f_equal. simpl length. lia.
    + rewrite tids_app, Htids1, Htids2.
      rewrite (seqZ_cons (tid + 1)) by (simpl length; lia).
      simpl. do 2 f_equal. simpl length. lia.
  - intros Hmax.
    destruct (decide (tid < LONG_MAX W)) as [Hlt|Hge].
    + destruct (ICreateFeature_numbered W fields tid f Hcall Hlt)
        as (out1 & w1 & -> & _).
      cbn [mbind option_bind].
      destruct (IH (tid + 1)) as [_ Hover]; [lia|].
      rewrite Hover; [done|]. simpl length in Hmax. lia.
    + by rewrite ICreateFeature_overflow by (done || lia).
Qed.

(** X28 at two features written to two layers. *)
Lemma X28_witness_two_layers :
  (-1 + Z.of_nat 2 <= LONG_MAX plain ->
   exists out warnings,
     write_features plain (-1)
       [([mkFieldDefn "Name" true], Examples.feature (-1) "a" [None]);
        ([mkFieldDefn "Art" false; mkFieldDefn "TID" true],
         Examples.feature (-1) "b" [Some (GeomCurve Examples.square_A)])]
     = Some (-1 + Z.of_nat 2, out, warnings)
     /\ tids out = seqZ (-1 + 1) (Z.of_nat 2))
  /\ (LONG_MAX plain < -1 + Z.of_nat 2 ->
      write_features plain (-1)
        [([mkFieldDefn "Name" true], Examples.feature (-1) "a" [None]);
         ([mkFieldDefn "Art" false; mkFieldDefn "TID" true],
          Examples.feature (-1) "b" [Some (GeomCurve Examples.square_A)])]
      = None).
Proof.
  apply (X28_generated_TIDs_are_consecutive plain (-1)
    [([mkFieldDefn "Name" true], Examples.feature (-1) "a" [None]);
     ([mkFieldDefn "Art" false; mkFieldDefn "TID" true],
      Examples.feature (-1) "b" [Some (GeomCurve Examples.square_A)])]).
  - repeat constructor; by eexists _, _.
  - vm_compute. discriminate.
Defined.

(** X29: a string field is printed without a space. The loop that
    replaces the spaces keeps the length of the string, leaves no space
    in it, and changes no other character. *)
Theorem X29_replace_spaces_leaves_no_space (pszString : string) :
  String.length (replace_spaces pszString) = String.length pszString
  /\ (forall n, String.get n (replace_spaces pszString) <> Some " "%char)
  /\ (forall n c, String.get n pszString = Some c -> c <> " "%char ->
        String.get n (replace_spaces pszString) = Some c).
Proof.
  induction pszString as [|c rest (Hlen & Hnone & Hsame)]; [done|].
  split; [simpl; by rewrite Hlen|]. split.
  - intros [|n]; simpl; [|apply Hnone].
    destruct (Ascii.eqb c " ") eqn:Hc; [done|].
    intros [= ->]. by rewrite Ascii.eqb_refl in Hc.
  - intros [|n] c'; simpl; [|apply Hsame].
    intros [= ->] Hne. destruct (Ascii.eqb c' " ") eqn:Hc; [|done].
    by apply Ascii.eqb_eq in Hc.
Qed.

End WriteFacts.
